(** * copy-recursive: a shallow embedding of [index.js]

    The development models the functions of [index.js]
    ([getUniqueFileName], [formatPath], [logBrief], [copyItem] and [copy])
    over a small model of the Node.js [fs/promises] and [path] modules, and
    proves the properties the specification states about them, followed by
    further properties of the code.

    - A file system is a tree of named entries ([node]); a path is the list
      of its segments from the root of that tree, already resolved and
      normalised (no empty, [.] or [..] segment). [stat] answers ENOENT for
      a missing entry and ENOTDIR when an ancestor is a regular file, as
      POSIX does.
    - Asynchronous functions are sequential (every call is awaited), so a
      promise-returning function is a computation in the monad [M]: from a
      [world] it returns a value, throws an error, or runs out of fuel.
      Fuel bounds the [while (true)] loop of [getUniqueFileName] and the
      recursion of [copyItem]; the theorems say that enough fuel gives the
      result.
    - The world records the file tree, the calls made to [fs/promises] so
      far and the lines written to the console. A console line records what
      is logged, not its layout; [formatPath], which [logBrief] applies to
      the paths it prints, is modelled on its own as a function on
      strings. *)

From Stdlib Require Import List String Ascii Arith Bool Lia.
From Stdlib Require Import Decimal DecimalString DecimalNat.
From Stdlib Require Finite.
Import ListNotations.
Local Open Scope string_scope.
Local Open Scope list_scope.
Local Open Scope nat_scope.

(* ================================================================== *)
(** ** Paths (the [path] module on resolved segment lists)             *)
(* ================================================================== *)

Definition path := list string.

Module Path.

(** [path.join(a, b)], on resolved segment lists: with no [.] or [..]
    segment there is nothing to normalise, and joining is concatenation.
    ([resolved], below, says which lists are meant.) *)
Definition join (a b : path) : path := a ++ b.

(** [path.dirname(p)] *)
Definition dirname (p : path) : path := removelast p.

(** The last segment of [p] as a string ([''] for the root). *)
Definition base (p : path) : string := last p EmptyString.

(** [path.basename(p)], as a relative path of at most one segment. *)
Definition basename (p : path) : path :=
  match p with
  | [] => []
  | _ :: _ => [base p]
  end.

(** [path.relative(from, to)]: drop the common prefix, climb out of what
    is left of [from]. *)
Fixpoint relative (from to : path) : path :=
  match from, to with
  | f :: from', t :: to' =>
      if String.eqb f t then relative from' to'
      else repeat ".." (List.length from) ++ to
  | _, _ => repeat ".." (List.length from) ++ to
  end.

(** Split a base name at its last dot: [Some (before, fromDot)]. *)
Fixpoint splitLastDot (s : string) : option (string * string) :=
  match s with
  | EmptyString => None
  | String c s' =>
      match splitLastDot s' with
      | Some (pre, ext) => Some (String c pre, ext)
      | None => if Ascii.eqb c "."%char then Some (EmptyString, s) else None
      end
  end.

(** The [name] and [ext] fields of [path.parse]: the extension starts at
    the last dot of the base name, unless that dot is its first character
    or the base name is [..]. *)
Definition splitExt (b : string) : string * string :=
  match splitLastDot b with
  | Some (pre, ext) =>
      if String.eqb pre EmptyString || String.eqb b ".."
      then (b, EmptyString)
      else (pre, ext)
  | None => (b, EmptyString)
  end.

Record parsed := { dir : path; name : string; ext : string }.

(** [path.parse(p)], the three fields [getUniqueFileName] reads. *)
Definition parse (p : path) : parsed :=
  let '(n, e) := splitExt (base p) in
  {| dir := dirname p; name := n; ext := e |}.

End Path.

(** Template-literal interpolation of a number: its decimal digits. *)
Definition string_of_nat (n : nat) : string :=
  NilEmpty.string_of_uint (Nat.to_uint n).

(* ================================================================== *)
(** ** The file tree                                                   *)
(* ================================================================== *)

#[warnings="-register-all"]
Inductive node : Type :=
| File (content : string)
| Dir (entries : list (string * node)).

Inductive errno : Type := ENOENT | ENOTDIR | EISDIR | EEXIST.

Definition errno_eqb (a b : errno) : bool :=
  match a, b with
  | ENOENT, ENOENT | ENOTDIR, ENOTDIR | EISDIR, EISDIR | EEXIST, EEXIST => true
  | _, _ => false
  end.

(** Result of a system call on the tree. *)
Inductive sys (A : Type) : Type :=
| Done (a : A)
| Fail (code : errno).
Arguments Done {A} a.
Arguments Fail {A} code.

Module Fs.

Fixpoint get (s : string) (es : list (string * node)) : option node :=
  match es with
  | [] => None
  | (k, n) :: es' => if String.eqb s k then Some n else get s es'
  end.

Fixpoint set (s : string) (n : node) (es : list (string * node))
  : list (string * node) :=
  match es with
  | [] => []
  | (k, m) :: es' =>
      if String.eqb s k then (k, n) :: es' else (k, m) :: set s n es'
  end.

(** Path resolution: walk the segments down from [n]. *)
Fixpoint lookup (p : path) (n : node) : sys node :=
  match p with
  | [] => Done n
  | s :: p' =>
      match n with
      | File _ => Fail ENOTDIR
      | Dir es =>
          match get s es with
          | Some c => lookup p' c
          | None => Fail ENOENT
          end
      end
  end.

(** A fresh chain of directories [p] below a new entry. *)
Fixpoint chain (p : path) : node :=
  match p with
  | [] => Dir []
  | s :: p' => Dir [(s, chain p')]
  end.

(** [mkdir(p, { recursive: true })] *)
Fixpoint mkdirp (p : path) (n : node) : sys node :=
  match p with
  | [] => match n with
          | File _ => Fail EEXIST
          | Dir _ => Done n
          end
  | s :: p' =>
      match n with
      | File _ => Fail ENOTDIR
      | Dir es =>
          match get s es with
          | Some c =>
              match mkdirp p' c with
              | Done c' => Done (Dir (set s c' es))
              | Fail e => Fail e
              end
          | None => Done (Dir (es ++ [(s, chain p')]))
          end
      end
  end.

(** Create or replace the regular file at [p] with content [c]. *)
Fixpoint write (p : path) (c : string) (n : node) : sys node :=
  match p with
  | [] => match n with
          | File _ => Done (File c)
          | Dir _ => Fail EISDIR
          end
  | s :: p' =>
      match n with
      | File _ => Fail ENOTDIR
      | Dir es =>
          match get s es with
          | Some ch =>
              match write p' c ch with
              | Done ch' => Done (Dir (set s ch' es))
              | Fail e => Fail e
              end
          | None =>
              match p' with
              | [] => Done (Dir (es ++ [(s, File c)]))
              | _ :: _ => Fail ENOENT
              end
          end
      end
  end.

(** [copyFile(src, dest)] on the tree. *)
Definition copyFile (src dest : path) (n : node) : sys node :=
  match lookup src n with
  | Done (File c) => write dest c n
  | Done (Dir _) => Fail EISDIR
  | Fail e => Fail e
  end.

(** [readdir(p)]: the entry names, in directory order. *)
Definition readdir (p : path) (n : node) : sys (list string) :=
  match lookup p n with
  | Done (Dir es) => Done (map fst es)
  | Done (File _) => Fail ENOTDIR
  | Fail e => Fail e
  end.

(** The content of the regular file at [p], if there is one. *)
Definition readFile (p : path) (n : node) : option string :=
  match lookup p n with
  | Done (File c) => Some c
  | _ => None
  end.

(** Number of directory levels below a node. *)
Fixpoint height (n : node) : nat :=
  match n with
  | File _ => 0
  | Dir es =>
      S ((fix heights (l : list (string * node)) : nat :=
            match l with
            | [] => 0
            | (_, c) :: l' => Nat.max (height c) (heights l')
            end) es)
  end.

End Fs.

(** What [fs.stat] tells [copyItem] about an entry. *)
Record Stats := { isFile : bool; isDirectory : bool }.

Definition stats_of (n : node) : Stats :=
  match n with
  | File _ => {| isFile := true; isDirectory := false |}
  | Dir _ => {| isFile := false; isDirectory := true |}
  end.

(* ================================================================== *)
(** ** Errors, console and world                                       *)
(* ================================================================== *)

(** A thrown value: a system error of [fs] (it has a [code]), or one of the
    three [new Error(...)] of [copyItem] (no [code]). *)
Inductive error : Type :=
| SystemError (code : errno) (syscall : string) (p : path)
| CannotCreateDirectory (destination : path)
| CannotCopyFile (source destPath : path)
| UnknownStrategy (conflictResolution : string).

Definition code (err : error) : option errno :=
  match err with
  | SystemError c _ _ => Some c
  | _ => None
  end.

Definition is_ENOENT (err : error) : bool :=
  match code err with
  | Some c => errno_eqb c ENOENT
  | None => false
  end.

(** Calls made to [fs/promises]. *)
Inductive fscall : Type :=
| Stat (p : path)
| Access (p : path)
| Readdir (p : path)
| Mkdir (p : path)
| CopyFile (src dest : path).

(** Lines on the console; the text formatting is left out. *)
Inductive line : Type :=
| Verbose (label : string) (a : path) (b : option path)
| Brief (operation : string) (filePath : path) (destPath : option path)
| Text (s : string)
| ErrorCopying (source : path) (err : error).

Record world := {
  fs : node;
  calls : list fscall;
  console : list line
}.

Definition called (c : fscall) (w : world) : world :=
  {| fs := fs w; calls := calls w ++ [c]; console := console w |}.

Definition with_fs (n : node) (w : world) : world :=
  {| fs := n; calls := calls w; console := console w |}.

Definition printed (l : line) (w : world) : world :=
  {| fs := fs w; calls := calls w; console := console w ++ [l] |}.

(* ================================================================== *)
(** ** The monad of asynchronous functions                             *)
(* ================================================================== *)

Inductive result (A : Type) : Type :=
| Ret (a : A) (w : world)
| Throw (err : error) (w : world)
| OutOfFuel.
Arguments Ret {A} a w.
Arguments Throw {A} err w.
Arguments OutOfFuel {A}.

Definition M (A : Type) : Type := world -> result A.

Definition ret {A} (a : A) : M A := fun w => Ret a w.

Definition bind {A B} (m : M A) (k : A -> M B) : M B :=
  fun w =>
    match m w with
    | Ret a w' => k a w'
    | Throw e w' => Throw e w'
    | OutOfFuel => OutOfFuel
    end.

Definition throw {A} (err : error) : M A := fun w => Throw err w.

Definition outOfFuel {A} : M A := fun _ => OutOfFuel.

(** [try { body } catch (err) { handler }] *)
Definition try_catch {A} (body : M A) (handler : error -> M A) : M A :=
  fun w =>
    match body w with
    | Throw e w' => handler e w'
    | r => r
    end.

Declare Scope async_scope.
Delimit Scope async_scope with async.
Notation "x <- m ;; k" := (bind m (fun x => k))
  (at level 61, m at next level, right associativity) : async_scope.
Notation "m ;; k" := (bind m (fun _ => k))
  (at level 61, right associativity) : async_scope.
Local Open Scope async_scope.

(** [for (const x of items) await body(x)] *)
Fixpoint forEach {A} (items : list A) (body : A -> M unit) : M unit :=
  match items with
  | [] => ret tt
  | x :: xs => body x ;; forEach xs body
  end.

(** [if (c) stmt] *)
Definition when (c : bool) (m : M unit) : M unit := if c then m else ret tt.

(** Lift a system call on the tree: log the call, then return its value
    and new tree, or throw its error. *)
Definition syscall {A} (c : fscall) (name : string) (p : path)
    (f : node -> sys (A * node)) : M A :=
  fun w =>
    let w' := called c w in
    match f (fs w') with
    | Done (a, n) => Ret a (with_fs n w')
    | Fail e => Throw (SystemError e name p) w'
    end.

Definition query {A} (r : sys A) (n : node) : sys (A * node) :=
  match r with
  | Done a => Done (a, n)
  | Fail e => Fail e
  end.

Definition update (r : sys node) : sys (unit * node) :=
  match r with
  | Done n => Done (tt, n)
  | Fail e => Fail e
  end.

Module fs_promises.

Definition stat (p : path) : M Stats :=
  syscall (Stat p) "stat" p
    (fun n => query (match Fs.lookup p n with
                     | Done c => Done (stats_of c)
                     | Fail e => Fail e
                     end) n).

Definition access (p : path) : M unit :=
  syscall (Access p) "access" p
    (fun n => query (match Fs.lookup p n with
                     | Done _ => Done tt
                     | Fail e => Fail e
                     end) n).

Definition readdir (p : path) : M (list string) :=
  syscall (Readdir p) "scandir" p (fun n => query (Fs.readdir p n) n).

(** [fs.mkdir(p, { recursive: true })] *)
Definition mkdir (p : path) : M unit :=
  syscall (Mkdir p) "mkdir" p (fun n => update (Fs.mkdirp p n)).

Definition copyFile (src dest : path) : M unit :=
  syscall (CopyFile src dest) "copyfile" src
    (fun n => update (Fs.copyFile src dest n)).

End fs_promises.

Definition console_log (l : line) : M unit := fun w => Ret tt (printed l w).
Definition console_error (l : line) : M unit := fun w => Ret tt (printed l w).

(* ================================================================== *)
(** ** [index.js]                                                      *)
(* ================================================================== *)

(** One round of the [while (true)] loop of [getUniqueFileName]: the [try]
    block either falls through with the next candidate and counter, or the
    [catch] returns. *)
Definition uniqueStep (filePath uniquePath : path) (counter : nat)
  : M (option (path * nat)) :=
  try_catch
    (fs_promises.access uniquePath ;;
     let p := Path.parse filePath in
     ret (Some (Path.join (Path.dir p)
                  [(Path.name p ++ "_" ++ string_of_nat counter ++ Path.ext p)%string],
                counter + 1)))
    (fun _ => ret None).

Fixpoint uniqueLoop (fuel : nat) (filePath uniquePath : path) (counter : nat)
  : M path :=
  match fuel with
  | 0 => outOfFuel
  | S fuel' =>
      next <- uniqueStep filePath uniquePath counter ;;
      match next with
      | Some (uniquePath', counter') =>
          uniqueLoop fuel' filePath uniquePath' counter'
      | None => ret uniquePath
      end
  end.

Definition getUniqueFileName (fuel : nat) (filePath : path) : M path :=
  uniqueLoop fuel filePath filePath 1.

(** [s.split(path.sep)], with the POSIX separator: the first segment and
    the segments after it.  A string of characters stands for a JavaScript
    string, one character for one code unit. *)
Fixpoint splitSep (s : string) : string * list string :=
  match s with
  | EmptyString => (EmptyString, [])
  | String c s' =>
      let (h, t) := splitSep s' in
      if Ascii.eqb c "/"%char then (EmptyString, h :: t)
      else (String c h, t)
  end.

Definition split (s : string) : list string :=
  let (h, t) := splitSep s in h :: t.

(** [s.slice(-n)]: the last [n] characters, or all of [s]. *)
Definition slice_last (n : nat) (s : string) : string :=
  substring (String.length s - n) n s.

(** The [while] loop of [formatPath], with [parts[i], ..., parts[0]] as
    [rest]. *)
Fixpoint shortenLoop (maxLength : nat) (rest : list string)
    (shortenedPath : string) : string :=
  match rest with
  | [] => shortenedPath
  | part :: rest' =>
      if String.length shortenedPath <? maxLength
      then shortenLoop maxLength rest' (part ++ "/" ++ shortenedPath)%string
      else shortenedPath
  end.

(** [formatPath(filePath)] *)
Definition formatPath (filePath : string) : string :=
  let maxLength := 30 in
  if String.length filePath <=? maxLength then filePath
  else
    let parts := split filePath in
    let fileName := last parts EmptyString in
    let parts := removelast parts in
    let shortenedPath :=
      shortenLoop maxLength (List.rev parts) ("..." ++ "/" ++ fileName)%string in
    if maxLength <? String.length shortenedPath
    then ("..." ++ slice_last maxLength shortenedPath)%string
    else shortenedPath.

(** [logBrief(operation, filePath, destPath)] *)
Definition logBrief (operation : string) (filePath : path)
    (destPath : option path) : M unit :=
  console_log (Brief operation filePath destPath).

(** The two [if (logLevel === ...)] lines that follow each action. *)
Definition report (logLevel label operation : string) (a : path)
    (b : option path) (src : path) (dst : option path) : M unit :=
  when (String.eqb logLevel "verbose") (console_log (Verbose label a b)) ;;
  when (String.eqb logLevel "brief") (logBrief operation src dst).

(** The [try] block around the destination of a directory
    ([if (!flatten)]). *)
Definition ensureDirectory (destination : path) : M unit :=
  try_catch
    (destStats <- fs_promises.stat destination ;;
     if isFile destStats then throw (CannotCreateDirectory destination)
     else ret tt)
    (fun err =>
       if is_ENOENT err then fs_promises.mkdir destination else throw err).

(** The [else] branch of [copyItem]: [source] is not a directory. *)
Definition copyFileItem (fuel : nat) (source destination : path)
    (flatten : bool) (conflictResolution logLevel : string) : M unit :=
  let destPath :=
    if flatten then Path.join destination (Path.basename source)
    else destination in
  try_catch
    (destStats <- fs_promises.stat destPath ;;
     if isDirectory destStats then throw (CannotCopyFile source destPath)
     else if String.eqb conflictResolution "overwrite" then
       fs_promises.copyFile source destPath ;;
       report logLevel "Overwritten" "overwrite" destPath None
              source (Some destPath)
     else if String.eqb conflictResolution "skip" then
       report logLevel "Skipped" "skip" destPath None source None
     else if String.eqb conflictResolution "rename" then
       uniquePath <- getUniqueFileName fuel destPath ;;
       fs_promises.copyFile source uniquePath ;;
       report logLevel "Renamed" "rename" source (Some uniquePath)
              source (Some uniquePath)
     else throw (UnknownStrategy conflictResolution))
    (fun err =>
       if is_ENOENT err then
         fs_promises.mkdir (Path.dirname destPath) ;;
         fs_promises.copyFile source destPath ;;
         report logLevel "Copied" "copy" source (Some destPath)
                source (Some destPath)
       else throw err).

Fixpoint copyItem (fuel : nat) (source destination : path)
    (depth height : nat) (flatten : bool)
    (conflictResolution logLevel : string) (currentDepth : nat) : M unit :=
  match fuel with
  | 0 => outOfFuel
  | S fuel' =>
      try_catch
        (stats <- fs_promises.stat source ;;
         if isDirectory stats then
           if (0 <? depth) && (depth <=? currentDepth) then ret tt
           else if (0 <? height) && (height <=? currentDepth) then ret tt
           else
             items <- fs_promises.readdir source ;;
             if (List.length items =? 0) && flatten then ret tt
             else
               when (negb flatten) (ensureDirectory destination) ;;
               forEach items (fun item =>
                 let sourcePath := Path.join source [item] in
                 let destPath :=
                   if flatten
                   then Path.join destination (Path.basename [item])
                   else Path.join destination [item] in
                 copyItem fuel' sourcePath destPath depth height flatten
                          conflictResolution logLevel (currentDepth + 1))
         else
           copyFileItem fuel source destination flatten
                        conflictResolution logLevel)
        (fun err => console_error (ErrorCopying source err))
  end.

(** A configuration entry; a missing property is [None]. *)
Inductive sources : Type :=
| One (s : path)
| Many (l : list path).

Record config := {
  src : sources;
  dest : path;
  depth : option nat;
  height : option nat;
  flatten : option bool;
  conflictResolution : option string;
  logLevel : option string
}.

(** Destructuring default: [x = d]. *)
Definition default {A} (d : A) (o : option A) : A :=
  match o with
  | Some a => a
  | None => d
  end.

(** The body of the [for (const item of cfg)] loop of [copy]. *)
Definition copyTask (fuel : nat) (item : config) : M unit :=
  let depth := default 0 (depth item) in
  let height := default 0 (height item) in
  let flatten := default false (flatten item) in
  let conflictResolution := default "overwrite" (conflictResolution item) in
  let logLevel := default "none" (logLevel item) in
  when (String.eqb logLevel "brief")
       (console_log (Text "Starting copy task...")) ;;
  match src item with
  | Many l =>
      forEach l (fun source =>
        let destination :=
          if flatten then dest item
          else Path.join (dest item)
                 (Path.relative (Path.dirname source) source) in
        copyItem fuel source destination depth height flatten
                 conflictResolution logLevel 0)
  | One s =>
      let destination :=
        if flatten then dest item
        else Path.join (dest item) (Path.basename s) in
      copyItem fuel s destination depth height flatten
               conflictResolution logLevel 0
  end ;;
  when (String.eqb logLevel "brief")
       (console_log (Text "Copy task completed")).

(** [copy(cfg, done)]; [done] is the optional callback. *)
Definition copy (fuel : nat) (cfg : list config) (done : option (M unit))
  : M unit :=
  forEach cfg (copyTask fuel) ;;
  match done with
  | Some callback => callback
  | None => ret tt
  end.

(* ================================================================== *)
(** ** Vocabulary of the properties                                   *)
(* ================================================================== *)

(** The candidates [getUniqueFileName] tries, in order: the original path,
    then [name_1ext], [name_2ext], ... next to it. *)
Definition candidate (filePath : path) (k : nat) : path :=
  match k with
  | 0 => filePath
  | S _ =>
      let p := Path.parse filePath in
      Path.join (Path.dir p)
        [(Path.name p ++ "_" ++ string_of_nat k ++ Path.ext p)%string]
  end.

(** The effective destination of a file ([destPath] in the [else] branch
    of [copyItem]). *)
Definition effective (flatten : bool) (source destination : path) : path :=
  if flatten then Path.join destination (Path.basename source)
  else destination.

(** [p] is [q] or an ancestor of [q]. *)
Fixpoint is_prefix (p q : path) : bool :=
  match p, q with
  | [], _ => true
  | _ :: _, [] => false
  | s :: p', k :: q' => String.eqb s k && is_prefix p' q'
  end.

(** Neither path is an ancestor of the other (nor are they equal). *)
Definition apart (p q : path) : Prop :=
  is_prefix p q = false /\ is_prefix q p = false.

(** Where a copy may write: in the directory of the effective
    destination. *)
Definition region (flatten : bool) (source destination : path) : path :=
  Path.dirname (effective flatten source destination).

(** The paths a call may change: [mkdir -p p] creates [p] and its missing
    ancestors; [copyFile _ d] writes [d] (and what is found below [d] is
    then no longer "absent" but "not a directory"). *)
Definition touches (c : fscall) (q : path) : bool :=
  match c with
  | Mkdir p => is_prefix q p
  | CopyFile _ d => is_prefix q d || is_prefix d q
  | _ => false
  end.

(** Calls that only read the tree. *)
Definition is_query (c : fscall) : Prop :=
  match c with
  | Stat _ | Access _ | Readdir _ => True
  | Mkdir _ | CopyFile _ _ => False
  end.

(** A directory at depth [currentDepth] is entered: neither bound stops
    the traversal there. *)
Definition within_bounds (depth height currentDepth : nat) : Prop :=
  (depth = 0 \/ currentDepth < depth) /\ (height = 0 \/ currentDepth < height).

(** The calls a traversal rooted at [root], entered at depth
    [currentDepth], may make: it lists directories and copies files only
    as far below [root] as the bounds allow, and creates directories and
    files only below [B]. *)
Definition allowed (root : path) (depth height currentDepth : nat)
    (B : path) (c : fscall) : Prop :=
  match c with
  | Readdir p =>
      exists rel,
        p = root ++ rel
        /\ (0 < depth -> currentDepth + List.length rel < depth)
        /\ (0 < height -> currentDepth + List.length rel < height)
  | CopyFile s d =>
      (exists rel,
         s = root ++ rel
         /\ (0 < depth -> currentDepth + List.length rel <= depth)
         /\ (0 < height -> currentDepth + List.length rel <= height))
      /\ is_prefix B d = true
  | Mkdir p => is_prefix B p = true
  | Stat _ | Access _ => True
  end.

(** From [w] to [w']: some calls were made, each satisfying [Q]; the tree
    changed only where a call touches it, and the file held by a path
    changed only if the path was the destination of a [copyFile]. *)
Definition effect (Q : fscall -> Prop) (w w' : world) : Prop :=
  exists new,
    calls w' = calls w ++ new
    /\ Forall Q new
    /\ (forall q, (forall c, In c new -> touches c q = false) ->
                  Fs.lookup q (fs w') = Fs.lookup q (fs w))
    /\ (forall q, (forall s, ~ In (CopyFile s q) new) ->
                  Fs.readFile q (fs w') = Fs.readFile q (fs w)).

(** Every run of [m] that ends has effect [Q], and returns a value
    satisfying [R]. *)
Definition run_inv {A} (Q : fscall -> Prop) (R : A -> Prop) (m : M A)
  : Prop :=
  forall w,
    match m w with
    | Ret a w' => effect Q w w' /\ R a
    | Throw _ w' => effect Q w w'
    | OutOfFuel => True
    end.


(** The sources of a task, in order. *)
Definition sources_of (item : config) : list path :=
  match src item with
  | One s => [s]
  | Many l => l
  end.

(** The destination [copy] passes to [copyItem] for a source of a task. *)
Definition destination_of (item : config) (source : path) : path :=
  if default false (flatten item) then dest item
  else Path.join (dest item) (Path.basename source).


(* ================================================================== *)
(** ** Example trees and tasks                                        *)
(* ================================================================== *)

(** A world with tree [t], before any call. *)
Definition world_of (t : node) : world :=
  {| fs := t; calls := []; console := [] |}.

(** [a/ { x.txt = "1", b/ { y.txt = "2" } }] *)
Definition nestedTree : node :=
  Dir [("a", Dir [("x.txt", File "1"); ("b", Dir [("y.txt", File "2")])])].

(** The task [{ src: 'a', dest: 'out', flatten: true }]. *)
Definition flattenTask : config :=
  {| src := One ["a"]; dest := ["out"]; depth := None; height := None;
     flatten := Some true; conflictResolution := None; logLevel := None |}.

(** [file1.txt = "new"] next to [out/ { file1.txt = "old" }]. *)
Definition conflictTree : node :=
  Dir [("file1.txt", File "new"); ("out", Dir [("file1.txt", File "old")])].

(** [file1.txt] and a directory [folder1/] next to a regular file [out]
    and to [dist/ { file1.txt/ {}, folder1 = "a file" }]. *)
Definition kindTree : node :=
  Dir [("file1.txt", File "1");
       ("folder1", Dir [("file3.txt", File "3")]);
       ("out", File "not a directory");
       ("dist", Dir [("file1.txt", Dir []); ("folder1", File "a file")])].

(** The task of the rename scenario: one source, flattened into
    [destDir], conflicts resolved by renaming. *)
Definition renameTask (source destDir : path) (level : option string)
  : config :=
  {| src := One source; dest := destDir; depth := None; height := None;
     flatten := Some true; conflictResolution := Some "rename";
     logLevel := level |}.

(** The task [{ src: source, dest: destDir }], every option left to its
    default. *)
Definition plainTask (source destDir : path) : config :=
  {| src := One source; dest := destDir; depth := None; height := None;
     flatten := None; conflictResolution := None; logLevel := None |}.



(** Two tasks: the first with a missing source followed by a file, the
    second copying a directory. *)
Definition mixedTasks : list config :=
  [ {| src := Many [["missing.txt"]; ["file1.txt"]]; dest := ["copy1"];
       depth := None; height := None; flatten := None;
       conflictResolution := None; logLevel := None |};
    {| src := One ["folder1"]; dest := ["copy2"];
       depth := None; height := None; flatten := None;
       conflictResolution := None; logLevel := None |} ].

(* ================================================================== *)
(** ** Vocabulary of the further properties                            *)
(* ================================================================== *)

(** Every run of [m] that ends relates the world it started from to the
    world it ends in by [P]. *)
Definition run_rel {A} (P : world -> world -> Prop) (m : M A) : Prop :=
  forall w,
    match m w with
    | Ret _ w' => P w w'
    | Throw _ w' => P w w'
    | OutOfFuel => True
    end.

(** What is at a path: a regular file ([Some true]), a directory
    ([Some false]) or nothing ([None]). *)
Definition kind_at (p : path) (t : node) : option bool :=
  match Fs.lookup p t with
  | Done (File _) => Some true
  | Done (Dir _) => Some false
  | Fail _ => None
  end.

(** What [stat] and a read tell about a path: a file with its content, a
    directory, or the error. *)
Definition observe (p : path) (t : node) : sys (option string) :=
  match Fs.lookup p t with
  | Done (File c) => Done (Some c)
  | Done (Dir _) => Done None
  | Fail e => Fail e
  end.

(** The names of a directory are pairwise distinct, at every level. *)
Fixpoint wf (n : node) : Prop :=
  match n with
  | File _ => True
  | Dir es =>
      NoDup (map fst es)
      /\ (fix all (l : list (string * node)) : Prop :=
            match l with
            | [] => True
            | (_, c) :: l' => wf c /\ all l'
            end) es
  end.

(** A line written by [console.error]. *)
Definition is_error_line (l : line) : Prop :=
  match l with
  | ErrorCopying _ _ => True
  | _ => False
  end.

(** The same task with another [src]. *)
Definition with_src (item : config) (s : sources) : config :=
  {| src := s; dest := dest item; depth := depth item;
     height := height item; flatten := flatten item;
     conflictResolution := conflictResolution item;
     logLevel := logLevel item |}.

(** The log level at which a line is printed: errors at every level,
    [console.log] lines of the form [Copied: ...] only at [verbose], brief
    lines and the two task banners only at [brief]. *)
Definition line_at_level (logLevel : string) (l : line) : Prop :=
  match l with
  | ErrorCopying _ _ => True
  | Verbose _ _ _ => logLevel = "verbose"
  | Brief _ _ _ | Text _ => logLevel = "brief"
  end.

(** The directory into which a traversal from [source] to [destination]
    writes the file it finds at [rel] below the source. *)
Definition target_dir (flatten : bool) (destination rel : path) : path :=
  if flatten then destination ++ rel
  else Path.dirname (destination ++ rel).

(** A [copyFile] call of such a traversal reads a file below the source
    and writes into its target directory. *)
Definition placed (flatten : bool) (source destination : path)
    (c : fscall) : Prop :=
  match c with
  | CopyFile s d =>
      exists rel,
        s = source ++ rel
        /\ Path.dirname d = target_dir flatten destination rel
  | _ => True
  end.

(** A string with a separator in it. *)
Fixpoint has_sep (s : string) : bool :=
  match s with
  | EmptyString => false
  | String c s' => Ascii.eqb c "/"%char || has_sep s'
  end.

(** A segment that names an entry: not empty, not [.] or [..], and
    without a separator. *)
Definition is_name (s : string) : bool :=
  negb (String.eqb s EmptyString) && negb (String.eqb s ".")
  && negb (String.eqb s "..") && negb (has_sep s).

(** A resolved path: every segment names an entry.  On such paths
    [path.join], [path.basename] and [path.dirname] have nothing to
    normalise, which is what [Path] models. *)
Definition resolved (p : path) : bool := forallb is_name p.

(* ================================================================== *)
(** ** Running the primitives                                          *)
(* ================================================================== *)

Lemma stat_Done p w c :
  Fs.lookup p (fs w) = Done c ->
  fs_promises.stat p w = Ret (stats_of c) (called (Stat p) w).
Proof.
  intros H. unfold fs_promises.stat, syscall. cbn [fs called].
  rewrite H. reflexivity.
Qed.

Lemma stat_Fail p w e :
  Fs.lookup p (fs w) = Fail e ->
  fs_promises.stat p w = Throw (SystemError e "stat" p) (called (Stat p) w).
Proof.
  intros H. unfold fs_promises.stat, syscall. cbn [fs called].
  rewrite H. reflexivity.
Qed.

Lemma access_Done p w c :
  Fs.lookup p (fs w) = Done c ->
  fs_promises.access p w = Ret tt (called (Access p) w).
Proof.
  intros H. unfold fs_promises.access, syscall. cbn [fs called].
  rewrite H. reflexivity.
Qed.

Lemma access_Fail p w e :
  Fs.lookup p (fs w) = Fail e ->
  fs_promises.access p w
  = Throw (SystemError e "access" p) (called (Access p) w).
Proof.
  intros H. unfold fs_promises.access, syscall. cbn [fs called].
  rewrite H. reflexivity.
Qed.

Lemma readdir_Done p w es :
  Fs.lookup p (fs w) = Done (Dir es) ->
  fs_promises.readdir p w = Ret (map fst es) (called (Readdir p) w).
Proof.
  intros H. unfold fs_promises.readdir, syscall, Fs.readdir.
  cbn [fs called]. rewrite H. reflexivity.
Qed.

Lemma mkdir_Done p w n :
  Fs.mkdirp p (fs w) = Done n ->
  fs_promises.mkdir p w = Ret tt (with_fs n (called (Mkdir p) w)).
Proof.
  intros H. unfold fs_promises.mkdir, syscall. cbn [fs called].
  rewrite H. reflexivity.
Qed.

Lemma copyFile_Done s d w n :
  Fs.copyFile s d (fs w) = Done n ->
  fs_promises.copyFile s d w = Ret tt (with_fs n (called (CopyFile s d) w)).
Proof.
  intros H. unfold fs_promises.copyFile, syscall. cbn [fs called].
  rewrite H. reflexivity.
Qed.

(** [report] only prints: at most the two lines of its log level. *)
Lemma report_run logLevel label op a b s d w :
  exists lines,
    report logLevel label op a b s d w
    = Ret tt {| fs := fs w; calls := calls w;
                console := console w ++ lines |}
    /\ Forall (fun l => l = Verbose label a b \/ l = Brief op s d) lines.
Proof.
  unfold report, when, bind, logBrief, console_log, ret, printed.
  destruct (String.eqb logLevel "verbose"), (String.eqb logLevel "brief");
    cbn [fs calls console].
  - exists [Verbose label a b; Brief op s d]. split.
    + now rewrite <- app_assoc.
    + constructor; [now left | constructor; [now right | constructor]].
  - exists [Verbose label a b]. split; [reflexivity|].
    constructor; [now left | constructor].
  - exists [Brief op s d]. split; [reflexivity|].
    constructor; [now right | constructor].
  - exists []. split; [now rewrite app_nil_r; destruct w | constructor].
Qed.

(* ================================================================== *)
(** ** Skip policy (C9)                                                *)
(* ================================================================== *)

(** C9. Under the skip policy, when the effective destination already
    exists as a file, [copyItem] takes no file-system action: whatever the
    contents [cs] of the source and [cd] of the destination, it returns
    with the tree unchanged (so the destination keeps [cd] and no entry is
    created), having made only the two [stat] queries, and it reports no
    error. *)
Theorem skip_takes_no_action
    fuel source destination depth height flatten logLevel currentDepth
    w cs cd :
  Fs.lookup source (fs w) = Done (File cs) ->
  Fs.lookup (effective flatten source destination) (fs w)
    = Done (File cd) ->
  exists w',
    copyItem (S fuel) source destination depth height flatten
             "skip" logLevel currentDepth w = Ret tt w'
    /\ fs w' = fs w
    /\ calls w' = calls w
                  ++ [Stat source; Stat (effective flatten source destination)]
    /\ exists lines,
         console w' = console w ++ lines
         /\ Forall (fun l =>
              l = Verbose "Skipped" (effective flatten source destination) None
              \/ l = Brief "skip" source None) lines.
Proof.
  intros Hs Hd.
  cbn [copyItem]. unfold try_catch at 1. unfold bind at 1.
  rewrite (stat_Done _ _ _ Hs). cbn [stats_of isDirectory].
  unfold copyFileItem. fold (effective flatten source destination).
  unfold try_catch, bind.
  rewrite (stat_Done _ (called (Stat source) w) (File cd)) by exact Hd.
  cbn [stats_of isDirectory String.eqb Ascii.eqb Bool.eqb].
  destruct (report_run logLevel "Skipped" "skip"
              (effective flatten source destination) None source None
              (called (Stat (effective flatten source destination))
                 (called (Stat source) w))) as (lines & Hrun & Hlines).
  rewrite Hrun. eexists. split; [reflexivity|].
  cbn [fs calls console called]. repeat split.
  - now rewrite <- app_assoc.
  - exists lines. split; [reflexivity | exact Hlines].
Qed.

(* ================================================================== *)
(** ** Conflicts of kind (C7)                                          *)
(* ================================================================== *)

Lemma bounds_pass depth height currentDepth :
  within_bounds depth height currentDepth ->
  (0 <? depth) && (depth <=? currentDepth) = false
  /\ (0 <? height) && (height <=? currentDepth) = false.
Proof.
  intros [[Hd | Hd] [Hh | Hh]]; subst; split;
    try reflexivity;
    apply andb_false_iff; right; apply Nat.leb_gt; assumption.
Qed.

(** C7. A file whose effective destination is occupied by a directory, and
    a directory (that the bounds let the traversal enter, without
    [flatten]) whose destination is occupied by a file, are both reported
    as failed ([Error copying source: ...]); [copyItem] returns, the tree
    is left exactly as it was, and the only calls made are queries. *)
Theorem kind_conflict_fails_and_preserves
    fuel source destination depth height flatten conflictResolution
    logLevel currentDepth w err :
  (exists cs es,
     Fs.lookup source (fs w) = Done (File cs)
     /\ Fs.lookup (effective flatten source destination) (fs w)
        = Done (Dir es)
     /\ err = CannotCopyFile source (effective flatten source destination))
  \/ (exists items c,
        Fs.lookup source (fs w) = Done (Dir items)
        /\ within_bounds depth height currentDepth
        /\ flatten = false
        /\ Fs.lookup destination (fs w) = Done (File c)
        /\ err = CannotCreateDirectory destination) ->
  exists w',
    copyItem (S fuel) source destination depth height flatten
             conflictResolution logLevel currentDepth w = Ret tt w'
    /\ fs w' = fs w
    /\ console w' = console w ++ [ErrorCopying source err]
    /\ exists new, calls w' = calls w ++ new /\ Forall is_query new.
Proof.
  intros [(cs & es & Hs & Hd & ->) | (items & c & Hs & Hb & -> & Hd & ->)].
  - cbn [copyItem]. unfold try_catch at 1. unfold bind at 1.
    rewrite (stat_Done _ _ _ Hs). cbn [stats_of isDirectory].
    unfold copyFileItem. fold (effective flatten source destination).
    unfold try_catch, bind.
    rewrite (stat_Done _ (called (Stat source) w) (Dir es)) by exact Hd.
    cbn [stats_of isDirectory throw is_ENOENT code].
    unfold console_error. eexists. split; [reflexivity|].
    cbn [fs calls console called printed]. repeat split.
    exists [Stat source; Stat (effective flatten source destination)].
    split; [now rewrite <- app_assoc | repeat constructor].
  - destruct (bounds_pass _ _ _ Hb) as [Hdepth Hheight].
    cbn [copyItem]. unfold try_catch at 1. unfold bind at 1.
    rewrite (stat_Done _ _ _ Hs). cbn [stats_of isDirectory].
    rewrite Hdepth, Hheight. unfold bind at 1.
    rewrite (readdir_Done _ (called (Stat source) w) items) by exact Hs.
    rewrite andb_false_r. cbn [negb when].
    unfold bind at 1. unfold ensureDirectory, try_catch, bind.
    rewrite (stat_Done _ (called (Readdir source) (called (Stat source) w))
               (File c)) by exact Hd.
    cbn [stats_of isFile throw is_ENOENT code].
    unfold console_error. eexists. split; [reflexivity|].
    cbn [fs calls console called printed]. repeat split.
    exists [Stat source; Readdir source; Stat destination].
    split; [now rewrite <- !app_assoc | repeat constructor].
Qed.

(* ================================================================== *)
(** ** Facts about the file tree                                       *)
(* ================================================================== *)

Section FsFacts.

Implicit Types (s k : string) (n : node) (es : list (string * node))
               (p q : path) (t : node).

Lemma get_set_same s n es :
  Fs.get s (Fs.set s n es)
  = match Fs.get s es with Some _ => Some n | None => None end.
Proof.
  induction es as [|[k m] es IH]; cbn; [reflexivity|].
  destruct (String.eqb s k) eqn:E; cbn; rewrite E; auto.
Qed.

Lemma get_set_other s k n es :
  k <> s -> Fs.get k (Fs.set s n es) = Fs.get k es.
Proof.
  intros Hne. induction es as [|[j m] es IH]; cbn; [reflexivity|].
  destruct (String.eqb s j) eqn:E; cbn.
  - apply String.eqb_eq in E. subst j.
    apply String.eqb_neq in Hne. now rewrite Hne.
  - now rewrite IH.
Qed.

Lemma get_app s es l :
  Fs.get s (es ++ l)
  = match Fs.get s es with Some c => Some c | None => Fs.get s l end.
Proof.
  induction es as [|[k m] es IH]; cbn; [reflexivity|].
  now destruct (String.eqb s k).
Qed.

Lemma get_In s es c : Fs.get s es = Some c -> In s (map fst es).
Proof.
  induction es as [|[k m] es IH]; cbn; [discriminate|].
  destruct (String.eqb_spec s k); auto.
Qed.

(** A fresh chain of directories holds no file. *)
Lemma readFile_chain p q : Fs.readFile q (Fs.chain p) = None.
Proof.
  unfold Fs.readFile. revert q.
  induction p as [|s p IH]; intros [|k q]; cbn; try reflexivity.
  - destruct (String.eqb k s); [apply IH | reflexivity].
Qed.

Lemma readFile_cons s q es :
  Fs.readFile (s :: q) (Dir es)
  = match Fs.get s es with Some c => Fs.readFile q c | None => None end.
Proof. unfold Fs.readFile. cbn. now destruct (Fs.get s es). Qed.

(** [mkdir -p] creates directories only: every path holds the same file,
    or no file, as before. *)
Lemma mkdirp_readFile p : forall t t' q,
  Fs.mkdirp p t = Done t' -> Fs.readFile q t' = Fs.readFile q t.
Proof.
  induction p as [|s p IH]; intros t t' q H; cbn in H.
  - destruct t; inversion H; reflexivity.
  - destruct t as [|es]; [discriminate|].
    destruct (Fs.get s es) as [c|] eqn:G.
    + destruct (Fs.mkdirp p c) as [c'|] eqn:Hc; inversion H; subst t'.
      destruct q as [|k q]; [reflexivity|].
      rewrite !readFile_cons.
      destruct (String.eqb_spec k s) as [->|Hne].
      * rewrite get_set_same, G. eapply IH; eauto.
      * now rewrite get_set_other.
    + inversion H; subst t'.
      destruct q as [|k q]; [reflexivity|].
      rewrite !readFile_cons, get_app.
      destruct (Fs.get k es) eqn:Gk; [reflexivity|].
      cbn. destruct (String.eqb k s); [apply readFile_chain | reflexivity].
Qed.

(** A successful write puts the content at the path... *)
Lemma write_readFile_same p : forall c t t',
  Fs.write p c t = Done t' -> Fs.readFile p t' = Some c.
Proof.
  induction p as [|s p IH]; intros c t t' H; cbn in H.
  - destruct t; inversion H; reflexivity.
  - destruct t as [|es]; [discriminate|].
    destruct (Fs.get s es) as [ch|] eqn:G.
    + destruct (Fs.write p c ch) as [ch'|] eqn:Hc; inversion H; subst t'.
      rewrite readFile_cons, get_set_same, G. eapply IH; eauto.
    + destruct p; inversion H; subst t'.
      rewrite readFile_cons, get_app, G. cbn. now rewrite String.eqb_refl.
Qed.

(** ... and changes the file held by no other path. *)
Lemma write_readFile_other p : forall c t t' q,
  Fs.write p c t = Done t' -> q <> p ->
  Fs.readFile q t' = Fs.readFile q t.
Proof.
  induction p as [|s p IH]; intros c t t' q H Hne; cbn in H.
  - destruct t; inversion H; subst.
    destruct q; [congruence | reflexivity].
  - destruct t as [|es]; [discriminate|].
    destruct (Fs.get s es) as [ch|] eqn:G.
    + destruct (Fs.write p c ch) as [ch'|] eqn:Hc; inversion H; subst t'.
      destruct q as [|k q]; [reflexivity|].
      rewrite !readFile_cons.
      destruct (String.eqb_spec k s) as [->|Hk].
      * rewrite get_set_same, G. eapply IH; eauto. congruence.
      * now rewrite get_set_other.
    + destruct p; inversion H; subst t'.
      destruct q as [|k q]; [reflexivity|].
      rewrite !readFile_cons, get_app.
      destruct (Fs.get k es) eqn:Gk; [reflexivity|].
      cbn. destruct (String.eqb_spec k s) as [->|Hk]; [|reflexivity].
      destruct q; [congruence | reflexivity].
Qed.

Lemma write_chain p c :
  p <> [] -> exists t', Fs.write p c (Fs.chain (removelast p)) = Done t'.
Proof.
  induction p as [|s p IH]; intros Hne; [congruence|].
  destruct p as [|k p].
  - cbn. eauto.
  - destruct IH as [t' Ht']; [discriminate|].
    change (removelast (s :: k :: p)) with (s :: removelast (k :: p)).
    set (kp := k :: p) in *.
    cbn [Fs.chain Fs.write Fs.get]. rewrite String.eqb_refl.
    rewrite Ht'. eauto.
Qed.

(** When [stat] answers ENOENT for [p], [mkdir -p] of its parent succeeds
    and a file can then be written at [p]. *)
Lemma mkdirp_parent_then_write p : forall c t,
  Fs.lookup p t = Fail ENOENT ->
  exists t1 t2,
    Fs.mkdirp (removelast p) t = Done t1 /\ Fs.write p c t1 = Done t2.
Proof.
  induction p as [|s p IH]; intros c t H; cbn in H; [discriminate|].
  destruct t as [|es]; [discriminate|].
  destruct (Fs.get s es) as [ch|] eqn:G.
  - destruct p as [|k p]; [discriminate|].
    destruct (IH c ch H) as (c1 & c2 & Hm & Hw).
    change (removelast (s :: k :: p)) with (s :: removelast (k :: p)).
    set (kp := k :: p) in *.
    cbn [Fs.mkdirp]. rewrite G, Hm.
    do 2 eexists. split; [reflexivity|].
    cbn [Fs.write]. rewrite get_set_same, G, Hw. reflexivity.
  - destruct p as [|k p].
    + exists (Dir es), (Dir (es ++ [(s, File c)])).
      split; cbn; [reflexivity | now rewrite G].
    + change (removelast (s :: k :: p)) with (s :: removelast (k :: p)).
      destruct (write_chain (k :: p) c) as [t' Ht']; [discriminate|].
      set (kp := k :: p) in *.
      cbn [Fs.mkdirp]. rewrite G.
      do 2 eexists. split; [reflexivity|].
      cbn [Fs.write]. rewrite get_app, G. cbn [Fs.get].
      rewrite String.eqb_refl, Ht'. reflexivity.
Qed.

Lemma readFile_lookup q t c :
  Fs.readFile q t = Some c <-> Fs.lookup q t = Done (File c).
Proof.
  unfold Fs.readFile. destruct (Fs.lookup q t) as [[|]|]; split; congruence.
Qed.

End FsFacts.

(* ================================================================== *)
(** ** The file branch of [copyItem]                                   *)
(* ================================================================== *)

(** On a regular file, [copyItem] is its file branch inside the outer
    [try]/[catch]. *)
Lemma copyItem_file fuel source destination depth height flatten
    conflictResolution logLevel currentDepth w c :
  Fs.lookup source (fs w) = Done (File c) ->
  copyItem (S fuel) source destination depth height flatten
           conflictResolution logLevel currentDepth w
  = match copyFileItem (S fuel) source destination flatten
            conflictResolution logLevel (called (Stat source) w) with
    | Throw e w' => Ret tt (printed (ErrorCopying source e) w')
    | r => r
    end.
Proof.
  intros Hs. cbn [copyItem]. unfold try_catch at 1. unfold bind at 1.
  rewrite (stat_Done _ _ _ Hs). cbn [stats_of isDirectory]. reflexivity.
Qed.

Lemma copyFileItem_onto_dir fuel source destination flatten
    conflictResolution logLevel w es :
  Fs.lookup (effective flatten source destination) (fs w) = Done (Dir es) ->
  copyFileItem fuel source destination flatten conflictResolution logLevel w
  = Throw (CannotCopyFile source (effective flatten source destination))
          (called (Stat (effective flatten source destination)) w).
Proof.
  intros Hd. unfold copyFileItem.
  fold (effective flatten source destination). unfold try_catch, bind.
  rewrite (stat_Done _ _ _ Hd). reflexivity.
Qed.

Lemma copyFileItem_stat_fails fuel source destination flatten
    conflictResolution logLevel w e :
  Fs.lookup (effective flatten source destination) (fs w) = Fail e ->
  e <> ENOENT ->
  copyFileItem fuel source destination flatten conflictResolution logLevel w
  = Throw (SystemError e "stat" (effective flatten source destination))
          (called (Stat (effective flatten source destination)) w).
Proof.
  intros Hd He. unfold copyFileItem.
  fold (effective flatten source destination). unfold try_catch, bind.
  rewrite (stat_Fail _ _ _ Hd). cbn [is_ENOENT code].
  destruct e; try congruence; reflexivity.
Qed.

(** The [catch] of the file branch on ENOENT: create the parents, copy the
    bytes, report [Copied]. The policy plays no part. *)
Lemma copyFileItem_absent fuel source destination flatten
    conflictResolution logLevel w c :
  Fs.lookup source (fs w) = Done (File c) ->
  Fs.lookup (effective flatten source destination) (fs w) = Fail ENOENT ->
  exists t1 t2 lines,
    Fs.mkdirp (Path.dirname (effective flatten source destination)) (fs w)
      = Done t1
    /\ Fs.write (effective flatten source destination) c t1 = Done t2
    /\ copyFileItem fuel source destination flatten conflictResolution
                    logLevel w
       = Ret tt
           {| fs := t2;
              calls := calls w
                ++ [Stat (effective flatten source destination);
                    Mkdir (Path.dirname
                             (effective flatten source destination));
                    CopyFile source (effective flatten source destination)];
              console := console w ++ lines |}
    /\ Forall (fun l =>
         l = Verbose "Copied" source
               (Some (effective flatten source destination))
         \/ l = Brief "copy" source
                  (Some (effective flatten source destination))) lines.
Proof.
  intros Hs Hd.
  destruct (mkdirp_parent_then_write _ c _ Hd) as (t1 & t2 & Hm & Hw).
  unfold copyFileItem. fold (effective flatten source destination).
  set (destPath := effective flatten source destination) in *.
  unfold try_catch. unfold bind at 1.
  rewrite (stat_Fail _ _ _ Hd). cbn [is_ENOENT code errno_eqb].
  unfold bind at 1. unfold Path.dirname in *.
  rewrite (mkdir_Done _ (called (Stat destPath) w) t1) by exact Hm.
  unfold bind at 1.
  assert (Hc : Fs.copyFile source destPath t1 = Done t2).
  { unfold Fs.copyFile.
    assert (Hs1 : Fs.lookup source t1 = Done (File c)).
    { apply readFile_lookup. rewrite (mkdirp_readFile _ _ _ _ Hm).
      now apply readFile_lookup. }
    now rewrite Hs1. }
  rewrite (copyFile_Done source destPath _ t2) by exact Hc.
  match goal with |- context [report ?a ?b ?c ?d ?e ?f ?g ?h] =>
    destruct (report_run a b c d e f g h) as (lines & Hrun & Hlines)
  end.
  exists t1, t2, lines. repeat split; try assumption.
  rewrite Hrun. cbn [fs calls console called with_fs].
  now rewrite <- !app_assoc.
Qed.

(* ================================================================== *)
(** ** Absent destinations (C8)                                        *)
(* ================================================================== *)

(** No line of the [Copied] report is an error line. *)
Lemma copied_lines_no_error lines source destPath l :
  Forall (fun l => l = Verbose "Copied" source (Some destPath)
                   \/ l = Brief "copy" source (Some destPath)) lines ->
  In l lines -> forall s e, l <> ErrorCopying s e.
Proof.
  intros HF Hin s e ->. rewrite Forall_forall in HF.
  destruct (HF _ Hin); discriminate.
Qed.

(** Below a regular file nothing is found, and [stat] answers
    ENOTDIR. *)
Lemma lookup_below_file anc : forall rest t cf,
  Fs.lookup anc t = Done (File cf) -> rest <> [] ->
  Fs.lookup (anc ++ rest) t = Fail ENOTDIR.
Proof.
  induction anc as [|s anc IH]; intros rest t cf H Hr; cbn in H.
  - inversion H; subst. destruct rest; [congruence | reflexivity].
  - destruct t as [|es]; [discriminate|].
    rewrite <- app_comm_cons. cbn [Fs.lookup].
    destruct (Fs.get s es); [eapply IH; eauto | discriminate].
Qed.

(** A file whose destination cannot be examined: [stat] fails with an
    error that is not ENOENT; the [catch] rethrows it and [copyItem]
    reports it. *)
Lemma copyItem_dest_stat_fails fuel source destination depth height flatten
    conflictResolution logLevel currentDepth w c e :
  Fs.lookup source (fs w) = Done (File c) ->
  Fs.lookup (effective flatten source destination) (fs w) = Fail e ->
  e <> ENOENT ->
  copyItem (S fuel) source destination depth height flatten
           conflictResolution logLevel currentDepth w
  = Ret tt
      (printed
         (ErrorCopying source
            (SystemError e "stat" (effective flatten source destination)))
         (called (Stat (effective flatten source destination))
                 (called (Stat source) w))).
Proof.
  intros Hs Hd He.
  rewrite (copyItem_file _ _ _ _ _ _ _ _ _ _ _ Hs).
  now rewrite (copyFileItem_stat_fails _ _ _ _ _ _
                 (called (Stat source) w) e Hd He).
Qed.

(** C8 (amended). For a source file, whatever the value of
    [conflictResolution] (one of the three policies or not):
    - if [stat] of the effective destination answers ENOENT (the path is
      absent and none of its ancestors is a regular file), [copyItem]
      creates the parent directories, copies the bytes (the destination
      then holds the source content) and reports no error;
    - if [copyItem] reports the unknown-strategy error, the effective
      destination existed as a file;
    - if an ancestor of the effective destination is a regular file,
      [stat] answers ENOTDIR, which is rethrown: [copyItem] returns with
      the tree as it was, after the two [stat] calls, and reports the
      error. *)
Theorem absent_destination_ignores_policy
    fuel source destination depth height flatten conflictResolution
    logLevel currentDepth w c :
  Fs.lookup source (fs w) = Done (File c) ->
  (Fs.lookup (effective flatten source destination) (fs w) = Fail ENOENT ->
   exists w' t1 lines,
     copyItem (S fuel) source destination depth height flatten
              conflictResolution logLevel currentDepth w = Ret tt w'
     /\ Fs.mkdirp (Path.dirname (effective flatten source destination))
                  (fs w) = Done t1
     /\ Fs.write (effective flatten source destination) c t1 = Done (fs w')
     /\ Fs.readFile (effective flatten source destination) (fs w') = Some c
     /\ calls w' = calls w
          ++ [Stat source;
              Stat (effective flatten source destination);
              Mkdir (Path.dirname (effective flatten source destination));
              CopyFile source (effective flatten source destination)]
     /\ console w' = console w ++ lines
     /\ forall l, In l lines -> forall s e, l <> ErrorCopying s e)
  /\ (forall w' e lines,
        copyItem (S fuel) source destination depth height flatten
                 conflictResolution logLevel currentDepth w = Ret tt w' ->
        console w' = console w ++ lines ->
        In (ErrorCopying source (UnknownStrategy e)) lines ->
        exists c',
          Fs.lookup (effective flatten source destination) (fs w)
          = Done (File c'))
  /\ (forall anc rest cf,
        effective flatten source destination = anc ++ rest ->
        rest <> [] ->
        Fs.lookup anc (fs w) = Done (File cf) ->
        Fs.lookup (effective flatten source destination) (fs w)
        = Fail ENOTDIR
        /\ exists w',
             copyItem (S fuel) source destination depth height flatten
                      conflictResolution logLevel currentDepth w
             = Ret tt w'
             /\ fs w' = fs w
             /\ calls w' = calls w
                  ++ [Stat source;
                      Stat (effective flatten source destination)]
             /\ console w'
                = console w
                  ++ [ErrorCopying source
                        (SystemError ENOTDIR "stat"
                           (effective flatten source destination))]).
Proof.
  intros Hs. split; [|split].
  - intros Hd.
    destruct (copyFileItem_absent (S fuel) source destination flatten
                conflictResolution logLevel (called (Stat source) w) c
                Hs Hd) as (t1 & t2 & lines & Hm & Hw & Hrun & Hlines).
    rewrite (copyItem_file _ _ _ _ _ _ _ _ _ _ _ Hs), Hrun.
    eexists. exists t1, lines. split; [reflexivity|].
    cbn [fs calls console called]. repeat split; try assumption.
    + eapply write_readFile_same; eauto.
    + now rewrite <- app_assoc.
    + intros l Hin. eapply copied_lines_no_error; eauto.
  - intros w' e lines Hrun Hcons Hin.
    rewrite (copyItem_file _ _ _ _ _ _ _ _ _ _ _ Hs) in Hrun.
    destruct (Fs.lookup (effective flatten source destination) (fs w))
      as [[c'|es]|err] eqn:Hd.
    + eauto.
    + rewrite (copyFileItem_onto_dir _ _ _ _ _ _ (called (Stat source) w) es)
        in Hrun by exact Hd.
      inversion Hrun; subst w'. cbn [console printed called] in Hcons.
      apply app_inv_head in Hcons. subst lines.
      destruct Hin as [Hin|[]]; discriminate.
    + destruct (errno_eqb err ENOENT) eqn:Herr.
      * assert (err = ENOENT) by (destruct err; try discriminate; auto).
        subst err.
        destruct (copyFileItem_absent (S fuel) source destination flatten
                    conflictResolution logLevel (called (Stat source) w) c
                    Hs Hd) as (t1 & t2 & ls & Hm & Hw & Hrun' & Hls).
        rewrite Hrun' in Hrun. inversion Hrun; subst w'.
        cbn [console called] in Hcons. apply app_inv_head in Hcons.
        subst ls. exfalso.
        eapply copied_lines_no_error; eauto.
      * rewrite (copyFileItem_stat_fails _ _ _ _ _ _
                   (called (Stat source) w) err) in Hrun;
          [| exact Hd | intros ->; discriminate].
        inversion Hrun; subst w'. cbn [console printed called] in Hcons.
        apply app_inv_head in Hcons. subst lines.
        destruct Hin as [Hin|[]]; discriminate.
- intros anc rest cf Heff Hrest Hanc.
    assert (Hd : Fs.lookup (effective flatten source destination) (fs w)
                 = Fail ENOTDIR).
    { rewrite Heff. eapply lookup_below_file; eauto. }
    split; [exact Hd|].
    rewrite (copyItem_dest_stat_fails _ _ _ _ _ _ _ _ _ _ c ENOTDIR Hs Hd)
      by discriminate.
    eexists. split; [reflexivity|].
    cbn [fs calls console printed called]. repeat split.
    now rewrite <- app_assoc.
Qed.

(* ================================================================== *)
(** ** Strings and candidate names                                     *)
(* ================================================================== *)

Section Strings.

Local Open Scope string_scope.

Lemma length_append (a b : string) :
  String.length (a ++ b) = String.length a + String.length b.
Proof. induction a; cbn; auto. Qed.

Lemma append_inv_head (a x y : string) : a ++ x = a ++ y -> x = y.
Proof. induction a; cbn; intros H; [assumption | inversion H; auto]. Qed.

Lemma append_inv_tail (e x y : string) : x ++ e = y ++ e -> x = y.
Proof.
  revert y. induction x as [|a x IH]; intros [|b y] H; cbn in H.
  - reflexivity.
  - apply (f_equal String.length) in H. cbn in H.
    rewrite length_append in H. lia.
  - apply (f_equal String.length) in H. cbn in H.
    rewrite length_append in H. lia.
  - inversion H. f_equal. auto.
Qed.

Lemma string_of_nat_inj (n m : nat) :
  string_of_nat n = string_of_nat m -> n = m.
Proof.
  unfold string_of_nat. intros H.
  apply DecimalNat.Unsigned.to_uint_inj.
  assert (E : Some (Nat.to_uint n) = Some (Nat.to_uint m))
    by (rewrite <- !NilEmpty.usu; now rewrite H).
  now inversion E.
Qed.

(** The base name is the name followed by the extension. *)
Lemma splitLastDot_append b pre ext :
  Path.splitLastDot b = Some (pre, ext) -> pre ++ ext = b.
Proof.
  revert pre ext. induction b as [|a b IH]; intros pre ext H; cbn in H.
  - discriminate.
  - destruct (Path.splitLastDot b) as [[pre' ext']|].
    + inversion H; subst. cbn. f_equal. auto.
    + destruct (Ascii.eqb a "."); inversion H; subst. reflexivity.
Qed.

Lemma splitExt_append b :
  fst (Path.splitExt b) ++ snd (Path.splitExt b) = b.
Proof.
  unfold Path.splitExt.
  destruct (Path.splitLastDot b) as [[pre ext]|] eqn:E; cbn.
  - destruct (String.eqb pre EmptyString || String.eqb b ".."); cbn.
    + clear. induction b; cbn; congruence.
    + eapply splitLastDot_append; eauto.
  - clear. induction b; cbn; congruence.
Qed.

End Strings.

(* ================================================================== *)
(** ** The unique-name resolver (C4)                                   *)
(* ================================================================== *)

Section UniqueName.

Variable filePath : path.

Let nameOf (k : nat) : string :=
  (Path.name (Path.parse filePath) ++ "_" ++ string_of_nat k
     ++ Path.ext (Path.parse filePath))%string.

Lemma candidate_S k :
  candidate filePath (S k) = Path.dirname filePath ++ [nameOf (S k)].
Proof.
  unfold candidate, nameOf, Path.parse, Path.join.
  now destruct (Path.splitExt (Path.base filePath)).
Qed.

Lemma nameOf_inj j k : nameOf j = nameOf k -> j = k.
Proof.
  unfold nameOf. intros H.
  apply append_inv_head in H. apply (append_inv_head "_") in H.
  apply append_inv_tail in H. now apply string_of_nat_inj.
Qed.

Lemma lookup_snoc p s : forall t,
  Fs.lookup (p ++ [s]) t
  = match Fs.lookup p t with
    | Done (Dir es) =>
        match Fs.get s es with
        | Some c => Done c
        | None => Fail ENOENT
        end
    | Done (File _) => Fail ENOTDIR
    | Fail e => Fail e
    end.
Proof.
  induction p as [|k p IH]; intros t; cbn.
  - destruct t as [|es]; [reflexivity|]. now destruct (Fs.get s es).
  - destruct t as [|es]; [reflexivity|].
    destruct (Fs.get k es); [apply IH | reflexivity].
Qed.

(** A directory has finitely many entries and the candidate names are
    pairwise distinct, so some candidate is free. *)
Lemma some_candidate_free t :
  exists k e, Fs.lookup (candidate filePath k) t = Fail e.
Proof.
  destruct (Fs.lookup (Path.dirname filePath) t) as [[c|es]|e] eqn:Hdir.
  - exists 1, ENOTDIR. now rewrite candidate_S, lookup_snoc, Hdir.
  - set (names := map nameOf (seq 1 (S (List.length es)))).
    assert (Hnd : NoDup names).
    { apply Finite.Injective_map_NoDup; [|apply seq_NoDup].
      intros j k. apply nameOf_inj. }
    assert (Hex : exists s, In s names /\ Fs.get s es = None).
    { destruct (existsb (fun s => match Fs.get s es with
                                  | None => true | Some _ => false end)
                  names) eqn:E.
      - apply existsb_exists in E. destruct E as (s & Hin & Hs).
        exists s. split; [assumption|]. now destruct (Fs.get s es).
      - exfalso.
        assert (Hincl : incl names (map fst es)).
        { intros s Hin.
          destruct (Fs.get s es) eqn:G; [eapply get_In; eauto|].
          assert (existsb (fun s => match Fs.get s es with
                                    | None => true | Some _ => false end)
                    names = true)
            by (apply existsb_exists; exists s; now rewrite G).
          congruence. }
        apply NoDup_incl_length in Hincl; [|assumption].
        unfold names in Hincl.
        rewrite !length_map, length_seq in Hincl. lia. }
    destruct Hex as (s & Hin & Hs).
    apply in_map_iff in Hin. destruct Hin as (k & <- & Hk).
    apply in_seq in Hk. destruct k as [|k]; [lia|].
    exists (S k), ENOENT. now rewrite candidate_S, lookup_snoc, Hdir, Hs.
  - exists 1, e. now rewrite candidate_S, lookup_snoc, Hdir.
Qed.

(** The first free candidate. *)
Lemma first_free_candidate t :
  exists n,
    (forall k, k < n ->
       exists c, Fs.lookup (candidate filePath k) t = Done c)
    /\ exists e, Fs.lookup (candidate filePath n) t = Fail e.
Proof.
  destruct (some_candidate_free t) as (m & Hm).
  induction m as [m IH] using lt_wf_ind.
  destruct (existsb (fun k => match Fs.lookup (candidate filePath k) t with
                              | Fail _ => true | Done _ => false end)
              (seq 0 m)) eqn:E.
  - apply existsb_exists in E. destruct E as (k & Hk & Hfree).
    apply in_seq in Hk. apply (IH k); [lia|].
    destruct (Fs.lookup (candidate filePath k) t); [discriminate | eauto].
  - exists m. split; [|assumption].
    intros k Hk.
    destruct (Fs.lookup (candidate filePath k) t) eqn:Hl; [eauto|].
    assert (existsb (fun k => match Fs.lookup (candidate filePath k) t with
                              | Fail _ => true | Done _ => false end)
              (seq 0 m) = true).
    { apply existsb_exists. exists k. rewrite Hl.
      split; [apply in_seq; lia | reflexivity]. }
    congruence.
Qed.

Lemma uniqueStep_occupied k w c :
  Fs.lookup (candidate filePath k) (fs w) = Done c ->
  uniqueStep filePath (candidate filePath k) (S k) w
  = Ret (Some (candidate filePath (S k), S (S k)))
        (called (Access (candidate filePath k)) w).
Proof.
  intros H. unfold uniqueStep, try_catch, bind.
  rewrite (access_Done _ _ _ H). unfold ret.
  now rewrite Nat.add_1_r.
Qed.

Lemma uniqueStep_free k w e :
  Fs.lookup (candidate filePath k) (fs w) = Fail e ->
  uniqueStep filePath (candidate filePath k) (S k) w
  = Ret None (called (Access (candidate filePath k)) w).
Proof.
  intros H. unfold uniqueStep, try_catch, bind.
  now rewrite (access_Fail _ _ _ H).
Qed.

(** From round [k], with the candidates [k .. k+n-1] occupied and
    candidate [k+n] free, the loop returns candidate [k+n] after testing
    exactly those, and changes nothing else. *)
Lemma uniqueLoop_run n : forall k fuel w,
  (forall j, k <= j < k + n ->
     exists c, Fs.lookup (candidate filePath j) (fs w) = Done c) ->
  (exists e, Fs.lookup (candidate filePath (k + n)) (fs w) = Fail e) ->
  n < fuel ->
  uniqueLoop fuel filePath (candidate filePath k) (S k) w
  = Ret (candidate filePath (k + n))
        {| fs := fs w;
           calls := calls w
             ++ map Access (map (candidate filePath) (seq k (S n)));
           console := console w |}.
Proof.
  induction n as [|n IH]; intros k fuel w Hocc [e Hfree] Hfuel;
    (destruct fuel as [|fuel]; [lia|]); cbn [uniqueLoop]; unfold bind.
  - rewrite Nat.add_0_r in *.
    rewrite (uniqueStep_free _ _ _ Hfree). reflexivity.
  - destruct (Hocc k) as [c Hc]; [lia|].
    rewrite (uniqueStep_occupied _ _ _ Hc).
    rewrite (IH (S k) fuel).
    + rewrite <- Nat.add_succ_comm. f_equal.
      cbn [fs calls console called]. f_equal.
      change (seq k (S (S n))) with (k :: seq (S k) (S n)).
      cbn [map]. now rewrite <- app_assoc.
    + intros j Hj. cbn [fs called]. apply Hocc. lia.
    + exists e. cbn [fs called]. now rewrite Nat.add_succ_comm.
    + lia.
Qed.

End UniqueName.

(** C4. [getUniqueFileName] tests the original path first, then
    [name_1ext], [name_2ext], ... (each built from the name and extension
    of the original path), and returns the first one that is free: there is
    such a first free candidate [n], and with more than [n] rounds of fuel
    the call returns it, having only called [access] on the candidates
    [0 .. n] in order; the tree and the console are unchanged. If the
    original path exists, the path returned is another one. *)
Theorem getUniqueFileName_first_free (filePath : path) (w : world) :
  exists n,
    (forall k, k < n ->
       exists c, Fs.lookup (candidate filePath k) (fs w) = Done c)
    /\ (exists e, Fs.lookup (candidate filePath n) (fs w) = Fail e)
    /\ (forall fuel, n < fuel ->
          getUniqueFileName fuel filePath w
          = Ret (candidate filePath n)
                {| fs := fs w;
                   calls := calls w
                     ++ map Access (map (candidate filePath) (seq 0 (S n)));
                   console := console w |})
    /\ ((exists c, Fs.lookup filePath (fs w) = Done c) ->
        1 <= n /\ candidate filePath n <> filePath).
Proof.
  destruct (first_free_candidate filePath (fs w)) as (n & Hocc & Hfree).
  exists n. repeat split; try assumption.
  - intros fuel Hfuel. unfold getUniqueFileName.
    apply (uniqueLoop_run filePath n 0 fuel w); auto.
    intros j Hj. apply Hocc. lia.
  - destruct H as [c Hc]. destruct Hfree as [e He].
    destruct n; [cbn in He; congruence | lia].
  - destruct H as [c Hc]. destruct Hfree as [e He].
    intros Heq. rewrite Heq in He. congruence.
Qed.

(** The suffix goes before the extension and is always added to the
    original name. *)
Example candidate_names :
  candidate ["dist"; "file1.txt"] 1 = ["dist"; "file1_1.txt"]
  /\ candidate ["dist"; "file1.txt"] 2 = ["dist"; "file1_2.txt"]
  /\ candidate ["dist"; "archive.tar.gz"] 3 = ["dist"; "archive.tar_3.gz"]
  /\ candidate ["dist"; ".env"] 10 = ["dist"; ".env_10"]
  /\ candidate ["README"] 1 = ["README_1"].
Proof. repeat split. Qed.

Example getUniqueFileName_run :
  getUniqueFileName 3 ["out"; "file1.txt"]
    (world_of (Dir [("out", Dir [("file1.txt", File "a");
                                 ("file1_1.txt", File "b")])]))
  = Ret ["out"; "file1_2.txt"]
        {| fs := Dir [("out", Dir [("file1.txt", File "a");
                                   ("file1_1.txt", File "b")])];
           calls := [Access ["out"; "file1.txt"];
                     Access ["out"; "file1_1.txt"];
                     Access ["out"; "file1_2.txt"]];
           console := [] |}.
Proof. reflexivity. Qed.

(* ================================================================== *)
(** ** What a write and a [mkdir -p] leave alone                       *)
(* ================================================================== *)

Section Frame.

Lemma is_prefix_app p r : is_prefix p (p ++ r) = true.
Proof. induction p; cbn; [|rewrite String.eqb_refl]; auto. Qed.

Lemma is_prefix_spec p q : is_prefix p q = true <-> exists r, q = p ++ r.
Proof.
  split.
  - revert q. induction p as [|s p IH]; intros q H; [now exists q|].
    destruct q as [|k q]; [discriminate|]. cbn in H.
    apply andb_true_iff in H. destruct H as [E H].
    apply String.eqb_eq in E. subst k.
    destruct (IH _ H) as [r ->]. now exists r.
  - intros [r ->]. apply is_prefix_app.
Qed.

Lemma is_prefix_snoc_self p s : is_prefix (p ++ [s]) p = false.
Proof. induction p; cbn; [|rewrite String.eqb_refl]; auto. Qed.

Lemma siblings_apart p s k : s <> k -> apart (p ++ [s]) (p ++ [k]).
Proof.
  intros Hne. split; induction p; cbn; rewrite ?String.eqb_refl; auto;
    apply andb_false_iff; left; apply String.eqb_neq; congruence.
Qed.

Lemma lookup_chain p : forall q,
  is_prefix q p = false -> Fs.lookup q (Fs.chain p) = Fail ENOENT.
Proof.
  induction p as [|s p IH]; intros [|k q] H; try discriminate; cbn.
  - reflexivity.
  - cbn in H. destruct (String.eqb k s); [now apply IH | reflexivity].
Qed.

(** [mkdir -p p] changes what is found at [q] only if [q] is [p] or an
    ancestor of [p]. *)
Lemma mkdirp_lookup p : forall t t1 q,
  Fs.mkdirp p t = Done t1 -> is_prefix q p = false ->
  Fs.lookup q t1 = Fs.lookup q t.
Proof.
  induction p as [|s p IH]; intros t t1 q H Hq; cbn in H.
  - destruct t; inversion H; reflexivity.
  - destruct t as [|es]; [discriminate|].
    destruct q as [|k q]; [discriminate|]. cbn in Hq. cbn [Fs.lookup].
    destruct (Fs.get s es) as [ch|] eqn:G.
    + destruct (Fs.mkdirp p ch) as [ch'|] eqn:Hc; inversion H; subst t1.
      destruct (String.eqb_spec k s) as [->|Hne].
      * rewrite get_set_same, G. eapply IH; eauto.
      * now rewrite get_set_other.
    + inversion H; subst t1. rewrite get_app.
      destruct (Fs.get k es) eqn:Gk; [reflexivity|]. cbn [Fs.get].
      destruct (String.eqb_spec k s) as [->|Hne]; [|reflexivity].
      now apply lookup_chain.
Qed.

(** A write at [p] changes what is found at [q] only if one of the two
    paths is an ancestor of the other. *)
Lemma write_lookup p : forall c t t' q,
  Fs.write p c t = Done t' -> apart q p ->
  Fs.lookup q t' = Fs.lookup q t.
Proof.
  induction p as [|s p IH]; intros c t t' q H [Hq Hp]; cbn in H.
  - discriminate.
  - destruct t as [|es]; [discriminate|].
    destruct q as [|k q]; [discriminate|]. cbn in Hq, Hp. cbn [Fs.lookup].
    destruct (Fs.get s es) as [ch|] eqn:G.
    + destruct (Fs.write p c ch) as [ch'|] eqn:Hc; inversion H; subst t'.
      destruct (String.eqb_spec k s) as [->|Hne].
      * rewrite get_set_same, G. rewrite String.eqb_refl in Hp.
        eapply IH; eauto. now split.
      * now rewrite get_set_other.
    + destruct p; inversion H; subst t'. rewrite get_app.
      destruct (Fs.get k es) eqn:Gk; [reflexivity|]. cbn [Fs.get].
      destruct (String.eqb_spec k s) as [->|Hne]; [|reflexivity].
      rewrite String.eqb_refl in Hp. discriminate.
Qed.

Lemma set_get_same s c es : Fs.get s es = Some c -> Fs.set s c es = es.
Proof.
  induction es as [|[k m] es IH]; cbn; [reflexivity|].
  destruct (String.eqb s k); intros H; [congruence | f_equal; auto].
Qed.

(** [mkdir -p] of an existing directory does nothing. *)
Lemma mkdirp_existing p : forall t es,
  Fs.lookup p t = Done (Dir es) -> Fs.mkdirp p t = Done t.
Proof.
  induction p as [|s p IH]; intros t es H; cbn in *.
  - inversion H; reflexivity.
  - destruct t as [|es']; [discriminate|].
    destruct (Fs.get s es') as [ch|] eqn:G; [|discriminate].
    rewrite (IH _ _ H). now rewrite (set_get_same _ _ _ G).
Qed.

(** An entry that exists lies in a directory. *)
Lemma lookup_parent p s t c :
  Fs.lookup (p ++ [s]) t = Done c ->
  exists es, Fs.lookup p t = Done (Dir es).
Proof.
  rewrite lookup_snoc. destruct (Fs.lookup p t) as [[|es]|]; try discriminate.
  eauto.
Qed.

(** A file can be written at a path that is absent from an existing
    directory. *)
Lemma write_absent p s c t es :
  Fs.lookup p t = Done (Dir es) ->
  Fs.lookup (p ++ [s]) t = Fail ENOENT ->
  exists t', Fs.write (p ++ [s]) c t = Done t'.
Proof.
  intros Hdir Habs.
  destruct (mkdirp_parent_then_write _ c _ Habs) as (t1 & t2 & Hm & Hw).
  rewrite removelast_last in Hm.
  rewrite (mkdirp_existing _ _ _ Hdir) in Hm. inversion Hm; subst t1.
  eauto.
Qed.

End Frame.

(* ================================================================== *)
(** ** Rename policy (C3)                                              *)
(* ================================================================== *)

Lemma when_log_run b l w :
  exists lines,
    when b (console_log l) w
    = Ret tt {| fs := fs w; calls := calls w;
                console := console w ++ lines |}.
Proof.
  destruct b; cbn.
  - exists [l]. reflexivity.
  - exists []. unfold ret. rewrite app_nil_r. now destruct w.
Qed.

(** A task with a single source runs [copyItem] once, between two optional
    console lines: whatever [copyItem] establishes about the tree from
    every world with the same tree holds after [copy]. *)
Lemma copy_one_run fuel item s w (P : node -> Prop) :
  src item = One s ->
  (forall w0, fs w0 = fs w ->
     exists w1,
       copyItem fuel s
         (if default false (flatten item) then dest item
          else Path.join (dest item) (Path.basename s))
         (default 0 (depth item)) (default 0 (height item))
         (default false (flatten item))
         (default "overwrite" (conflictResolution item))
         (default "none" (logLevel item)) 0 w0 = Ret tt w1
       /\ P (fs w1)) ->
  exists w', copy fuel [item] None w = Ret tt w' /\ P (fs w').
Proof.
  intros Hsrc Hrun. unfold copy. cbn [forEach]. unfold copyTask.
  rewrite Hsrc. unfold bind at 1 2 3.
  destruct (when_log_run
              (String.eqb (default "none" (logLevel item)) "brief")
              (Text "Starting copy task...") w) as [l1 ->].
  unfold bind at 1.
  match goal with |- context [copyItem _ _ _ _ _ _ _ _ _ ?w0] =>
    destruct (Hrun w0 eq_refl) as (w1 & -> & HP)
  end.
  destruct (when_log_run
              (String.eqb (default "none" (logLevel item)) "brief")
              (Text "Copy task completed") w1) as [l2 ->].
  unfold ret. eexists. split; [reflexivity | exact HP].
Qed.

(** The first copy: the destination is absent. *)
Lemma plain_copy_step fuel source destination depth height flatten
    conflictResolution logLevel currentDepth w c :
  Fs.lookup source (fs w) = Done (File c) ->
  Fs.lookup (effective flatten source destination) (fs w) = Fail ENOENT ->
  exists w' t1,
    copyItem (S fuel) source destination depth height flatten
             conflictResolution logLevel currentDepth w = Ret tt w'
    /\ Fs.mkdirp (Path.dirname (effective flatten source destination))
                 (fs w) = Done t1
    /\ Fs.write (effective flatten source destination) c t1 = Done (fs w').
Proof.
  intros Hs Hd.
  destruct (copyFileItem_absent (S fuel) source destination flatten
              conflictResolution logLevel (called (Stat source) w) c
              Hs Hd) as (t1 & t2 & lines & Hm & Hw & Hrun & _).
  rewrite (copyItem_file _ _ _ _ _ _ _ _ _ _ _ Hs), Hrun.
  eexists. exists t1. split; [reflexivity|]. split; assumption.
Qed.

(** A later copy under [rename]: the destination is a file, the candidates
    [1 .. n-1] are taken and candidate [n] is free; the source is written
    at candidate [n]. *)
Lemma rename_step fuel source destination depth height flatten logLevel
    currentDepth w c c0 n :
  Fs.lookup source (fs w) = Done (File c) ->
  Fs.lookup (effective flatten source destination) (fs w)
    = Done (File c0) ->
  (forall k, 1 <= k < n ->
     exists x,
       Fs.lookup (candidate (effective flatten source destination) k) (fs w)
       = Done x) ->
  Fs.lookup (candidate (effective flatten source destination) n) (fs w)
    = Fail ENOENT ->
  1 <= n -> n <= fuel ->
  exists w',
    copyItem (S fuel) source destination depth height flatten
             "rename" logLevel currentDepth w = Ret tt w'
    /\ Fs.write (candidate (effective flatten source destination) n) c (fs w)
       = Done (fs w').
Proof.
  intros Hs Hd Hocc Hfree Hn Hfuel.
  set (destPath := effective flatten source destination) in *.
  assert (Hw : exists t', Fs.write (candidate destPath n) c (fs w) = Done t').
  { destruct n as [|n]; [lia|]. rewrite candidate_S in *.
    pose proof Hfree as Hfree'. rewrite lookup_snoc in Hfree'.
    destruct (Fs.lookup (Path.dirname destPath) (fs w)) as [[|es]|e] eqn:Hdir;
      try discriminate.
    - eapply write_absent; eauto.
    - exfalso. destruct destPath as [|a l] using rev_ind.
      + cbn in Hdir. discriminate.
      + unfold Path.dirname in Hdir. rewrite removelast_last in Hdir.
        destruct (lookup_parent _ _ _ _ Hd) as [es Hes]. congruence. }
  destruct Hw as [t' Hw].
  rewrite (copyItem_file _ _ _ _ _ _ _ _ _ _ _ Hs).
  unfold copyFileItem. fold (effective flatten source destination).
  fold destPath. unfold try_catch. unfold bind at 1.
  rewrite (stat_Done _ (called (Stat source) w) (File c0)) by exact Hd.
  cbn [stats_of isDirectory String.eqb Ascii.eqb Bool.eqb].
  unfold bind at 1. unfold getUniqueFileName.
  change (uniqueLoop (S fuel) destPath destPath 1)
    with (uniqueLoop (S fuel) destPath (candidate destPath 0) 1).
  rewrite (uniqueLoop_run destPath n 0 (S fuel)
             (called (Stat destPath) (called (Stat source) w))).
  - unfold bind at 1. cbn [Nat.add].
    match goal with |- context [fs_promises.copyFile _ _ ?w0] =>
      rewrite (copyFile_Done source (candidate destPath n) w0 t')
    end.
    + match goal with |- context [report ?a ?b ?c ?d ?e ?f ?g ?h] =>
        destruct (report_run a b c d e f g h) as (lines & -> & _)
      end.
      eexists. split; [reflexivity | exact Hw].
    + cbn [fs called]. unfold Fs.copyFile. now rewrite Hs.
  - intros j Hj. cbn [fs called]. destruct j as [|j]; [eauto|].
    apply Hocc. lia.
  - exists ENOENT. exact Hfree.
  - lia.
Qed.

Section RenameScenario.

Variables (source destDir : path) (level : option string) (c : string).
Variables (name ext : string).
Hypothesis Hsplit : Path.splitExt (Path.base source) = (name, ext).

Let destPath : path := destDir ++ Path.basename source.
Let renamed (k : nat) : path :=
  destDir ++ [(name ++ "_" ++ string_of_nat k ++ ext)%string].

Lemma base_is_name_ext : Path.base source = (name ++ ext)%string.
Proof.
  pose proof (splitExt_append (Path.base source)) as H.
  now rewrite Hsplit in H.
Qed.

Lemma renamed_neq_base k :
  (name ++ "_" ++ string_of_nat k ++ ext)%string <> Path.base source.
Proof.
  rewrite base_is_name_ext. intros H. apply append_inv_head in H.
  apply (f_equal String.length) in H. cbn in H.
  rewrite length_append in H. lia.
Qed.

Lemma renamed_inj j k : renamed j = renamed k -> j = k.
Proof.
  unfold renamed. intros H. apply app_inv_head in H. inversion H as [H'].
  apply append_inv_head in H'. apply (append_inv_head "_") in H'.
  apply append_inv_tail in H'. now apply string_of_nat_inj.
Qed.

Hypothesis Hnonroot : source <> [].

Lemma destPath_snoc : destPath = destDir ++ [Path.base source].
Proof. unfold destPath, Path.basename. now destruct source. Qed.

Lemma candidate_renamed k : candidate destPath (S k) = renamed (S k).
Proof.
  rewrite candidate_S, destPath_snoc. unfold Path.dirname, renamed.
  rewrite removelast_last. unfold Path.parse, Path.base.
  rewrite last_last. fold (Path.base source). rewrite Hsplit. reflexivity.
Qed.

Lemma renamed_apart_destPath k : apart (renamed k) destPath.
Proof.
  rewrite destPath_snoc. apply siblings_apart, renamed_neq_base.
Qed.

Lemma renamed_apart j k : j <> k -> apart (renamed j) (renamed k).
Proof.
  intros Hne. apply siblings_apart. intros H. apply Hne.
  apply renamed_inj. unfold renamed. now rewrite H.
Qed.

End RenameScenario.

(** C3. Copy the same source file three times into the same flattened
    destination under [rename], starting with the destination and the two
    suffixed names free. All three calls of [copy] return. After the second
    the destination directory holds two distinct files, [name.ext] and
    [name_1.ext], both with the source content; after the third it also
    holds [name_2.ext] with the source content, and the first two are
    still there. *)
Theorem rename_numbers_the_copies
    source destDir level c name ext fuel w :
  Path.splitExt (Path.base source) = (name, ext) ->
  Fs.lookup source (fs w) = Done (File c) ->
  Fs.lookup (destDir ++ Path.basename source) (fs w) = Fail ENOENT ->
  Fs.lookup (destDir ++ [(name ++ "_1" ++ ext)%string]) (fs w)
    = Fail ENOENT ->
  Fs.lookup (destDir ++ [(name ++ "_2" ++ ext)%string]) (fs w)
    = Fail ENOENT ->
  3 <= fuel ->
  exists w1 w2 w3,
    copy fuel [renameTask source destDir level] None w = Ret tt w1
    /\ copy fuel [renameTask source destDir level] None w1 = Ret tt w2
    /\ copy fuel [renameTask source destDir level] None w2 = Ret tt w3
    /\ destDir ++ Path.basename source
       = destDir ++ [(name ++ ext)%string]
    /\ destDir ++ [(name ++ "_1" ++ ext)%string]
       <> destDir ++ [(name ++ ext)%string]
    /\ Fs.readFile (destDir ++ [(name ++ ext)%string]) (fs w2) = Some c
    /\ Fs.readFile (destDir ++ [(name ++ "_1" ++ ext)%string]) (fs w2)
       = Some c
    /\ Fs.readFile (destDir ++ [(name ++ "_2" ++ ext)%string]) (fs w2)
       = None
    /\ Fs.readFile (destDir ++ [(name ++ ext)%string]) (fs w3) = Some c
    /\ Fs.readFile (destDir ++ [(name ++ "_1" ++ ext)%string]) (fs w3)
       = Some c
    /\ Fs.readFile (destDir ++ [(name ++ "_2" ++ ext)%string]) (fs w3)
       = Some c.
Proof.
  intros Hsplit Hs Hd H1 H2 Hfuel.
  destruct fuel as [|fuel]; [lia|].
  assert (Hnonroot : source <> []).
  { intros ->. cbn in Hs. rewrite app_nil_r in Hd.
    destruct (fs w); [|discriminate]. destruct destDir; discriminate. }
  pose proof (destPath_snoc source destDir name ext Hsplit Hnonroot) as Hdp.
  pose proof (base_is_name_ext source name ext Hsplit) as Hbase.
  pose proof (candidate_renamed source destDir name ext Hsplit Hnonroot)
    as Hcand.
  assert (Hdir : Path.dirname (destDir ++ Path.basename source) = destDir).
  { rewrite Hdp. unfold Path.dirname. apply removelast_last. }
  set (destPath := destDir ++ Path.basename source) in *.
  set (r1 := destDir ++ [(name ++ "_1" ++ ext)%string]) in *.
  set (r2 := destDir ++ [(name ++ "_2" ++ ext)%string]) in *.
  assert (Hc1 : candidate destPath 1 = r1) by apply Hcand.
  assert (Hc2 : candidate destPath 2 = r2) by apply Hcand.
  assert (A1 : apart r1 destPath)
    by apply (renamed_apart_destPath source destDir name ext Hsplit
                Hnonroot 1).
  assert (A2 : apart r2 destPath)
    by apply (renamed_apart_destPath source destDir name ext Hsplit
                Hnonroot 2).
  assert (A21 : apart r2 r1)
    by (apply (renamed_apart destDir name ext 2 1); lia).
  assert (N1 : is_prefix r1 destDir = false) by apply is_prefix_snoc_self.
  assert (N2 : is_prefix r2 destDir = false) by apply is_prefix_snoc_self.
  (* first copy *)
  destruct (copy_one_run (S fuel) (renameTask source destDir level) source w
              (fun t => exists t1, Fs.mkdirp destDir (fs w) = Done t1
                                   /\ Fs.write destPath c t1 = Done t)
              eq_refl) as (w1 & Hrun1 & t1 & Hm1 & Hw1).
  { intros w0 Hw0. cbn [renameTask flatten default dest depth height
                        conflictResolution logLevel].
    destruct (plain_copy_step fuel source destDir 0 0 true "rename"
                (default "none" level) 0 w0 c) as (w1 & t1 & Hr & Hm & Hw).
    - now rewrite Hw0.
    - unfold effective, Path.join. now rewrite Hw0.
    - exists w1. split; [exact Hr|]. exists t1.
      unfold effective, Path.join in Hm, Hw. fold destPath in Hm, Hw.
      rewrite Hdir, Hw0 in Hm. now split. }
  assert (Hs1 : Fs.lookup source (fs w1) = Done (File c)).
  { apply readFile_lookup.
    rewrite (write_readFile_other _ _ _ _ source Hw1) by congruence.
    rewrite (mkdirp_readFile _ _ _ _ Hm1). now apply readFile_lookup. }
  assert (Hd1 : Fs.lookup destPath (fs w1) = Done (File c))
    by (apply readFile_lookup; eapply write_readFile_same; eauto).
  assert (H11 : Fs.lookup r1 (fs w1) = Fail ENOENT).
  { rewrite (write_lookup _ _ _ _ r1 Hw1 A1).
    now rewrite (mkdirp_lookup _ _ _ r1 Hm1 N1). }
  assert (H12 : Fs.lookup r2 (fs w1) = Fail ENOENT).
  { rewrite (write_lookup _ _ _ _ r2 Hw1 A2).
    now rewrite (mkdirp_lookup _ _ _ r2 Hm1 N2). }
  (* second copy *)
  destruct (copy_one_run (S fuel) (renameTask source destDir level) source w1
              (fun t => Fs.write r1 c (fs w1) = Done t) eq_refl)
    as (w2 & Hrun2 & Hw2).
  { intros w0 Hw0. cbn [renameTask flatten default dest depth height
                        conflictResolution logLevel].
    destruct (rename_step fuel source destDir 0 0 true
                (default "none" level) 0 w0 c c 1) as (w2 & Hr & Hw);
      unfold effective, Path.join; fold destPath;
      rewrite ?Hw0, ?Hc1; try assumption; try lia.
    exists w2. split; [exact Hr|].
    unfold effective, Path.join in Hw. fold destPath in Hw.
    now rewrite Hc1, Hw0 in Hw. }
  assert (Hs2 : Fs.lookup source (fs w2) = Done (File c)).
  { apply readFile_lookup.
    rewrite (write_readFile_other _ _ _ _ source Hw2) by congruence.
    now apply readFile_lookup. }
  assert (Hd2 : Fs.readFile destPath (fs w2) = Some c).
  { rewrite (write_readFile_other _ _ _ _ destPath Hw2) by congruence.
    now apply readFile_lookup. }
  assert (H21 : Fs.readFile r1 (fs w2) = Some c)
    by (eapply write_readFile_same; eauto).
  assert (H22 : Fs.lookup r2 (fs w2) = Fail ENOENT)
    by now rewrite (write_lookup _ _ _ _ r2 Hw2 A21).
  (* third copy *)
  destruct (copy_one_run (S fuel) (renameTask source destDir level) source w2
              (fun t => Fs.write r2 c (fs w2) = Done t) eq_refl)
    as (w3 & Hrun3 & Hw3).
  { intros w0 Hw0. cbn [renameTask flatten default dest depth height
                        conflictResolution logLevel].
    destruct (rename_step fuel source destDir 0 0 true
                (default "none" level) 0 w0 c c 2) as (w3 & Hr & Hw);
      unfold effective, Path.join; fold destPath;
      rewrite ?Hw0, ?Hc2; try assumption; try lia.
    - now apply readFile_lookup.
    - intros k Hk. assert (k = 1) by lia. subst k.
      rewrite Hc1. exists (File c). now apply readFile_lookup.
    - exists w3. split; [exact Hr|].
      unfold effective, Path.join in Hw. fold destPath in Hw.
      now rewrite Hc2, Hw0 in Hw. }
  exists w1, w2, w3.
  assert (Hne1 : r1 <> destPath) by congruence.
  assert (Hne2 : r2 <> destPath)
    by (intros E; rewrite E in H12; congruence).
  assert (Hne21 : r2 <> r1)
    by (intros E; rewrite E in H22; apply readFile_lookup in H21;
        congruence).
  assert (Hdp' : destPath = destDir ++ [(name ++ ext)%string])
    by now rewrite <- Hbase.
  rewrite <- Hdp'.
  repeat split; try assumption.
  - unfold Fs.readFile. now rewrite H22.
  - rewrite (write_readFile_other _ _ _ _ destPath Hw3); auto.
  - rewrite (write_readFile_other _ _ _ _ r1 Hw3); auto.
  - eapply write_readFile_same; eauto.
Qed.

(* ================================================================== *)
(** ** Depth and height (C5)                                           *)
(* ================================================================== *)

Lemma forEach_ext {A} (items : list A) (f g : A -> M unit) :
  (forall x w, f x w = g x w) ->
  forall w, forEach items f w = forEach items g w.
Proof.
  intros H. induction items as [|x xs IH]; intros w; cbn; [reflexivity|].
  unfold bind. rewrite H. destruct (g x w); auto.
Qed.

(** C5. A height bound [h] alone and a depth bound [h] alone give the same
    run of [copyItem]: the same result, tree, calls and console, from every
    world, at every depth counter and with every amount of fuel. *)
Theorem height_is_depth
    fuel source destination h flatten conflictResolution logLevel
    currentDepth w :
  copyItem fuel source destination 0 h flatten conflictResolution logLevel
           currentDepth w
  = copyItem fuel source destination h 0 flatten conflictResolution logLevel
             currentDepth w.
Proof.
  destruct h as [|h']; [reflexivity|].
  revert source destination currentDepth w.
  induction fuel as [|fuel IH]; intros source destination currentDepth w;
    [reflexivity|].
  cbn [copyItem]. unfold try_catch, bind.
  destruct (fs_promises.stat source w) as [stats w1| |]; try reflexivity.
  destruct (isDirectory stats); [|reflexivity].
  change (0 <? 0) with false. change (0 <? S h') with true. cbn [andb].
  destruct (S h' <=? currentDepth); [reflexivity|].
  destruct (fs_promises.readdir source w1) as [items w2| |]; try reflexivity.
  destruct ((List.length items =? 0) && flatten); [reflexivity|].
  destruct (when (negb flatten) (ensureDirectory destination) w2);
    try reflexivity.
  rewrite (forEach_ext items _
             (fun item =>
                copyItem fuel (Path.join source [item])
                  (if flatten
                   then Path.join destination (Path.basename [item])
                   else Path.join destination [item])
                  (S h') 0 flatten conflictResolution logLevel
                  (currentDepth + 1))); [reflexivity|].
  intros item w'. apply IH.
Qed.

(* ================================================================== *)
(** ** Effects of a run                                                *)
(* ================================================================== *)

Section Effects.

Context {A B : Type}.
Implicit Types (Q : fscall -> Prop) (w : world).

Lemma effect_refl Q w : effect Q w w.
Proof.
  exists []. rewrite app_nil_r. repeat split; auto.
Qed.

Lemma effect_same Q w w' :
  fs w' = fs w -> calls w' = calls w -> effect Q w w'.
Proof.
  intros Hf Hc. exists []. rewrite app_nil_r, Hf. repeat split; auto.
Qed.

Lemma effect_trans Q w w1 w2 :
  effect Q w w1 -> effect Q w1 w2 -> effect Q w w2.
Proof.
  intros (n1 & C1 & F1 & L1 & R1) (n2 & C2 & F2 & L2 & R2).
  exists (n1 ++ n2). repeat split.
  - now rewrite C2, C1, app_assoc.
  - apply Forall_app; auto.
  - intros q Hq. rewrite L2, L1; auto; intros c Hc; apply Hq;
      apply in_or_app; auto.
  - intros q Hq. rewrite R2, R1; auto; intros s Hs; apply (Hq s);
      apply in_or_app; auto.
Qed.

Lemma effect_weaken Q Q' w w' :
  (forall c, Q c -> Q' c) -> effect Q w w' -> effect Q' w w'.
Proof.
  intros H (n & C & F & L & R). exists n. repeat split; auto.
  eapply Forall_impl; eauto.
Qed.

(** A query: one call, the tree unchanged. *)
Lemma effect_query Q w c :
  Q c -> effect Q w (called c w).
Proof.
  intros HQ. exists [c]. repeat split; auto.
Qed.

Lemma effect_mkdir Q w p t :
  Q (Mkdir p) -> Fs.mkdirp p (fs w) = Done t ->
  effect Q w (with_fs t (called (Mkdir p) w)).
Proof.
  intros HQ Hm. exists [Mkdir p]. cbn [fs calls with_fs called].
  repeat split; auto.
  - intros q Hq. eapply mkdirp_lookup; eauto.
    apply (Hq (Mkdir p)). now left.
  - intros q _. eapply mkdirp_readFile; eauto.
Qed.

Lemma effect_copyFile Q w s d t :
  Q (CopyFile s d) -> Fs.copyFile s d (fs w) = Done t ->
  effect Q w (with_fs t (called (CopyFile s d) w)).
Proof.
  intros HQ Hc. exists [CopyFile s d]. cbn [fs calls with_fs called].
  unfold Fs.copyFile in Hc.
  destruct (Fs.lookup s (fs w)) as [[x|]|]; try discriminate.
  repeat split; auto.
  - intros q Hq. eapply write_lookup; eauto.
    specialize (Hq (CopyFile s d) (or_introl eq_refl)). cbn in Hq.
    apply orb_false_iff in Hq. exact Hq.
  - intros q Hq. eapply write_readFile_other; eauto.
    intros ->. apply (Hq s). now left.
Qed.

End Effects.

Section RunInv.

Context {A B : Type}.
Implicit Types (Q : fscall -> Prop).

Lemma inv_ret Q (R : A -> Prop) (a : A) : R a -> run_inv Q R (ret a).
Proof. intros H w. cbn. split; [apply effect_refl | exact H]. Qed.

Lemma inv_throw Q (R : A -> Prop) e : run_inv Q R (throw e).
Proof. intros w. cbn. apply effect_refl. Qed.

Lemma inv_outOfFuel Q (R : A -> Prop) : run_inv Q R outOfFuel.
Proof. intros w. exact I. Qed.

Lemma inv_bind Q (R : A -> Prop) (R' : B -> Prop) (m : M A) (k : A -> M B) :
  run_inv Q R m -> (forall a, R a -> run_inv Q R' (k a)) ->
  run_inv Q R' (bind m k).
Proof.
  intros Hm Hk w. unfold bind. specialize (Hm w).
  destruct (m w) as [a w1|e w1|]; auto.
  destruct Hm as [E Ha]. specialize (Hk a Ha w1).
  destruct (k a w1) as [b w2|e w2|]; auto.
  - destruct Hk as [E' Hb]. split; [eapply effect_trans; eauto | exact Hb].
  - eapply effect_trans; eauto.
Qed.

Lemma inv_try_catch Q (R : A -> Prop) (m : M A) (h : error -> M A) :
  run_inv Q R m -> (forall e, run_inv Q R (h e)) ->
  run_inv Q R (try_catch m h).
Proof.
  intros Hm Hh w. unfold try_catch. specialize (Hm w).
  destruct (m w) as [a w1|e w1|]; auto.
  specialize (Hh e w1).
  destruct (h e w1) as [b w2|e' w2|]; auto.
  - destruct Hh as [E' Hb]. split; [eapply effect_trans; eauto | exact Hb].
  - eapply effect_trans; eauto.
Qed.

Lemma inv_weaken Q Q' (R R' : A -> Prop) (m : M A) :
  (forall c, Q c -> Q' c) -> (forall a, R a -> R' a) ->
  run_inv Q R m -> run_inv Q' R' m.
Proof.
  intros HQ HR Hm w. specialize (Hm w).
  destruct (m w) as [a w1|e w1|]; auto.
  - destruct Hm. split; [eapply effect_weaken; eauto | auto].
  - eapply effect_weaken; eauto.
Qed.

End RunInv.

Section RunInvUnit.

Implicit Types (Q : fscall -> Prop).
Let any {A} : A -> Prop := fun _ => True.

Lemma inv_when Q b (m : M unit) :
  run_inv Q any m -> run_inv Q any (when b m).
Proof. destruct b; cbn; [auto | intros _; now apply inv_ret]. Qed.

Lemma inv_forEach {A} Q (items : list A) (body : A -> M unit) :
  (forall x, In x items -> run_inv Q any (body x)) ->
  run_inv Q any (forEach items body).
Proof.
  induction items as [|x xs IH]; intros H; cbn [forEach].
  - now apply inv_ret.
  - eapply inv_bind.
    + apply H. now left.
    + intros _ _. apply IH. intros y Hy. apply H. now right.
Qed.

Lemma inv_console Q l : run_inv Q any (console_log l).
Proof. intros w. cbn. split; [now apply effect_same | exact I]. Qed.

Lemma inv_report Q logLevel label op a b s d :
  run_inv Q any (report logLevel label op a b s d).
Proof.
  unfold report. eapply inv_bind.
  - apply inv_when, inv_console.
  - intros _ _. apply inv_when. unfold logBrief. apply inv_console.
Qed.

Lemma inv_stat Q p : Q (Stat p) -> run_inv Q any (fs_promises.stat p).
Proof.
  intros HQ w. unfold fs_promises.stat, syscall. cbn [fs called].
  destruct (Fs.lookup p (fs w)); cbn;
    [split; [|exact I]|]; now apply (effect_query Q w (Stat p)).
Qed.

Lemma inv_access Q p : Q (Access p) -> run_inv Q any (fs_promises.access p).
Proof.
  intros HQ w. unfold fs_promises.access, syscall. cbn [fs called].
  destruct (Fs.lookup p (fs w)); cbn;
    [split; [|exact I]|]; now apply (effect_query Q w (Access p)).
Qed.

Lemma inv_readdir Q p :
  Q (Readdir p) -> run_inv Q any (fs_promises.readdir p).
Proof.
  intros HQ w. unfold fs_promises.readdir, syscall. cbn [fs called].
  destruct (Fs.readdir p (fs w)); cbn;
    [split; [|exact I]|]; now apply (effect_query Q w (Readdir p)).
Qed.

Lemma inv_mkdir Q p : Q (Mkdir p) -> run_inv Q any (fs_promises.mkdir p).
Proof.
  intros HQ w. unfold fs_promises.mkdir, syscall. cbn [fs called].
  destruct (Fs.mkdirp p (fs w)) eqn:Hm; cbn.
  - split; [|exact I]. now apply effect_mkdir.
  - now apply (effect_query Q w (Mkdir p)).
Qed.

Lemma inv_copyFile Q s d :
  Q (CopyFile s d) -> run_inv Q any (fs_promises.copyFile s d).
Proof.
  intros HQ w. unfold fs_promises.copyFile, syscall. cbn [fs called].
  destruct (Fs.copyFile s d (fs w)) eqn:Hm; cbn.
  - split; [|exact I]. now apply effect_copyFile.
  - now apply (effect_query Q w (CopyFile s d)).
Qed.

End RunInvUnit.

(* ================================================================== *)
(** ** The calls of a traversal                                        *)
(* ================================================================== *)

Section PrefixFacts.

Lemma is_prefix_refl p : is_prefix p p = true.
Proof. induction p; cbn; [|rewrite String.eqb_refl]; auto. Qed.

Lemma is_prefix_trans p q r :
  is_prefix p q = true -> is_prefix q r = true -> is_prefix p r = true.
Proof.
  rewrite !is_prefix_spec. intros [a ->] [b ->].
  exists (a ++ b). now rewrite app_assoc.
Qed.

Lemma is_prefix_dirname p : is_prefix (Path.dirname p) p = true.
Proof.
  unfold Path.dirname. destruct p as [|a l] using rev_ind; [reflexivity|].
  rewrite removelast_last. apply is_prefix_app.
Qed.

Lemma dirname_snoc p s : Path.dirname (p ++ [s]) = p.
Proof. apply removelast_last. Qed.

(** The region of an entry lies within the region of its directory. *)
Lemma region_child flatten source destination item :
  is_prefix (region flatten source destination)
    (region flatten (Path.join source [item])
       (if flatten then Path.join destination (Path.basename [item])
        else Path.join destination [item])) = true.
Proof.
  unfold region, effective, Path.join. destruct flatten.
  - replace (Path.basename (source ++ [item])) with [item].
    + cbn [Path.basename Path.base last]. rewrite dirname_snoc.
      destruct source as [|a l].
      * cbn [Path.basename]. rewrite app_nil_r.
        eapply is_prefix_trans; [apply is_prefix_dirname|].
        apply is_prefix_app.
      * unfold Path.basename. rewrite dirname_snoc. apply is_prefix_app.
    + unfold Path.basename, Path.base. rewrite last_last.
      now destruct source.
  - rewrite dirname_snoc. apply is_prefix_dirname.
Qed.

(** Two ancestors of one path: one is an ancestor of the other. *)
Lemma is_prefix_comparable p q r :
  is_prefix p r = true -> is_prefix q r = true ->
  is_prefix p q = true \/ is_prefix q p = true.
Proof.
  revert q r. induction p as [|a p IH]; intros q r Hp Hq; [now left|].
  destruct q as [|b q]; [now right|].
  destruct r as [|c r]; [discriminate|]. cbn in *.
  apply andb_true_iff in Hp, Hq. destruct Hp as [E1 Hp], Hq as [E2 Hq].
  apply String.eqb_eq in E1, E2. subst.
  rewrite String.eqb_refl. cbn. eauto.
Qed.

(** A path apart from [B] is touched by no call made below [B]. *)
Lemma apart_untouched B q p :
  apart q B -> is_prefix B p = true ->
  is_prefix q p = false /\ is_prefix p q = false.
Proof.
  intros [H1 H2] HB. split.
  - destruct (is_prefix q p) eqn:E; [|reflexivity].
    destruct (is_prefix_comparable _ _ _ E HB); congruence.
  - destruct (is_prefix p q) eqn:E; [|reflexivity].
    rewrite (is_prefix_trans _ _ _ HB E) in H2. discriminate.
Qed.

End PrefixFacts.

Section Traversal.

Variables (depth height : nat) (flatten : bool).
Variables (conflictResolution logLevel : string).

Let any {A} : A -> Prop := fun _ => True.

Lemma inv_uniqueLoop Q fuel filePath : forall uniquePath counter,
  (forall p, Q (Access p)) ->
  run_inv Q (fun u => u = uniquePath
                      \/ exists k, u = candidate filePath (S k))
    (uniqueLoop fuel filePath uniquePath (S counter)).
Proof.
  induction fuel as [|fuel IH]; intros uniquePath counter HQ;
    cbn [uniqueLoop]; [apply inv_outOfFuel|].
  eapply (inv_bind Q (fun next =>
            match next with
            | Some (u, n) => u = candidate filePath (S counter)
                             /\ n = S (S counter)
            | None => True
            end)).
  - unfold uniqueStep. apply inv_try_catch.
    + eapply inv_bind; [apply inv_access, HQ|].
      intros _ _. apply inv_ret. split; [reflexivity | lia].
    + intros e. now apply inv_ret.
  - intros [[u n]|] Hnext.
    + destruct Hnext as [-> ->].
      eapply inv_weaken; [| |apply IH; assumption]; auto.
      intros a [->|Hk]; right; eauto.
    + apply inv_ret. now left.
Qed.

Lemma candidate_in_dirname filePath k :
  is_prefix (Path.dirname filePath) (candidate filePath k) = true.
Proof.
  destruct k; [apply is_prefix_dirname|].
  rewrite candidate_S. apply is_prefix_app.
Qed.

Lemma inv_copyFileItem fuel source destination currentDepth :
  (0 < depth -> currentDepth <= depth) ->
  (0 < height -> currentDepth <= height) ->
  run_inv (allowed source depth height currentDepth
             (region flatten source destination)) any
    (copyFileItem fuel source destination flatten conflictResolution
                  logLevel).
Proof.
  intros Hd Hh. unfold copyFileItem.
  fold (effective flatten source destination).
  set (destPath := effective flatten source destination).
  assert (Hcopy : forall d,
            is_prefix (Path.dirname destPath) d = true ->
            allowed source depth height currentDepth
              (region flatten source destination) (CopyFile source d)).
  { intros d Hpre. split; [|exact Hpre].
    exists []. rewrite app_nil_r, Nat.add_0_r. auto. }
  apply inv_try_catch.
  - eapply inv_bind; [now apply inv_stat|]. intros stats _.
    destruct (isDirectory stats); [apply inv_throw|].
    destruct (String.eqb conflictResolution "overwrite").
    { eapply inv_bind; [|intros; apply inv_report].
      apply inv_copyFile, Hcopy, is_prefix_dirname. }
    destruct (String.eqb conflictResolution "skip");
      [apply inv_report|].
    destruct (String.eqb conflictResolution "rename");
      [|apply inv_throw].
    eapply inv_bind; [apply inv_uniqueLoop; intros; exact I|].
    intros u Hu. eapply inv_bind; [|intros; apply inv_report].
    apply inv_copyFile, Hcopy.
    destruct Hu as [->|[k ->]];
      [apply is_prefix_dirname | apply (candidate_in_dirname _ (S k))].
  - intros e. destruct (is_ENOENT e); [|apply inv_throw].
    eapply inv_bind; [apply inv_mkdir; apply is_prefix_refl|].
    intros _ _. eapply inv_bind; [|intros; apply inv_report].
    apply inv_copyFile, Hcopy, is_prefix_dirname.
Qed.

(** Calls allowed for an entry are allowed for its directory. *)
Lemma allowed_child source destination currentDepth item c :
  allowed (Path.join source [item]) depth height (currentDepth + 1)
    (region flatten (Path.join source [item])
       (if flatten then Path.join destination (Path.basename [item])
        else Path.join destination [item])) c ->
  allowed source depth height currentDepth
    (region flatten source destination) c.
Proof.
  pose proof (region_child flatten source destination item) as HB.
  assert (Hrel : forall p rel,
            p = Path.join source [item] ++ rel ->
            p = source ++ item :: rel
            /\ currentDepth + 1 + List.length rel
               = currentDepth + List.length (item :: rel)).
  { intros p rel ->. unfold Path.join. rewrite <- app_assoc.
    cbn [List.length app]. split; [reflexivity | lia]. }
  destruct c as [p|p|p|p|s d]; cbn [allowed]; auto.
  - intros (rel & Hp & H1 & H2). destruct (Hrel _ _ Hp) as [-> E].
    exists (item :: rel). rewrite <- E. auto.
  - intros Hp. eapply is_prefix_trans; eauto.
  - intros [(rel & Hp & H1 & H2) Hpre]. destruct (Hrel _ _ Hp) as [-> E].
    split; [|eapply is_prefix_trans; eauto].
    exists (item :: rel). rewrite <- E. auto.
Qed.

(** Every call of a traversal is allowed, and the tree changes only
    where the calls touch it. *)
Lemma inv_copyItem fuel : forall source destination currentDepth,
  (0 < depth -> currentDepth <= depth) ->
  (0 < height -> currentDepth <= height) ->
  run_inv (allowed source depth height currentDepth
             (region flatten source destination)) any
    (copyItem fuel source destination depth height flatten
              conflictResolution logLevel currentDepth).
Proof.
  induction fuel as [|fuel IH]; intros source destination currentDepth
    Hd Hh; cbn [copyItem]; [apply inv_outOfFuel|].
  apply inv_try_catch; [|intros e; apply inv_console].
  eapply inv_bind; [now apply inv_stat|]. intros stats _.
  destruct (isDirectory stats);
    [|apply inv_copyFileItem; assumption].
  destruct ((0 <? depth) && (depth <=? currentDepth)) eqn:Gd;
    [now apply inv_ret|].
  destruct ((0 <? height) && (height <=? currentDepth)) eqn:Gh;
    [now apply inv_ret|].
  assert (Gd' : 0 < depth -> currentDepth < depth).
  { intros H. apply andb_false_iff in Gd. destruct Gd as [G|G].
    - apply Nat.ltb_ge in G. lia.
    - now apply Nat.leb_gt in G. }
  assert (Gh' : 0 < height -> currentDepth < height).
  { intros H. apply andb_false_iff in Gh. destruct Gh as [G|G].
    - apply Nat.ltb_ge in G. lia.
    - now apply Nat.leb_gt in G. }
  eapply inv_bind.
  { apply inv_readdir. exists []. rewrite app_nil_r, Nat.add_0_r. auto. }
  intros items _.
  destruct ((List.length items =? 0) && flatten); [now apply inv_ret|].
  apply (inv_bind _ any).
  - destruct flatten eqn:Hfl; cbn [negb when]; [now apply inv_ret|].
    unfold ensureDirectory. apply inv_try_catch.
    + eapply inv_bind; [now apply inv_stat|]. intros st _.
      destruct (isFile st); [apply inv_throw | now apply inv_ret].
    + intros e. destruct (is_ENOENT e); [|apply inv_throw].
      apply inv_mkdir. cbn [allowed]. unfold region, effective.
      apply is_prefix_dirname.
  - intros _ _. apply inv_forEach. intros item _.
    eapply inv_weaken; [apply allowed_child | auto |].
    apply IH; intros H; [specialize (Gd' H) | specialize (Gh' H)]; lia.
Qed.

End Traversal.

(* ================================================================== *)
(** ** Errors stop at [copyItem]; fuel                                 *)
(* ================================================================== *)

(** The outer [catch] of [copyItem] handles every thrown value. *)
Lemma copyItem_never_throws fuel source destination depth height flatten
    conflictResolution logLevel currentDepth w e w' :
  copyItem fuel source destination depth height flatten conflictResolution
           logLevel currentDepth w <> Throw e w'.
Proof.
  destruct fuel; cbn [copyItem]; [discriminate|].
  unfold try_catch.
  match goal with |- context [match ?b w with _ => _ end] => destruct (b w) end;
    discriminate.
Qed.

Lemma copyItem_returns_unit fuel source destination depth height flatten
    conflictResolution logLevel currentDepth w :
  copyItem fuel source destination depth height flatten conflictResolution
           logLevel currentDepth w <> OutOfFuel ->
  exists w',
    copyItem fuel source destination depth height flatten conflictResolution
             logLevel currentDepth w = Ret tt w'.
Proof.
  intros H.
  destruct (copyItem fuel source destination depth height flatten
              conflictResolution logLevel currentDepth w)
    as [[] w'|e w'|] eqn:E.
  - eauto.
  - exfalso. eapply copyItem_never_throws; eauto.
  - congruence.
Qed.

Section Fuel.

(** More fuel does not change a run that did not run out. *)
Lemma forEach_stable {A} (items : list A) (f g : A -> M unit) :
  (forall x w, f x w <> OutOfFuel -> g x w = f x w) ->
  forall w, forEach items f w <> OutOfFuel ->
            forEach items g w = forEach items f w.
Proof.
  intros H. induction items as [|x xs IH]; intros w Hw; [reflexivity|].
  cbn [forEach] in *. unfold bind in *.
  destruct (f x w) as [[] w1|e w1|] eqn:E; [| |congruence];
    rewrite H, E by congruence; auto.
Qed.

Lemma uniqueLoop_stable n : forall n' filePath uniquePath counter w,
  n <= n' ->
  uniqueLoop n filePath uniquePath counter w <> OutOfFuel ->
  uniqueLoop n' filePath uniquePath counter w
  = uniqueLoop n filePath uniquePath counter w.
Proof.
  induction n as [|n IH]; intros n' filePath uniquePath counter w Hle Hw;
    [exfalso; apply Hw; reflexivity|].
  destruct n' as [|n']; [lia|]. cbn [uniqueLoop] in *. unfold bind in *.
  destruct (uniqueStep filePath uniquePath counter w)
    as [[[u k]|] w1|e w1|]; auto.
  apply IH; [lia | assumption].
Qed.

Lemma copyFileItem_stable n n' source destination flatten
    conflictResolution logLevel w :
  n <= n' ->
  copyFileItem n source destination flatten conflictResolution logLevel w
    <> OutOfFuel ->
  copyFileItem n' source destination flatten conflictResolution logLevel w
  = copyFileItem n source destination flatten conflictResolution logLevel w.
Proof.
  intros Hle. unfold copyFileItem, try_catch, bind.
  destruct (fs_promises.stat _ w) as [st w1|e w1|]; try reflexivity.
  destruct (isDirectory st); try reflexivity.
  destruct (String.eqb conflictResolution "overwrite"); try reflexivity.
  destruct (String.eqb conflictResolution "skip"); try reflexivity.
  destruct (String.eqb conflictResolution "rename"); try reflexivity.
  unfold getUniqueFileName. intros Hw.
  rewrite (uniqueLoop_stable n n'); auto.
  destruct (uniqueLoop n _ _ _ w1); congruence.
Qed.

Lemma copyItem_stable n : forall n' source destination depth height
    flatten conflictResolution logLevel currentDepth w,
  n <= n' ->
  copyItem n source destination depth height flatten conflictResolution
           logLevel currentDepth w <> OutOfFuel ->
  copyItem n' source destination depth height flatten conflictResolution
           logLevel currentDepth w
  = copyItem n source destination depth height flatten conflictResolution
             logLevel currentDepth w.
Proof.
  induction n as [|n IH]; intros n' source destination depth height
    flatten conflictResolution logLevel currentDepth w Hle Hw;
    [exfalso; apply Hw; reflexivity|].
  destruct n' as [|n']; [lia|]. cbn [copyItem] in *.
  unfold try_catch, bind in *.
  destruct (fs_promises.stat source w) as [st w1|e w1|]; try reflexivity.
  destruct (isDirectory st).
  - destruct ((0 <? depth) && (depth <=? currentDepth)); try reflexivity.
    destruct ((0 <? height) && (height <=? currentDepth));
      try reflexivity.
    destruct (fs_promises.readdir source w1) as [items w2|e w2|];
      try reflexivity.
    destruct ((List.length items =? 0) && flatten); try reflexivity.
    destruct (when (negb flatten) (ensureDirectory destination) w2)
      as [[] w3|e w3|]; try reflexivity.
    rewrite (forEach_stable items
               (fun item =>
                  copyItem n (Path.join source [item])
                    (if flatten
                     then Path.join destination (Path.basename [item])
                     else Path.join destination [item])
                    depth height flatten conflictResolution logLevel
                    (currentDepth + 1))); auto.
    + intros x w' Hx. apply IH; [lia | assumption].
    + intros E. rewrite E in Hw. congruence.
  - rewrite (copyFileItem_stable (S n) (S n')); [reflexivity | lia |].
    intros E. rewrite E in Hw. congruence.
Qed.

Lemma bind_ends {A B} (m : M A) (k : A -> M B) w :
  m w <> OutOfFuel ->
  (forall a w1, m w = Ret a w1 -> k a w1 <> OutOfFuel) ->
  bind m k w <> OutOfFuel.
Proof.
  intros Hm Hk. unfold bind.
  destruct (m w) as [a w1|e w1|]; [now apply Hk | discriminate | auto].
Qed.

Lemma try_catch_ends {A} (m : M A) (h : error -> M A) w :
  m w <> OutOfFuel ->
  (forall e w1, m w = Throw e w1 -> h e w1 <> OutOfFuel) ->
  try_catch m h w <> OutOfFuel.
Proof.
  intros Hm Hh. unfold try_catch.
  destruct (m w) as [a w1|e w1|]; [discriminate | now apply Hh | auto].
Qed.

Lemma syscall_ends {A} c name p (f : node -> sys (A * node)) w :
  syscall c name p f w <> OutOfFuel.
Proof. unfold syscall. destruct (f _) as [[]|]; discriminate. Qed.

Lemma report_ends logLevel label op a b s d w :
  report logLevel label op a b s d w <> OutOfFuel.
Proof.
  destruct (report_run logLevel label op a b s d w) as (l & -> & _).
  discriminate.
Qed.

Lemma stat_world p w st w1 :
  fs_promises.stat p w = Ret st w1 -> w1 = called (Stat p) w.
Proof.
  unfold fs_promises.stat, syscall. cbn [fs called].
  destruct (Fs.lookup p (fs w)); cbn; intros H; now inversion H.
Qed.

(** The file branch ends, given enough fuel for the rename loop. *)
Lemma copyFileItem_returns source destination flatten conflictResolution
    logLevel w :
  exists fuel,
    copyFileItem fuel source destination flatten conflictResolution
                 logLevel w <> OutOfFuel.
Proof.
  set (destPath := effective flatten source destination).
  destruct (first_free_candidate destPath
              (fs (called (Stat destPath) w))) as (n & Hocc & Hfree).
  exists (S n). unfold copyFileItem.
  fold (effective flatten source destination). fold destPath.
  apply try_catch_ends.
  - apply bind_ends; [apply syscall_ends|]. intros st w1 Hst.
    apply stat_world in Hst. subst w1.
    destruct (isDirectory st); [discriminate|].
    destruct (String.eqb conflictResolution "overwrite").
    { apply bind_ends; [apply syscall_ends|]. intros. apply report_ends. }
    destruct (String.eqb conflictResolution "skip"); [apply report_ends|].
    destruct (String.eqb conflictResolution "rename"); [|discriminate].
    apply bind_ends.
    + unfold getUniqueFileName.
      change (uniqueLoop (S n) destPath destPath 1)
        with (uniqueLoop (S n) destPath (candidate destPath 0) 1).
      rewrite (uniqueLoop_run destPath n 0 (S n)); auto; [discriminate|].
      intros j Hj. apply Hocc. lia.
    + intros u w1 _. apply bind_ends; [apply syscall_ends|].
      intros. apply report_ends.
  - intros e w1 _. destruct (is_ENOENT e); [|discriminate].
    apply bind_ends; [apply syscall_ends|]. intros _ w2 _.
    apply bind_ends; [apply syscall_ends|]. intros. apply report_ends.
Qed.

End Fuel.

(* ================================================================== *)
(** ** Termination of a traversal                                      *)
(* ================================================================== *)

Section Loops.

Context {A : Type}.
Variable f : nat -> A -> M unit.
Variable I : world -> Prop.
Variable items : list A.

Hypothesis f_stable : forall n n' x w,
  n <= n' -> f n x w <> OutOfFuel -> f n' x w = f n x w.
Hypothesis f_ends : forall x w,
  In x items -> I w -> exists fuel, f fuel x w <> OutOfFuel.
Hypothesis f_keeps : forall fuel x w w',
  In x items -> I w -> f fuel x w = Ret tt w' -> I w'.

(** A loop whose rounds all end, each keeping the invariant under which
    the next one ends, ends. *)
Lemma forEach_ends :
  forall w, I w -> exists fuel, forEach items (f fuel) w <> OutOfFuel.
Proof.
  clear -f_stable f_ends f_keeps. revert f_ends f_keeps.
  induction items as [|x xs IH]; intros Hends Hkeeps w Hw.
  - exists 0. discriminate.
  - destruct (Hends x w (or_introl eq_refl) Hw) as [n1 Hn1].
    destruct (f n1 x w) as [[] w1|e w1|] eqn:E1; [| |congruence].
    + destruct (IH (fun y w0 Hy => Hends y w0 (or_intror Hy))
                  (fun n y w0 w0' Hy => Hkeeps n y w0 w0' (or_intror Hy))
                  w1) as [n2 Hn2].
      { eapply Hkeeps; eauto. now left. }
      exists (Nat.max n1 n2). cbn [forEach]. unfold bind.
      rewrite (f_stable n1 (Nat.max n1 n2)), E1 by (congruence || lia).
      rewrite (forEach_stable xs (f n2)); auto.
      intros y w0 Hy. apply f_stable; [lia | assumption].
    + exists n1. cbn [forEach]. unfold bind. rewrite E1. discriminate.
Qed.

End Loops.

Section Termination.

Variables (depth height : nat) (flatten : bool).
Variables (conflictResolution logLevel : string).

Let any {A} : A -> Prop := fun _ => True.

Lemma inv_ensureDirectory Q destination :
  Q (Stat destination) -> Q (Mkdir destination) ->
  run_inv Q any (ensureDirectory destination).
Proof.
  intros HS HM. unfold ensureDirectory. apply inv_try_catch.
  - eapply inv_bind; [now apply inv_stat|]. intros st _.
    destruct (isFile st); [apply inv_throw | now apply inv_ret].
  - intros e. destruct (is_ENOENT e); [|apply inv_throw].
    now apply inv_mkdir.
Qed.

Lemma ensureDirectory_ends destination w :
  ensureDirectory destination w <> OutOfFuel.
Proof.
  unfold ensureDirectory. apply try_catch_ends.
  - apply bind_ends; [apply syscall_ends|]. intros st w1 _.
    destruct (isFile st); discriminate.
  - intros e w1 _. destruct (is_ENOENT e); [|discriminate].
    apply syscall_ends.
Qed.

(** [rank k source destination currentDepth w] bounds by [k] the levels
    that remain below [source]. Entering a directory needs a positive
    rank, and leaves its entries with a smaller one in every world
    reached by allowed calls. *)
Variable rank : nat -> path -> path -> nat -> world -> Prop.

Hypothesis rank_descends :
  forall k source destination currentDepth w es,
    rank k source destination currentDepth w ->
    Fs.lookup source (fs w) = Done (Dir es) ->
    within_bounds depth height currentDepth ->
    exists k',
      k = S k'
      /\ forall item w',
           In item (map fst es) ->
           effect (allowed source depth height currentDepth
                     (region flatten source destination)) w w' ->
           rank k' (Path.join source [item])
                (if flatten
                 then Path.join destination (Path.basename [item])
                 else Path.join destination [item])
                (currentDepth + 1) w'.

Lemma copyItem_ends_ranked k : forall source destination currentDepth w,
  (0 < depth -> currentDepth <= depth) ->
  (0 < height -> currentDepth <= height) ->
  rank k source destination currentDepth w ->
  exists fuel,
    copyItem fuel source destination depth height flatten
             conflictResolution logLevel currentDepth w <> OutOfFuel.
Proof.
  induction k as [k IH] using lt_wf_ind.
  intros source destination currentDepth w Hd Hh Hrank.
  set (Q := allowed source depth height currentDepth
              (region flatten source destination)).
  destruct (Fs.lookup source (fs w)) as [[c|es]|e] eqn:Hs.
  - (* a file *)
    destruct (copyFileItem_returns source destination flatten
                conflictResolution logLevel (called (Stat source) w))
      as [n Hn].
    exists (S n). rewrite (copyItem_file _ _ _ _ _ _ _ _ _ _ _ Hs).
    rewrite (copyFileItem_stable n (S n)) by (lia || assumption).
    destruct (copyFileItem n _ _ _ _ _ _); congruence.
  - (* a directory *)
    destruct ((0 <? depth) && (depth <=? currentDepth)) eqn:Gd.
    { exists 1. cbn [copyItem]. unfold try_catch, bind.
      rewrite (stat_Done _ _ _ Hs). cbn [stats_of isDirectory].
      rewrite Gd. discriminate. }
    destruct ((0 <? height) && (height <=? currentDepth)) eqn:Gh.
    { exists 1. cbn [copyItem]. unfold try_catch, bind.
      rewrite (stat_Done _ _ _ Hs). cbn [stats_of isDirectory].
      rewrite Gd, Gh. discriminate. }
    assert (Hb : within_bounds depth height currentDepth).
    { apply andb_false_iff in Gd, Gh. split.
      - destruct Gd as [G|G]; [apply Nat.ltb_ge in G; lia
                              | apply Nat.leb_gt in G; lia].
      - destruct Gh as [G|G]; [apply Nat.ltb_ge in G; lia
                              | apply Nat.leb_gt in G; lia]. }
    destruct (rank_descends _ _ _ _ _ _ Hrank Hs Hb) as (k' & -> & Hchild).
    set (w2 := called (Readdir source) (called (Stat source) w)).
    assert (E2 : effect Q w w2).
    { apply (effect_trans Q w (called (Stat source) w));
        [apply effect_query; exact I|].
      apply effect_query. exists []. rewrite app_nil_r, Nat.add_0_r.
      destruct Hb as [[?|?] [?|?]]; repeat split; auto; lia. }
    assert (Hprefix : forall fuel,
      copyItem (S fuel) source destination depth height flatten
               conflictResolution logLevel currentDepth w
      = match
          (if (List.length (map fst es) =? 0) && flatten then ret tt
           else
             (when (negb flatten) (ensureDirectory destination) ;;
              forEach (map fst es) (fun item =>
                copyItem fuel (Path.join source [item])
                  (if flatten
                   then Path.join destination (Path.basename [item])
                   else Path.join destination [item])
                  depth height flatten conflictResolution logLevel
                  (currentDepth + 1)))%async) w2
        with
        | Throw e w' => console_error (ErrorCopying source e) w'
        | r => r
        end).
    { intros fuel. cbn [copyItem]. unfold try_catch. unfold bind at 1.
      rewrite (stat_Done _ _ _ Hs). cbn [stats_of isDirectory].
      rewrite Gd, Gh. unfold bind at 1.
      now rewrite (readdir_Done _ (called (Stat source) w) es) by exact Hs. }
    destruct ((List.length (map fst es) =? 0) && flatten) eqn:Hempty.
    { exists 1. rewrite Hprefix. discriminate. }
    destruct (when (negb flatten) (ensureDirectory destination) w2)
      as [[] w3|e w3|] eqn:Hens.
    + assert (E3 : effect Q w w3).
      { eapply effect_trans; [exact E2|].
        destruct flatten eqn:Hfl; cbn [negb when] in Hens.
        - inversion Hens. apply effect_refl.
        - pose proof (inv_ensureDirectory Q destination I) as Hinv.
          specialize (Hinv (is_prefix_dirname destination) w2).
          rewrite Hens in Hinv. apply Hinv. }
      destruct (forEach_ends
                  (fun fuel item =>
                     copyItem fuel (Path.join source [item])
                       (if flatten
                        then Path.join destination (Path.basename [item])
                        else Path.join destination [item])
                       depth height flatten conflictResolution logLevel
                       (currentDepth + 1))
                  (fun w' => effect Q w w') (map fst es)) with (w := w3)
        as [n Hn].
      * intros. now apply copyItem_stable.
      * intros item w' Hin Hw'.
        apply (IH k' (Nat.lt_succ_diag_r k')); auto; intros H;
          destruct Hb as [[?|?] [?|?]]; lia.
      * intros fuel item w' w'' Hin Hw' Hrun.
        eapply effect_trans; [exact Hw'|].
        eapply effect_weaken; [apply allowed_child|].
        pose proof (inv_copyItem depth height flatten conflictResolution
                      logLevel fuel (Path.join source [item])
                      (if flatten
                       then Path.join destination (Path.basename [item])
                       else Path.join destination [item])
                      (currentDepth + 1)) as Hinv.
        specialize (fun H1 H2 => Hinv H1 H2 w'). rewrite Hrun in Hinv.
        apply Hinv; intros H; destruct Hb as [[?|?] [?|?]]; lia.
      * exact E3.
      * exists (S n). rewrite Hprefix. unfold bind. rewrite Hens.
        destruct (forEach _ _ w3); congruence || discriminate.
    + exists 1. rewrite Hprefix. unfold bind. rewrite Hens. discriminate.
    + exfalso. destruct flatten; cbn [negb when] in Hens;
        [discriminate | eapply ensureDirectory_ends; eauto].
  - (* absent *)
    exists 1. cbn [copyItem]. unfold try_catch, bind.
    rewrite (stat_Fail _ _ _ Hs). discriminate.
Qed.

End Termination.

Section TerminationCases.

Variables (depth height : nat) (flatten : bool).
Variables (conflictResolution logLevel : string).

(** With a positive bound the traversal ends, whatever the tree. *)
Lemma copyItem_ends_bounded source destination currentDepth w :
  0 < depth \/ 0 < height ->
  (0 < depth -> currentDepth <= depth) ->
  (0 < height -> currentDepth <= height) ->
  exists fuel w',
    copyItem fuel source destination depth height flatten
             conflictResolution logLevel currentDepth w = Ret tt w'.
Proof.
  intros Hpos Hd Hh.
  destruct (copyItem_ends_ranked depth height flatten conflictResolution
              logLevel
              (fun k _ _ cd _ =>
                 (0 < depth /\ depth - cd <= k)
                 \/ (0 < height /\ height - cd <= k))
              ) with (k := depth + height) (source := source)
                     (destination := destination)
                     (currentDepth := currentDepth) (w := w)
    as [fuel Hfuel]; auto.
  - intros k s d cd w0 es Hrank _ [Bd Bh].
    assert (Hk : 1 <= k) by (destruct Hrank as [[? ?]|[? ?]]; lia).
    exists (k - 1). split; [lia|]. intros item w' _ _.
    destruct Hrank as [[? ?]|[? ?]]; [left | right]; lia.
  - destruct Hpos; [left | right]; lia.
  - exists fuel. now apply copyItem_returns_unit.
Qed.

Lemma height_entry s es c :
  Fs.get s es = Some c -> Fs.height c < Fs.height (Dir es).
Proof.
  cbn [Fs.height]. induction es as [|[k m] es IH]; cbn; [discriminate|].
  destruct (String.eqb s k).
  - intros H; inversion H; subst. lia.
  - intros H. specialize (IH H). lia.
Qed.

Lemma apart_extend p B rel : apart p B -> apart (p ++ rel) B.
Proof.
  intros [H1 H2]. split.
  - destruct (is_prefix (p ++ rel) B) eqn:E; [|reflexivity].
    rewrite (is_prefix_trans p (p ++ rel) B) in H1;
      [discriminate | apply is_prefix_app | assumption].
  - destruct (is_prefix B (p ++ rel)) eqn:E; [|reflexivity].
    destruct (is_prefix_comparable _ _ _ E (is_prefix_app p rel));
      congruence.
Qed.

Lemma apart_deeper p B B' :
  apart p B -> is_prefix B B' = true -> apart p B'.
Proof.
  intros [H1 H2] HB. split.
  - destruct (is_prefix p B') eqn:E; [|reflexivity].
    destruct (is_prefix_comparable _ _ _ E HB); congruence.
  - destruct (is_prefix B' p) eqn:E; [|reflexivity].
    rewrite (is_prefix_trans _ _ _ HB E) in H2. discriminate.
Qed.

(** What lies apart from the region of a traversal is not changed by
    it. *)
Lemma effect_frame root d h cd B w w' q :
  effect (allowed root d h cd B) w w' -> apart q B ->
  Fs.lookup q (fs w') = Fs.lookup q (fs w).
Proof.
  intros (new & _ & HF & HL & _) Hq. apply HL. intros c Hc.
  rewrite Forall_forall in HF. specialize (HF c Hc).
  destruct c as [p|p|p|p|s p]; cbn [touches allowed] in *; auto.
  - now destruct (apart_untouched B q p Hq HF).
  - destruct HF as [_ HF].
    destruct (apart_untouched B q p Hq HF) as [-> ->]. reflexivity.
Qed.


End TerminationCases.

(* ================================================================== *)
(** ** The depth bound (C10, C2)                                       *)
(* ================================================================== *)

(** The effect of a traversal that returned. *)
Lemma copyItem_effect fuel source destination depth height flatten
    conflictResolution logLevel w w' :
  copyItem fuel source destination depth height flatten conflictResolution
           logLevel 0 w = Ret tt w' ->
  effect (allowed source depth height 0 (region flatten source destination))
         w w'.
Proof.
  intros Hrun.
  pose proof (inv_copyItem depth height flatten conflictResolution logLevel
                fuel source destination 0) as Hinv.
  specialize (fun H1 H2 => Hinv H1 H2 w). rewrite Hrun in Hinv.
  apply Hinv; lia.
Qed.

(** C10. With [depth > 0]:
    - a directory reached when the depth counter is [depth] or more is
      not entered: [copyItem] returns after its [stat], without listing
      the directory and without a recursive call;
    - a traversal started at counter 0 ends, and every directory it lists
      lies fewer than [depth] levels below the source, that is, was
      reached with a counter smaller than [depth]. *)
Theorem depth_bound_stops_descent
    depth height flatten conflictResolution logLevel source destination w :
  0 < depth ->
  (forall fuel currentDepth es,
     depth <= currentDepth ->
     Fs.lookup source (fs w) = Done (Dir es) ->
     copyItem (S fuel) source destination depth height flatten
              conflictResolution logLevel currentDepth w
     = Ret tt (called (Stat source) w))
  /\ (exists fuel w',
        copyItem fuel source destination depth height flatten
                 conflictResolution logLevel 0 w = Ret tt w')
  /\ (forall fuel w',
        copyItem fuel source destination depth height flatten
                 conflictResolution logLevel 0 w = Ret tt w' ->
        exists new,
          calls w' = calls w ++ new
          /\ forall p, In (Readdir p) new ->
               exists rel, p = source ++ rel /\ List.length rel < depth).
Proof.
  intros Hpos. split; [|split].
  - intros fuel currentDepth es Hcd Hs.
    cbn [copyItem]. unfold try_catch, bind.
    rewrite (stat_Done _ _ _ Hs). cbn [stats_of isDirectory].
    replace (0 <? depth) with true by (symmetry; now apply Nat.ltb_lt).
    replace (depth <=? currentDepth) with true
      by (symmetry; now apply Nat.leb_le).
    reflexivity.
  - apply copyItem_ends_bounded; auto; lia.
  - intros fuel w' Hrun.
    destruct (copyItem_effect _ _ _ _ _ _ _ _ _ _ Hrun)
      as (new & Hc & HF & _). exists new. split; [exact Hc|].
    intros p Hin. rewrite Forall_forall in HF.
    destruct (HF _ Hin) as (rel & -> & Hd & _). exists rel.
    split; [reflexivity | exact (Hd Hpos)].
Qed.

(** C2. With [depth = d > 0], a traversal started at counter 0 ends, and:
    - every file it copies lies at most [d] segments below the source; so
      a file at nesting level [d] or more (a file [source/dirs/name] is at
      nesting level [length dirs], the files directly in the source
      directory being at level 0) is never copied, whether the tree is
      flattened or not;
    - files enter the tree by these copies only: a path that is the
      destination of no copy holds the same file, or no file, as before. *)
Theorem depth_bound_limits_copies
    d height flatten conflictResolution logLevel source destination w :
  0 < d ->
  (exists fuel w',
     copyItem fuel source destination d height flatten
              conflictResolution logLevel 0 w = Ret tt w')
  /\ (forall fuel w',
        copyItem fuel source destination d height flatten
                 conflictResolution logLevel 0 w = Ret tt w' ->
        exists new,
          calls w' = calls w ++ new
          /\ (forall dirs name dst,
                In (CopyFile (source ++ dirs ++ [name]) dst) new ->
                List.length dirs < d)
          /\ (forall s dst,
                In (CopyFile s dst) new ->
                exists rel, s = source ++ rel /\ List.length rel <= d)
          /\ (forall q,
                (forall s, ~ In (CopyFile s q) new) ->
                Fs.readFile q (fs w') = Fs.readFile q (fs w))).
Proof.
  intros Hpos. split.
  - apply copyItem_ends_bounded; auto; lia.
  - intros fuel w' Hrun.
    destruct (copyItem_effect _ _ _ _ _ _ _ _ _ _ Hrun)
      as (new & Hc & HF & _ & HR). exists new.
    rewrite Forall_forall in HF.
    assert (Hsrc : forall s dst, In (CopyFile s dst) new ->
                   exists rel, s = source ++ rel /\ List.length rel <= d).
    { intros s dst Hin. destruct (HF _ Hin) as [(rel & -> & Hd & _) _].
      exists rel. split; [reflexivity | exact (Hd Hpos)]. }
    repeat split; auto.
    intros dirs name dst Hin.
    destruct (Hsrc _ _ Hin) as (rel & E & Hlen).
    apply app_inv_head in E. subst rel.
    rewrite length_app in Hlen. cbn in Hlen. lia.
Qed.

(* ================================================================== *)
(** ** Concrete instances                                              *)
(* ================================================================== *)

(** C8, as stated, fails when an ancestor of the destination is a regular
    file: the destination [out/file1.txt] does not exist ([out] is a file),
    yet nothing is copied; [stat] answers ENOTDIR and the error is
    reported. *)
Lemma absent_destination_under_file_fails :
  (forall n, Fs.lookup ["out"; "file1.txt"] kindTree <> Done n)
  /\ Fs.lookup ["file1.txt"] kindTree = Done (File "1")
  /\ copyItem 1 ["file1.txt"] ["out"; "file1.txt"] 0 0 false "overwrite"
              "none" 0 (world_of kindTree)
     = Ret tt
         {| fs := kindTree;
            calls := [Stat ["file1.txt"]; Stat ["out"; "file1.txt"]];
            console :=
              [ErrorCopying ["file1.txt"]
                 (SystemError ENOTDIR "stat" ["out"; "file1.txt"])] |}.
Proof. repeat split. intros n H. discriminate. Qed.

(** The skip policy on [file1.txt] copied over [out/file1.txt]. *)
Lemma skip_takes_no_action_witness :
  Fs.lookup ["file1.txt"] (fs (world_of conflictTree)) = Done (File "new")
  /\ Fs.lookup (effective true ["file1.txt"] ["out"])
               (fs (world_of conflictTree)) = Done (File "old")
  /\ exists w',
       copyItem 1 ["file1.txt"] ["out"] 0 0 true "skip" "verbose" 0
                (world_of conflictTree) = Ret tt w'
       /\ fs w' = fs (world_of conflictTree)
       /\ calls w' = calls (world_of conflictTree)
                     ++ [Stat ["file1.txt"];
                         Stat (effective true ["file1.txt"] ["out"])]
       /\ exists lines,
            console w' = console (world_of conflictTree) ++ lines
            /\ Forall (fun l =>
                 l = Verbose "Skipped"
                       (effective true ["file1.txt"] ["out"]) None
                 \/ l = Brief "skip" ["file1.txt"] None) lines.
Proof.
  split; [reflexivity|]. split; [reflexivity|].
  apply (skip_takes_no_action 0 ["file1.txt"] ["out"] 0 0 true "verbose" 0
           (world_of conflictTree) "new" "old"); reflexivity.
Defined.

(** Both conflicts of kind in one tree: [file1.txt] flattened into [dist],
    where [dist/file1.txt] is a directory, and [folder1] copied to
    [dist/folder1], which is a file. *)
Lemma kind_conflict_witness :
  ((Fs.lookup ["file1.txt"] (fs (world_of kindTree)) = Done (File "1")
    /\ Fs.lookup (effective true ["file1.txt"] ["dist"])
                 (fs (world_of kindTree)) = Done (Dir []))
   /\ exists w',
        copyItem 1 ["file1.txt"] ["dist"] 0 0 true "overwrite" "none" 0
                 (world_of kindTree) = Ret tt w'
        /\ fs w' = kindTree
        /\ console w'
           = [] ++ [ErrorCopying ["file1.txt"]
                      (CannotCopyFile ["file1.txt"] ["dist"; "file1.txt"])]
        /\ exists new, calls w' = [] ++ new /\ Forall is_query new)
  /\ ((Fs.lookup ["folder1"] (fs (world_of kindTree))
       = Done (Dir [("file3.txt", File "3")])
       /\ within_bounds 0 0 0
       /\ Fs.lookup ["dist"; "folder1"] (fs (world_of kindTree))
          = Done (File "a file"))
      /\ exists w',
           copyItem 1 ["folder1"] ["dist"; "folder1"] 0 0 false "overwrite"
                    "none" 0 (world_of kindTree) = Ret tt w'
           /\ fs w' = kindTree
           /\ console w'
              = [] ++ [ErrorCopying ["folder1"]
                         (CannotCreateDirectory ["dist"; "folder1"])]
           /\ exists new, calls w' = [] ++ new /\ Forall is_query new).
Proof.
  split; (split; [repeat split; now left|]).
  - apply (kind_conflict_fails_and_preserves 0 ["file1.txt"] ["dist"] 0 0
             true "overwrite" "none" 0 (world_of kindTree)).
    left. exists "1", []. repeat split.
  - apply (kind_conflict_fails_and_preserves 0 ["folder1"]
             ["dist"; "folder1"] 0 0 false "overwrite" "none" 0
             (world_of kindTree)).
    right. exists [("file3.txt", File "3")], "a file".
    repeat split; now left.
Defined.

(** A policy that does not exist, with a destination that is absent and
    with a destination below the regular file [out]. *)
Lemma absent_destination_witness :
  Fs.lookup ["file1.txt"] (fs (world_of kindTree)) = Done (File "1")
  /\ Fs.lookup (effective false ["file1.txt"] ["new"; "file1.txt"])
               (fs (world_of kindTree)) = Fail ENOENT
  /\ (exists w',
        copyItem 1 ["file1.txt"] ["new"; "file1.txt"] 0 0 false
                 "no-such-policy" "none" 0 (world_of kindTree) = Ret tt w'
        /\ Fs.readFile ["new"; "file1.txt"] (fs w') = Some "1")
  /\ Fs.lookup ["out"] (fs (world_of kindTree))
     = Done (File "not a directory")
  /\ exists w',
       copyItem 1 ["file1.txt"] ["out"; "file1.txt"] 0 0 false
                "no-such-policy" "none" 0 (world_of kindTree) = Ret tt w'
       /\ fs w' = kindTree
       /\ console w'
          = [ErrorCopying ["file1.txt"]
               (SystemError ENOTDIR "stat" ["out"; "file1.txt"])].
Proof.
  split; [reflexivity|]. split; [reflexivity|]. split.
  - destruct (absent_destination_ignores_policy 0 ["file1.txt"]
                ["new"; "file1.txt"] 0 0 false "no-such-policy" "none" 0
                (world_of kindTree) "1" eq_refl) as [Hcopy _].
    destruct (Hcopy eq_refl)
      as (w' & t1 & lines & Hrun & _ & _ & Hread & _).
    exists w'. split; assumption.
  - split; [reflexivity|].
    destruct (absent_destination_ignores_policy 0 ["file1.txt"]
                ["out"; "file1.txt"] 0 0 false "no-such-policy" "none" 0
                (world_of kindTree) "1" eq_refl) as (_ & _ & Hbelow).
    destruct (Hbelow ["out"] ["file1.txt"] "not a directory" eq_refl
                ltac:(discriminate) eq_refl)
      as (_ & w' & Hrun & Hfs & _ & Hcons).
    exists w'. split; [exact Hrun|]. split; [exact Hfs | exact Hcons].
Defined.

(** [file1.txt] copied three times into the absent [dist2]. *)
Lemma rename_witness :
  (Path.splitExt (Path.base ["file1.txt"]) = ("file1", ".txt")
   /\ Fs.lookup ["file1.txt"] (fs (world_of kindTree)) = Done (File "1")
   /\ Fs.lookup (["dist2"] ++ Path.basename ["file1.txt"])
                (fs (world_of kindTree)) = Fail ENOENT
   /\ Fs.lookup ["dist2"; "file1_1.txt"] (fs (world_of kindTree))
      = Fail ENOENT
   /\ Fs.lookup ["dist2"; "file1_2.txt"] (fs (world_of kindTree))
      = Fail ENOENT
   /\ 3 <= 3)
  /\ exists w1 w2 w3,
       copy 3 [renameTask ["file1.txt"] ["dist2"] None] None
            (world_of kindTree) = Ret tt w1
       /\ copy 3 [renameTask ["file1.txt"] ["dist2"] None] None w1
          = Ret tt w2
       /\ copy 3 [renameTask ["file1.txt"] ["dist2"] None] None w2
          = Ret tt w3
       /\ Fs.readFile ["dist2"; "file1.txt"] (fs w2) = Some "1"
       /\ Fs.readFile ["dist2"; "file1_1.txt"] (fs w2) = Some "1"
       /\ Fs.readFile ["dist2"; "file1_2.txt"] (fs w3) = Some "1".
Proof.
  split; [repeat split; lia|].
  destruct (rename_numbers_the_copies ["file1.txt"] ["dist2"] None "1"
              "file1" ".txt" 3 (world_of kindTree))
    as (w1 & w2 & w3 & H1 & H2 & H3 & _ & _ & A & B & _ & _ & _ & C);
    try reflexivity.
  exists w1, w2, w3. repeat split; assumption.
Defined.

(** With [depth = 1], the directory [a/b], reached at counter 1, is not
    entered; the copy of [a] lists [a] only. *)
Lemma depth_bound_stops_descent_witness :
  0 < 1
  /\ copyItem 1 ["a"; "b"] ["out"; "a"; "b"] 1 0 false "overwrite" "none" 1
              (world_of nestedTree)
     = Ret tt (called (Stat ["a"; "b"]) (world_of nestedTree))
  /\ exists w',
       copyItem 2 ["a"] ["out"; "a"] 1 0 false "overwrite" "none" 0
                (world_of nestedTree) = Ret tt w'
       /\ calls w'
          = [Stat ["a"]; Readdir ["a"]; Stat ["out"; "a"];
             Mkdir ["out"; "a"];
             Stat ["a"; "x.txt"]; Stat ["out"; "a"; "x.txt"];
             Mkdir ["out"; "a"];
             CopyFile ["a"; "x.txt"] ["out"; "a"; "x.txt"];
             Stat ["a"; "b"]].
Proof.
  split; [lia|].
  destruct (depth_bound_stops_descent 1 0 false "overwrite" "none"
              ["a"; "b"] ["out"; "a"; "b"] (world_of nestedTree))
    as [Hstop _]; [lia|].
  split.
  - apply (Hstop 0 1 [("y.txt", File "2")]); [lia | reflexivity].
  - eexists. split; [vm_compute; reflexivity | reflexivity].
Defined.

(** With [depth = 1], the copy of [a] ends; [a/x.txt] (level 0) is copied
    and [a/b/y.txt] (level 1) is not. *)
Lemma depth_bound_limits_copies_witness :
  0 < 1
  /\ (exists fuel w',
        copyItem fuel ["a"] ["out"; "a"] 1 0 false "overwrite" "none" 0
                 (world_of nestedTree) = Ret tt w')
  /\ exists w',
       copyItem 2 ["a"] ["out"; "a"] 1 0 false "overwrite" "none" 0
                (world_of nestedTree) = Ret tt w'
       /\ Fs.readFile ["out"; "a"; "x.txt"] (fs w') = Some "1"
       /\ Fs.lookup ["out"; "a"; "b"] (fs w') = Fail ENOENT
       /\ exists new,
            calls w' = calls (world_of nestedTree) ++ new
            /\ forall dirs name dst,
                 In (CopyFile (["a"] ++ dirs ++ [name]) dst) new ->
                 List.length dirs < 1.
Proof.
  split; [lia|].
  destruct (depth_bound_limits_copies 1 0 false "overwrite" "none"
              ["a"] ["out"; "a"] (world_of nestedTree)) as [Hends Hall];
    [lia|].
  split; [exact Hends|].
  destruct (copyItem 2 ["a"] ["out"; "a"] 1 0 false "overwrite" "none" 0
              (world_of nestedTree)) as [[] w'| |] eqn:Hrun;
    try (vm_compute in Hrun; discriminate).
  exists w'. split; [reflexivity|].
  destruct (Hall 2 w' Hrun) as (new & Hc & Hlevel & _).
  vm_compute in Hrun. inversion Hrun; subst w'.
  repeat split. exists new. split; assumption.
Defined.

(* ================================================================== *)
(** ** Failures do not spread (C6)                                     *)
(* ================================================================== *)

Section Isolation.

Let any {A} : A -> Prop := fun _ => True.


(** On a directory that the bounds let it enter, [copyItem] lists the
    entries, makes sure of the destination directory and loops. *)
Lemma copyItem_dir fuel source destination depth height flatten
    conflictResolution logLevel currentDepth w es :
  Fs.lookup source (fs w) = Done (Dir es) ->
  within_bounds depth height currentDepth ->
  copyItem (S fuel) source destination depth height flatten
           conflictResolution logLevel currentDepth w
  = match
      (if (List.length (map fst es) =? 0) && flatten then ret tt
       else
         (when (negb flatten) (ensureDirectory destination) ;;
          forEach (map fst es) (fun item =>
            copyItem fuel (Path.join source [item])
              (if flatten
               then Path.join destination (Path.basename [item])
               else Path.join destination [item])
              depth height flatten conflictResolution logLevel
              (currentDepth + 1)))%async)
        (called (Readdir source) (called (Stat source) w))
    with
    | Throw e w' => console_error (ErrorCopying source e) w'
    | r => r
    end.
Proof.
  intros Hs Hb. destruct (bounds_pass _ _ _ Hb) as [Gd Gh].
  cbn [copyItem]. unfold try_catch. unfold bind at 1.
  rewrite (stat_Done _ _ _ Hs). cbn [stats_of isDirectory].
  rewrite Gd, Gh. unfold bind at 1.
  now rewrite (readdir_Done _ (called (Stat source) w) es) by exact Hs.
Qed.






Lemma relative_dirname s : Path.relative (Path.dirname s) s = Path.basename s.
Proof.
  unfold Path.dirname. induction s as [|a s IH]; [reflexivity|].
  destruct s as [|b s]; [reflexivity|].
  change (removelast (a :: b :: s)) with (a :: removelast (b :: s)).
  cbn [Path.relative]. rewrite String.eqb_refl. rewrite IH. reflexivity.
Qed.

Lemma region_top item s :
  s <> [] ->
  region (default false (flatten item)) s (destination_of item s)
  = dest item.
Proof.
  intros Hs. unfold region, effective, destination_of, Path.join.
  assert (E : Path.basename s = [Path.base s]) by now destruct s.
  destruct (default false (flatten item)); rewrite E; apply dirname_snoc.
Qed.

(** The body of [copy]'s loop, with the two shapes of [src] as one loop
    over the sources. *)
Lemma copyTask_loop fuel item w :
  copyTask fuel item w
  = (when (String.eqb (default "none" (logLevel item)) "brief")
          (console_log (Text "Starting copy task...")) ;;
     forEach (sources_of item) (fun source =>
       copyItem fuel source (destination_of item source)
         (default 0 (depth item)) (default 0 (height item))
         (default false (flatten item))
         (default "overwrite" (conflictResolution item))
         (default "none" (logLevel item)) 0) ;;
     when (String.eqb (default "none" (logLevel item)) "brief")
          (console_log (Text "Copy task completed")))%async w.
Proof.
  unfold copyTask, sources_of, destination_of.
  unfold bind at 1 3. destruct (when _ _ w) as [[] w1|e w1|]; auto.
  destruct (src item) as [s|l].
  - cbn [forEach]. unfold bind.
    destruct (copyItem _ _ _ _ _ _ _ _ _ w1) as [[] w2|e w2|]; reflexivity.
  - unfold bind.
    rewrite (forEach_ext l _
               (fun source =>
                  copyItem fuel source
                    (if default false (flatten item) then dest item
                     else Path.join (dest item) (Path.basename source))
                    (default 0 (depth item)) (default 0 (height item))
                    (default false (flatten item))
                    (default "overwrite" (conflictResolution item))
                    (default "none" (logLevel item)) 0)); [reflexivity|].
    intros x w0. now rewrite relative_dirname.
Qed.










End Isolation.










(* ================================================================== *)
(** ** Flatten (C1)                                                    *)
(* ================================================================== *)

(** Where [flatten] sends the entries of a directory: [copyItem] joins the
    entry name to the destination once in the loop over the entries and
    once more in the file branch. *)
Lemma flatten_entry_destination source destination item :
  effective true (Path.join source [item])
    (Path.join destination (Path.basename [item]))
  = destination ++ [item; item].
Proof.
  unfold effective, Path.join, Path.basename, Path.base.
  rewrite last_last. cbn [last]. rewrite <- app_assoc.
  now destruct (source ++ [item]) eqn:E; [destruct source; discriminate|].
Qed.

(** A source that is itself a file is flattened as documented. *)
Lemma flatten_file_destination source destination :
  source <> [] ->
  effective true source destination = destination ++ [Path.base source].
Proof. intros H. unfold effective, Path.join, Path.basename. now destruct source. Qed.

(** The same on every tree: flattening a directory that holds one regular
    file [item] into a destination where [item/item] is absent writes the
    file at [destination/item/item], below a directory named as the file. *)
Lemma flatten_nests_entry fuel source destination conflictResolution
    logLevel w item c :
  Fs.lookup source (fs w) = Done (Dir [(item, File c)]) ->
  Fs.lookup (destination ++ [item; item]) (fs w) = Fail ENOENT ->
  exists w',
    copyItem (S (S fuel)) source destination 0 0 true conflictResolution
             logLevel 0 w = Ret tt w'
    /\ Fs.readFile (destination ++ [item; item]) (fs w') = Some c
    /\ exists es, Fs.lookup (destination ++ [item]) (fs w') = Done (Dir es).
Proof.
  intros Hs Hd.
  assert (Hb : within_bounds 0 0 0) by (split; now left).
  rewrite (copyItem_dir _ _ _ _ _ _ _ _ _ _ _ Hs Hb).
  cbn [map fst List.length Nat.eqb andb negb when forEach].
  unfold bind at 1. cbn [ret]. unfold bind at 1.
  set (w2 := called (Readdir source) (called (Stat source) w)).
  destruct (plain_copy_step fuel (Path.join source [item])
              (Path.join destination (Path.basename [item])) 0 0 true
              conflictResolution logLevel (0 + 1) w2 c)
    as (w3 & t1 & Hrun & Hm & Hw).
  - unfold Path.join. cbn [fs w2 called]. rewrite lookup_snoc, Hs.
    cbn [Fs.get]. now rewrite String.eqb_refl.
  - rewrite flatten_entry_destination. exact Hd.
  - rewrite Hrun. cbn [ret]. exists w3. split; [reflexivity|].
    rewrite flatten_entry_destination in Hw.
    assert (Hr : Fs.readFile (destination ++ [item; item]) (fs w3) = Some c)
      by (eapply write_readFile_same; eauto).
    split; [exact Hr|].
    apply readFile_lookup in Hr.
    change (destination ++ [item; item])
      with (destination ++ [item] ++ [item]) in Hr.
    rewrite app_assoc in Hr. eapply lookup_parent; eauto.
Qed.

(** C1. Flattening the tree [a/ { x.txt, b/ { y.txt } }] into [out] does
    not put the files directly in [out]: [copy] returns, and [x.txt] ends
    up in a directory [out/x.txt], [y.txt] in a directory [out/b/y.txt];
    [out] holds two directories and no file. *)
Theorem flatten_keeps_nesting :
  exists w',
    copy 3 [flattenTask] None (world_of nestedTree) = Ret tt w'
    /\ Fs.readFile ["out"; "x.txt"; "x.txt"] (fs w') = Some "1"
    /\ Fs.readFile ["out"; "b"; "y.txt"; "y.txt"] (fs w') = Some "2"
    /\ Fs.readFile ["out"; "x.txt"] (fs w') = None
    /\ Fs.readFile ["out"; "y.txt"] (fs w') = None
    /\ Fs.lookup ["out"] (fs w')
       = Done (Dir [("x.txt", Dir [("x.txt", File "1")]);
                    ("b", Dir [("y.txt", Dir [("y.txt", File "2")])])])
    /\ calls w'
       = [Stat ["a"]; Readdir ["a"];
          Stat ["a"; "x.txt"]; Stat ["out"; "x.txt"; "x.txt"];
          Mkdir ["out"; "x.txt"];
          CopyFile ["a"; "x.txt"] ["out"; "x.txt"; "x.txt"];
          Stat ["a"; "b"]; Readdir ["a"; "b"];
          Stat ["a"; "b"; "y.txt"]; Stat ["out"; "b"; "y.txt"; "y.txt"];
          Mkdir ["out"; "b"; "y.txt"];
          CopyFile ["a"; "b"; "y.txt"] ["out"; "b"; "y.txt"; "y.txt"]].
Proof. eexists. split; [vm_compute; reflexivity|]. repeat split. Qed.

(* ================================================================== *)
(** ** Relations kept by every run                                     *)
(* ================================================================== *)

Section RunRel.

Variable P : world -> world -> Prop.
Hypothesis P_refl : forall w, P w w.
Hypothesis P_trans : forall a b c, P a b -> P b c -> P a c.

Lemma rel_ret {A} (a : A) : run_rel P (ret a).
Proof. intros w. apply P_refl. Qed.

Lemma rel_throw {A} e : run_rel P (@throw A e).
Proof. intros w. apply P_refl. Qed.

Lemma rel_bind {A B} (m : M A) (k : A -> M B) :
  run_rel P m -> (forall a, run_rel P (k a)) -> run_rel P (bind m k).
Proof.
  intros Hm Hk w. unfold bind. specialize (Hm w).
  destruct (m w) as [a w1|e w1|]; auto.
  specialize (Hk a w1). destruct (k a w1); eauto.
Qed.

Lemma rel_try_catch {A} (m : M A) (h : error -> M A) :
  run_rel P m -> (forall e, run_rel P (h e)) -> run_rel P (try_catch m h).
Proof.
  intros Hm Hh w. unfold try_catch. specialize (Hm w).
  destruct (m w) as [a w1|e w1|]; auto.
  specialize (Hh e w1). destruct (h e w1); eauto.
Qed.

Lemma rel_when b (m : M unit) : run_rel P m -> run_rel P (when b m).
Proof. destruct b; cbn; [auto | intros _; apply rel_ret]. Qed.

Lemma rel_forEach {A} (items : list A) (body : A -> M unit) :
  (forall x, In x items -> run_rel P (body x)) ->
  run_rel P (forEach items body).
Proof.
  induction items as [|x xs IH]; intros H; cbn [forEach].
  - apply rel_ret.
  - apply rel_bind; [apply H; now left|].
    intros _. apply IH. intros y Hy. apply H. now right.
Qed.

(** A query changes neither the tree nor the console. *)
Hypothesis P_called : forall c w, P w (called c w).

Lemma rel_query {A} c name p (r : node -> sys A) :
  run_rel P (syscall c name p (fun n => query (r n) n)).
Proof.
  intros w. unfold syscall. cbn [fs called].
  destruct (r (fs w)); cbn; exact (P_called c w).
Qed.

Lemma rel_stat p : run_rel P (fs_promises.stat p).
Proof. apply rel_query. Qed.

Lemma rel_access p : run_rel P (fs_promises.access p).
Proof. apply rel_query. Qed.

Lemma rel_readdir p : run_rel P (fs_promises.readdir p).
Proof. apply rel_query. Qed.

Lemma rel_uniqueLoop fuel : forall filePath uniquePath counter,
  run_rel P (uniqueLoop fuel filePath uniquePath counter).
Proof.
  induction fuel as [|fuel IH]; intros; cbn [uniqueLoop];
    [intros w; exact I|].
  apply rel_bind.
  - unfold uniqueStep. apply rel_try_catch.
    + apply rel_bind; [apply rel_access | intros; apply rel_ret].
    + intros; apply rel_ret.
  - intros [[u n]|]; [apply IH | apply rel_ret].
Qed.

Variables (flatten : bool) (conflictResolution logLevel : string).

Hypothesis P_mkdir : forall p, run_rel P (fs_promises.mkdir p).
Hypothesis P_error : forall s e w, P w (printed (ErrorCopying s e) w).
Hypothesis P_file : forall fuel source destination,
  run_rel P (copyFileItem fuel source destination flatten
                          conflictResolution logLevel).

Lemma rel_ensureDirectory destination :
  run_rel P (ensureDirectory destination).
Proof.
  unfold ensureDirectory. apply rel_try_catch.
  - apply rel_bind; [apply rel_stat|]. intros st.
    destruct (isFile st); [apply rel_throw | apply rel_ret].
  - intros e. destruct (is_ENOENT e); [apply P_mkdir | apply rel_throw].
Qed.

(** What the file branch, [mkdir] and the error line keep, the whole
    traversal keeps. *)
Lemma rel_copyItem fuel : forall source destination depth height
    currentDepth,
  run_rel P (copyItem fuel source destination depth height flatten
                      conflictResolution logLevel currentDepth).
Proof.
  induction fuel as [|fuel IH]; intros; cbn [copyItem];
    [intros w; exact I|].
  apply rel_try_catch.
  - apply rel_bind; [apply rel_stat|]. intros stats.
    destruct (isDirectory stats); [|apply P_file].
    destruct (_ && _); [apply rel_ret|].
    destruct (_ && _); [apply rel_ret|].
    apply rel_bind; [apply rel_readdir|]. intros items.
    destruct (_ && _); [apply rel_ret|].
    apply rel_bind; [apply rel_when, rel_ensureDirectory|].
    intros _. apply rel_forEach. intros item _. apply IH.
  - intros e w. cbn. apply P_error.
Qed.

End RunRel.

Section RunRelCopy.

Variable P : world -> world -> Prop.
Hypothesis P_refl : forall w, P w w.
Hypothesis P_trans : forall a b c, P a b -> P b c -> P a c.
Hypothesis P_called : forall c w, P w (called c w).
Hypothesis P_mkdir : forall p, run_rel P (fs_promises.mkdir p).
Hypothesis P_error : forall s e w, P w (printed (ErrorCopying s e) w).

(** A task keeps [P] when its file branch and its two optional console
    lines do. *)
Lemma rel_copyTask fuel item :
  (forall fuel source destination,
     run_rel P (copyFileItem fuel source destination
                  (default false (flatten item))
                  (default "overwrite" (conflictResolution item))
                  (default "none" (logLevel item)))) ->
  (forall s,
     run_rel P (when (String.eqb (default "none" (logLevel item)) "brief")
                     (console_log (Text s)))) ->
  run_rel P (copyTask fuel item).
Proof.
  intros Hfile Hbanner. unfold copyTask.
  apply (rel_bind P P_trans); [apply Hbanner|]. intros _.
  apply (rel_bind P P_trans); [|intros _; apply Hbanner].
  destruct (src item) as [s|l].
  - apply rel_copyItem; auto.
  - apply (rel_forEach P P_refl P_trans). intros s _.
    apply rel_copyItem; auto.
Qed.

Lemma rel_copy fuel cfg :
  (forall item, In item cfg ->
     (forall fuel source destination,
        run_rel P (copyFileItem fuel source destination
                     (default false (flatten item))
                     (default "overwrite" (conflictResolution item))
                     (default "none" (logLevel item))))
     /\ (forall s,
           run_rel P
             (when (String.eqb (default "none" (logLevel item)) "brief")
                   (console_log (Text s))))) ->
  run_rel P (copy fuel cfg None).
Proof.
  intros H. unfold copy.
  apply (rel_bind P P_trans); [|intros _; apply (rel_ret P P_refl)].
  apply (rel_forEach P P_refl P_trans). intros item Hin.
  destruct (H item Hin). now apply rel_copyTask.
Qed.

End RunRelCopy.

(* ================================================================== *)
(** ** Nothing is removed                                              *)
(* ================================================================== *)

Section TreeRel.

(** A relation on trees kept by [mkdir -p] and by [copyFile] is kept by
    every run of [copy]. *)
Variable R : node -> node -> Prop.
Hypothesis R_refl : forall t, R t t.
Hypothesis R_trans : forall a b c, R a b -> R b c -> R a c.
Hypothesis R_mkdirp : forall p t t', Fs.mkdirp p t = Done t' -> R t t'.
Hypothesis R_copyFile : forall s d t t',
  Fs.copyFile s d t = Done t' -> R t t'.

Let P (w w' : world) : Prop := R (fs w) (fs w').

Lemma tree_called c w : P w (called c w).
Proof. apply R_refl. Qed.

Lemma tree_mkdir p : run_rel P (fs_promises.mkdir p).
Proof.
  intros w. unfold fs_promises.mkdir, syscall. cbn [fs called].
  destruct (Fs.mkdirp p (fs w)) eqn:E; cbn; unfold P; cbn;
    [eapply R_mkdirp; eauto | apply R_refl].
Qed.

Lemma tree_copyFile s d : run_rel P (fs_promises.copyFile s d).
Proof.
  intros w. unfold fs_promises.copyFile, syscall. cbn [fs called].
  destruct (Fs.copyFile s d (fs w)) eqn:E; cbn; unfold P; cbn;
    [eapply R_copyFile; eauto | apply R_refl].
Qed.

Lemma tree_console l : run_rel P (console_log l).
Proof. intros w. apply R_refl. Qed.

Lemma tree_report logLevel label op a b s d :
  run_rel P (report logLevel label op a b s d).
Proof.
  intros w. destruct (report_run logLevel label op a b s d w) as (l & -> & _).
  apply R_refl.
Qed.

Lemma tree_copyFileItem fuel source destination flatten conflictResolution
    logLevel :
  run_rel P (copyFileItem fuel source destination flatten
                          conflictResolution logLevel).
Proof.
  assert (Hr : forall w, P w w) by (intros; apply R_refl).
  assert (Ht : forall a b c, P a b -> P b c -> P a c)
    by (unfold P; eauto).
  unfold copyFileItem. apply (rel_try_catch P Ht).
  - apply (rel_bind P Ht); [apply (rel_stat P tree_called)|].
    intros st. destruct (isDirectory st); [apply (rel_throw P Hr)|].
    destruct (String.eqb conflictResolution "overwrite").
    { apply (rel_bind P Ht); [apply tree_copyFile|].
      intros; apply tree_report. }
    destruct (String.eqb conflictResolution "skip"); [apply tree_report|].
    destruct (String.eqb conflictResolution "rename");
      [|apply (rel_throw P Hr)].
    apply (rel_bind P Ht); [apply (rel_uniqueLoop P Hr Ht tree_called)|].
    intros u. apply (rel_bind P Ht); [apply tree_copyFile|].
    intros; apply tree_report.
  - intros e. destruct (is_ENOENT e); [|apply (rel_throw P Hr)].
    apply (rel_bind P Ht); [apply tree_mkdir|]. intros _.
    apply (rel_bind P Ht); [apply tree_copyFile|].
    intros; apply tree_report.
Qed.

Lemma tree_copy fuel cfg w w' :
  copy fuel cfg None w = Ret tt w' -> R (fs w) (fs w').
Proof.
  intros Hrun.
  pose proof (rel_copy P (fun w => R_refl (fs w))
                (fun a b c => R_trans (fs a) (fs b) (fs c))
                tree_called tree_mkdir (fun s e w => R_refl (fs w))
                fuel cfg) as H.
  specialize (fun Hk => H Hk w). rewrite Hrun in H. apply H.
  intros item _. split.
  - intros. apply tree_copyFileItem.
  - intros l. apply (rel_when P (fun w => R_refl (fs w))).
    apply tree_console.
Qed.

End TreeRel.

Section Kinds.

Lemma kind_at_cons s q es :
  kind_at (s :: q) (Dir es)
  = match Fs.get s es with Some c => kind_at q c | None => None end.
Proof. unfold kind_at. cbn. now destruct (Fs.get s es). Qed.

Lemma mkdirp_kind p : forall t t' q k,
  Fs.mkdirp p t = Done t' -> kind_at q t = Some k -> kind_at q t' = Some k.
Proof.
  induction p as [|s p IH]; intros t t' q k H Hk; cbn in H.
  - destruct t; inversion H; subst; assumption.
  - destruct t as [|es]; [discriminate|].
    destruct (Fs.get s es) as [c|] eqn:G.
    + destruct (Fs.mkdirp p c) as [c'|] eqn:Hc; inversion H; subst t'.
      destruct q as [|j q]; [exact Hk|].
      rewrite kind_at_cons in *.
      destruct (String.eqb_spec j s) as [->|Hne].
      * rewrite get_set_same, G. rewrite G in Hk. eapply IH; eauto.
      * now rewrite get_set_other.
    + inversion H; subst t'.
      destruct q as [|j q]; [exact Hk|].
      rewrite kind_at_cons in *. rewrite get_app.
      destruct (Fs.get j es); [exact Hk | discriminate].
Qed.

Lemma write_kind p : forall c t t' q k,
  Fs.write p c t = Done t' -> kind_at q t = Some k -> kind_at q t' = Some k.
Proof.
  induction p as [|s p IH]; intros c t t' q k H Hk; cbn in H.
  - destruct t; inversion H; subst.
    destruct q; [exact Hk | discriminate].
  - destruct t as [|es]; [discriminate|].
    destruct (Fs.get s es) as [ch|] eqn:G.
    + destruct (Fs.write p c ch) as [ch'|] eqn:Hc; inversion H; subst t'.
      destruct q as [|j q]; [exact Hk|].
      rewrite kind_at_cons in *.
      destruct (String.eqb_spec j s) as [->|Hne].
      * rewrite get_set_same, G. rewrite G in Hk. eapply IH; eauto.
      * now rewrite get_set_other.
    + destruct p; inversion H; subst t'.
      destruct q as [|j q]; [exact Hk|].
      rewrite kind_at_cons in *. rewrite get_app.
      destruct (Fs.get j es); [exact Hk | discriminate].
Qed.

End Kinds.

(** X1. [copy] only adds: whatever the tasks, the policies and the
    failures, a path that held a file still holds a file when [copy]
    returns, and a path that held a directory still holds a directory.
    Nothing is removed and no entry changes kind. *)
Theorem copy_never_removes fuel cfg w w' q k :
  copy fuel cfg None w = Ret tt w' ->
  kind_at q (fs w) = Some k ->
  kind_at q (fs w') = Some k.
Proof.
  intros Hrun.
  revert q k.
  apply (tree_copy
           (fun t t' => forall q k, kind_at q t = Some k ->
                                    kind_at q t' = Some k)) with (fuel := fuel) (cfg := cfg);
    auto.
  - intros p t t' H q k. eapply mkdirp_kind; eauto.
  - intros s d t t' H q k. unfold Fs.copyFile in H.
    destruct (Fs.lookup s t) as [[c|]|]; try discriminate.
    eapply write_kind; eauto.
Qed.

(** Two tasks on a tree with a file [out] and a directory [dist]: both
    are still what they were. *)
Lemma copy_never_removes_witness :
  exists w',
    copy 3 mixedTasks None (world_of kindTree) = Ret tt w'
    /\ kind_at ["out"] (fs (world_of kindTree)) = Some true
    /\ kind_at ["out"] (fs w') = Some true.
Proof.
  eexists. split; [vm_compute; reflexivity|]. split; [reflexivity|].
  apply (copy_never_removes 3 mixedTasks (world_of kindTree));
    [vm_compute; reflexivity | reflexivity].
Defined.

(* ================================================================== *)
(** ** Only [overwrite] changes a file                                 *)
(* ================================================================== *)

Section NoClobber.

(** Every file is still there, with its content. *)
Let P (w w' : world) : Prop :=
  forall q c, Fs.readFile q (fs w) = Some c -> Fs.readFile q (fs w') = Some c.

Lemma keep_refl w : P w w.
Proof. intros q c H. exact H. Qed.

Lemma keep_trans a b c : P a b -> P b c -> P a c.
Proof. intros H1 H2 q x H. apply H2, H1, H. Qed.

Lemma keep_same w w' : fs w' = fs w -> P w w'.
Proof. intros E q c H. now rewrite E. Qed.

Lemma keep_called c w : P w (called c w).
Proof. now apply keep_same. Qed.

Lemma keep_mkdir p : run_rel P (fs_promises.mkdir p).
Proof.
  intros w. unfold fs_promises.mkdir, syscall. cbn [fs called].
  destruct (Fs.mkdirp p (fs w)) eqn:E; cbn; [|now apply keep_same].
  intros q c H. cbn. now rewrite (mkdirp_readFile _ _ _ _ E).
Qed.

Lemma keep_report logLevel label op a b s d : run_rel P (report logLevel label op a b s d).
Proof.
  intros w. destruct (report_run logLevel label op a b s d w) as (l & -> & _).
  now apply keep_same.
Qed.

(** A copy to a path that holds no file changes no file. *)
Lemma keep_copyFile_absent s d w :
  Fs.readFile d (fs w) = None ->
  match fs_promises.copyFile s d w with
  | Ret _ w' => P w w'
  | Throw _ w' => fs w' = fs w
  | OutOfFuel => True
  end.
Proof.
  intros Habs. unfold fs_promises.copyFile, syscall. cbn [fs called].
  destruct (Fs.copyFile s d (fs w)) eqn:E; cbn; [|reflexivity].
  unfold Fs.copyFile in E.
  destruct (Fs.lookup s (fs w)) as [[x|]|]; try discriminate.
  intros q c H. cbn.
  rewrite (write_readFile_other _ _ _ _ q E); [exact H|].
  intros ->. congruence.
Qed.

(** The [catch] of the file branch, reached after [stat] found no file at
    the destination. *)
Lemma keep_handler source destPath logLevel w :
  Fs.readFile destPath (fs w) = None ->
  match
    (fs_promises.mkdir (Path.dirname destPath) ;;
     fs_promises.copyFile source destPath ;;
     report logLevel "Copied" "copy" source (Some destPath)
            source (Some destPath))%async w
  with
  | Ret _ w' => P w w'
  | Throw _ w' => P w w'
  | OutOfFuel => True
  end.
Proof.
  intros Habs. unfold bind at 1.
  pose proof (keep_mkdir (Path.dirname destPath) w) as Hm.
  destruct (fs_promises.mkdir (Path.dirname destPath) w)
    as [[] w1|e w1|] eqn:Em; auto.
  assert (Habs1 : Fs.readFile destPath (fs w1) = None).
  { unfold fs_promises.mkdir, syscall in Em. cbn [fs called] in Em.
    destruct (Fs.mkdirp _ (fs w)) eqn:E; cbn in Em; inversion Em; subst.
    cbn. now rewrite (mkdirp_readFile _ _ _ _ E). }
  unfold bind.
  pose proof (keep_copyFile_absent source destPath w1 Habs1) as Hc.
  destruct (fs_promises.copyFile source destPath w1) as [[] w2|e w2|]; auto.
  - pose proof (keep_report logLevel "Copied" "copy" source (Some destPath)
                  source (Some destPath) w2) as Hr.
    destruct (report _ _ _ _ _ _ _ w2); auto;
      eapply keep_trans; eauto; eapply keep_trans; eauto.
  - eapply keep_trans; [exact Hm | now apply keep_same].
Qed.

(** The loop of [getUniqueFileName] changes nothing and returns a path at
    which nothing is found. *)
Lemma uniqueLoop_free fuel : forall filePath uniquePath counter w,
  match uniqueLoop fuel filePath uniquePath counter w with
  | Ret u w' => fs w' = fs w /\ exists e, Fs.lookup u (fs w) = Fail e
  | Throw _ _ => False
  | OutOfFuel => True
  end.
Proof.
  induction fuel as [|fuel IH]; intros; cbn [uniqueLoop]; [exact I|].
  unfold bind at 1. unfold uniqueStep, try_catch. unfold bind at 1.
  destruct (Fs.lookup uniquePath (fs w)) as [n|e] eqn:E.
  - rewrite (access_Done _ _ _ E). cbn [ret].
    match goal with |- context [uniqueLoop fuel ?a ?b ?c ?w0] =>
      specialize (IH a b c w0); destruct (uniqueLoop fuel a b c w0)
    end; auto.
  - rewrite (access_Fail _ _ _ E). cbn [ret].
    split; [reflexivity | eauto].
Qed.

Lemma write_not_ENOENT dir : forall nm c t es,
  Fs.lookup dir t = Done (Dir es) ->
  Fs.write (dir ++ [nm]) c t <> Fail ENOENT.
Proof.
  induction dir as [|s dir IH]; intros nm c t es H; cbn in H.
  - inversion H; subst. cbn.
    destruct (Fs.get nm es) as [[|]|]; cbn; discriminate.
  - destruct t as [|es']; [discriminate|].
    change ((s :: dir) ++ [nm]) with (s :: (dir ++ [nm])). cbn [Fs.write].
    destruct (Fs.get s es') as [ch|]; [|discriminate H].
    specialize (IH nm c ch es H).
    destruct (Fs.write (dir ++ [nm]) c ch) as [|[]];
      congruence || discriminate.
Qed.

(** The file branch under every policy but [overwrite]. *)
Lemma keep_copyFileItem fuel source destination flatten conflictResolution
    logLevel :
  conflictResolution <> "overwrite" ->
  run_rel P (copyFileItem fuel source destination flatten
                          conflictResolution logLevel).
Proof.
  intros Hpol w. unfold copyFileItem.
  fold (effective flatten source destination).
  set (destPath := effective flatten source destination).
  apply String.eqb_neq in Hpol. rewrite Hpol.
  unfold try_catch. unfold bind at 1.
  unfold fs_promises.stat, syscall. cbn [fs called].
  set (w1 := called (Stat destPath) w).
  assert (H1 : P w w1) by apply keep_called.
  destruct (Fs.lookup destPath (fs w)) as [n|e] eqn:Hd; cbn [query].
  - change (with_fs (fs w) w1) with w1.
    destruct n as [c0|es0]; cbn [stats_of isDirectory];
      [|cbn; exact H1].
    destruct (String.eqb conflictResolution "skip").
    { destruct (report_run logLevel "Skipped" "skip" destPath None
                    source None w1) as (l & -> & _).
      eapply keep_trans; [exact H1 | now apply keep_same]. }
    destruct (String.eqb conflictResolution "rename");
      [|cbn; exact H1].
    unfold bind at 1. unfold getUniqueFileName.
    pose proof (uniqueLoop_free fuel destPath destPath 1 w1) as Hfree.
    pose proof (inv_uniqueLoop (fun _ => True) fuel destPath destPath 0
                  (fun _ => I) w1) as Hshape.
    destruct (uniqueLoop fuel destPath destPath 1 w1) as [u w2|e w2|];
      [|contradiction|exact I].
    destruct Hfree as [Hfs [e He]]. destruct Hshape as [_ Hu].
    cbn [fs w1 called] in He.
    assert (Habs : Fs.readFile u (fs w2) = None).
    { rewrite Hfs. cbn [fs w1 called]. unfold Fs.readFile. now rewrite He. }
    assert (H2 : P w w2) by (apply keep_same; now rewrite Hfs).
    unfold bind at 1.
    pose proof (keep_copyFile_absent source u w2 Habs) as Hc.
    destruct (fs_promises.copyFile source u w2) as [[] w3|e3 w3|] eqn:Ec;
      [| |exact I].
    + destruct (report_run logLevel "Renamed" "rename" source (Some u)
                    source (Some u) w3) as (l & -> & _).
      eapply keep_trans; [exact H2|].
      eapply keep_trans; [exact Hc | now apply keep_same].
    + (* the copy failed: not with ENOENT while the source is a file *)
      assert (H3 : P w w3) by (apply keep_same; now rewrite Hc, Hfs).
      destruct (is_ENOENT e3) eqn:Hen; [|cbn; exact H3].
      unfold fs_promises.copyFile, syscall in Ec. cbn [fs called] in Ec.
      destruct (Fs.copyFile source u (fs w2)) as [|code] eqn:Ecp;
        cbn in Ec; [discriminate|]. inversion Ec; subst e3 w3.
      cbn in Hen. destruct code; try discriminate.
      unfold Fs.copyFile in Ecp. rewrite Hfs in Ecp. cbn [fs w1 called] in Ecp.
      destruct (Fs.lookup source (fs w)) as [[c|]|e0] eqn:Hs;
        try discriminate.
      * exfalso. destruct Hu as [->|[k ->]]; [congruence|].
        rewrite candidate_S in Ecp.
        destruct destPath as [|b d] using rev_ind.
        -- cbn in Hd. inversion Hd; subst. rewrite H0 in Ecp.
           cbn in Ecp. discriminate.
        -- unfold Path.dirname in Ecp. rewrite removelast_last in Ecp.
           destruct (lookup_parent _ _ _ _ Hd) as [es Hes].
           eapply write_not_ENOENT; eauto.
      * (* the source is missing: the second copy fails as well *)
        unfold bind at 1.
        set (w3 := called (CopyFile source u) w2) in *.
        pose proof (keep_mkdir (Path.dirname destPath) w3) as Hm.
        destruct (fs_promises.mkdir (Path.dirname destPath) w3)
          as [[] w4|e4 w4|] eqn:Em; [| |exact I].
        2:{ eapply keep_trans; eauto. }
        assert (Hs4 : Fs.readFile source (fs w4) = None).
        { unfold fs_promises.mkdir, syscall in Em. cbn [fs called] in Em.
          destruct (Fs.mkdirp _ (fs w3)) eqn:E; cbn in Em; inversion Em; subst.
          cbn. rewrite (mkdirp_readFile _ _ _ _ E). cbn [fs w3 called].
          rewrite Hfs. cbn [fs w1 called]. unfold Fs.readFile.
          now rewrite Hs. }
        unfold bind, fs_promises.copyFile, syscall. cbn [fs called].
        unfold Fs.copyFile. unfold Fs.readFile in Hs4.
        destruct (Fs.lookup source (fs w4)) as [[c|]|]; try discriminate;
          cbn; eapply keep_trans; eauto; eapply keep_trans; eauto;
          now apply keep_same.
  - assert (Habs : Fs.readFile destPath (fs w1) = None)
      by (cbn [fs w1 called]; unfold Fs.readFile; now rewrite Hd).
    cbn [is_ENOENT code].
    destruct (errno_eqb e ENOENT); [|cbn; exact H1].
    pose proof (keep_handler source destPath logLevel w1 Habs) as Hh.
    match goal with |- match ?r with _ => _ end =>
      destruct r; auto; eapply keep_trans; eauto
    end.
Qed.

Lemma keep_copy fuel cfg :
  (forall item, In item cfg ->
     default "overwrite" (conflictResolution item) <> "overwrite") ->
  run_rel P (copy fuel cfg None).
Proof.
  intros H. apply (rel_copy P keep_refl keep_trans keep_called keep_mkdir).
  - intros s e w. now apply keep_same.
  - intros item Hin. split.
    + intros. apply keep_copyFileItem. auto.
    + intros l. apply (rel_when P keep_refl). intros w. now apply keep_same.
Qed.

End NoClobber.

(** X2. Only the [overwrite] policy changes a file: when no task of the
    configuration resolves conflicts by [overwrite] (which is also the
    default), every file of the tree still has its content when [copy]
    returns, whatever was copied, renamed, skipped or failed. *)
Theorem copy_keeps_files fuel cfg w w' q c :
  (forall item, In item cfg ->
     default "overwrite" (conflictResolution item) <> "overwrite") ->
  copy fuel cfg None w = Ret tt w' ->
  Fs.readFile q (fs w) = Some c ->
  Fs.readFile q (fs w') = Some c.
Proof.
  intros Hpol Hrun. pose proof (keep_copy fuel cfg Hpol w) as H.
  rewrite Hrun in H. apply H.
Qed.

(** [file1.txt] copied with [rename] into [out/], which has a
    [file1.txt]: the old file keeps its content. *)
Lemma copy_keeps_files_witness :
  exists w',
    (forall item, In item [renameTask ["file1.txt"] ["out"] None] ->
       default "overwrite" (conflictResolution item) <> "overwrite")
    /\ copy 3 [renameTask ["file1.txt"] ["out"] None] None
            (world_of conflictTree) = Ret tt w'
    /\ Fs.readFile ["out"; "file1.txt"] (fs (world_of conflictTree))
       = Some "old"
    /\ Fs.readFile ["out"; "file1.txt"] (fs w') = Some "old"
    /\ Fs.readFile ["out"; "file1_1.txt"] (fs w') = Some "new".
Proof.
  assert (Hpol : forall item, In item [renameTask ["file1.txt"] ["out"] None] ->
                 default "overwrite" (conflictResolution item) <> "overwrite").
  { intros item [<-|[]]. discriminate. }
  eexists. split; [exact Hpol|].
  split; [vm_compute; reflexivity|]. split; [reflexivity|].
  split; [|reflexivity].
  apply (copy_keeps_files 3 [renameTask ["file1.txt"] ["out"] None]
           (world_of conflictTree));
    [exact Hpol | vm_compute; reflexivity | reflexivity].
Defined.

(* ================================================================== *)
(** ** The file branch on an existing file                             *)
(* ================================================================== *)

Section ExistingFile.

Lemma write_existing p : forall c t cd,
  Fs.lookup p t = Done (File cd) -> exists t', Fs.write p c t = Done t'.
Proof.
  induction p as [|s p IH]; intros c t cd H; cbn in H.
  - inversion H; subst. cbn. eauto.
  - destruct t as [|es]; [discriminate|]. cbn [Fs.write].
    destruct (Fs.get s es) as [ch|]; [|discriminate].
    destruct (IH c ch cd H) as [t' ->]. eauto.
Qed.

End ExistingFile.

(** X3. Under the [overwrite] policy, a file whose effective destination
    is an existing file replaces it: [copyItem] returns, the destination
    then reads as the source, every other file reads as before, the calls
    are the two [stat] and one [copyFile], and no error is reported. *)
Theorem overwrite_replaces_content
    fuel source destination depth height flatten logLevel currentDepth
    w cs cd :
  Fs.lookup source (fs w) = Done (File cs) ->
  Fs.lookup (effective flatten source destination) (fs w)
    = Done (File cd) ->
  exists w',
    copyItem (S fuel) source destination depth height flatten
             "overwrite" logLevel currentDepth w = Ret tt w'
    /\ Fs.readFile (effective flatten source destination) (fs w') = Some cs
    /\ (forall q, q <> effective flatten source destination ->
                  Fs.readFile q (fs w') = Fs.readFile q (fs w))
    /\ calls w' = calls w
                  ++ [Stat source; Stat (effective flatten source destination);
                      CopyFile source (effective flatten source destination)]
    /\ exists lines,
         console w' = console w ++ lines
         /\ Forall (fun l =>
              l = Verbose "Overwritten"
                    (effective flatten source destination) None
              \/ l = Brief "overwrite" source
                       (Some (effective flatten source destination))) lines.
Proof.
  intros Hs Hd.
  destruct (write_existing _ cs _ _ Hd) as [t' Hw].
  cbn [copyItem]. unfold try_catch at 1. unfold bind at 1.
  rewrite (stat_Done _ _ _ Hs). cbn [stats_of isDirectory].
  unfold copyFileItem. fold (effective flatten source destination).
  unfold try_catch, bind.
  rewrite (stat_Done _ (called (Stat source) w) (File cd)) by exact Hd.
  cbn [stats_of isDirectory String.eqb Ascii.eqb Bool.eqb].
  rewrite (copyFile_Done _ _ _ t').
  2:{ unfold Fs.copyFile. cbn [fs called]. now rewrite Hs. }
  match goal with |- context [report ?a ?b ?c ?d ?e ?f ?g ?w0] =>
    destruct (report_run a b c d e f g w0) as (lines & Hrun & Hlines)
  end.
  rewrite Hrun. eexists. split; [reflexivity|].
  cbn [fs calls console called with_fs]. repeat split.
  - eapply write_readFile_same; eauto.
  - intros q Hq. eapply write_readFile_other; eauto.
  - now rewrite <- !app_assoc.
  - exists lines. split; [reflexivity | exact Hlines].
Qed.

(** X4. Under [flatten], a directory without entries leaves no trace:
    whatever the bounds and the destination, [copyItem] returns with the
    tree and the console as they were, having made only queries. *)
Theorem flatten_ignores_empty_directory
    fuel source destination depth height conflictResolution logLevel
    currentDepth w :
  Fs.lookup source (fs w) = Done (Dir []) ->
  exists w',
    copyItem (S fuel) source destination depth height true
             conflictResolution logLevel currentDepth w = Ret tt w'
    /\ fs w' = fs w
    /\ console w' = console w
    /\ exists new, calls w' = calls w ++ new /\ Forall is_query new.
Proof.
  intros Hs.
  cbn [copyItem]. unfold try_catch at 1. unfold bind at 1.
  rewrite (stat_Done _ _ _ Hs). cbn [stats_of isDirectory].
  destruct ((0 <? depth) && (depth <=? currentDepth)).
  { eexists. split; [reflexivity|]. cbn. repeat split.
    exists [Stat source]. split; [reflexivity|]. repeat constructor. }
  destruct ((0 <? height) && (height <=? currentDepth)).
  { eexists. split; [reflexivity|]. cbn. repeat split.
    exists [Stat source]. split; [reflexivity|]. repeat constructor. }
  unfold bind.
  rewrite (readdir_Done _ (called (Stat source) w) []) by exact Hs.
  cbn. eexists. split; [reflexivity|]. cbn. repeat split.
  exists [Stat source; Readdir source].
  split; [now rewrite <- app_assoc | repeat constructor].
Qed.

(* ================================================================== *)
(** ** What is printed at which log level                              *)
(* ================================================================== *)

Section ConsoleRel.

Variable Q : line -> Prop.

(** Lines satisfying [Q] were printed, and nothing else. *)
Let P (w w' : world) : Prop :=
  exists new, console w' = console w ++ new /\ Forall Q new.

Lemma log_same w w' : console w' = console w -> P w w'.
Proof. intros E. exists []. now rewrite app_nil_r. Qed.

Lemma log_refl w : P w w.
Proof. now apply log_same. Qed.

Lemma log_trans a b c : P a b -> P b c -> P a c.
Proof.
  intros (n1 & E1 & F1) (n2 & E2 & F2). exists (n1 ++ n2). split.
  - now rewrite E2, E1, app_assoc.
  - apply Forall_app. now split.
Qed.

Lemma log_called c w : P w (called c w).
Proof. now apply log_same. Qed.

Lemma log_syscall {A} c name p (f : node -> sys (A * node)) :
  run_rel P (syscall c name p f).
Proof.
  intros w. unfold syscall. destruct (f (fs (called c w))) as [[a n]|e];
    now apply log_same.
Qed.

Lemma log_print l : Q l -> run_rel P (console_log l).
Proof.
  intros H w. cbn. exists [l]. split; [reflexivity | now constructor].
Qed.

Lemma log_report logLevel label op a b s d :
  (forall l, line_at_level logLevel l -> Q l) ->
  run_rel P (report logLevel label op a b s d).
Proof.
  intros H. unfold report.
  apply (rel_bind P log_trans); [|intros _].
  - destruct (String.eqb_spec logLevel "verbose") as [E|E]; cbn [when].
    + apply log_print, H. exact E.
    + apply (rel_ret P log_refl).
  - destruct (String.eqb_spec logLevel "brief") as [E|E]; cbn [when].
    + apply log_print, H. exact E.
    + apply (rel_ret P log_refl).
Qed.

Lemma log_copyFileItem fuel source destination flatten conflictResolution
    logLevel :
  (forall l, line_at_level logLevel l -> Q l) ->
  run_rel P (copyFileItem fuel source destination flatten
                          conflictResolution logLevel).
Proof.
  intros H. unfold copyFileItem. apply (rel_try_catch P log_trans).
  - apply (rel_bind P log_trans); [apply log_syscall|].
    intros st. destruct (isDirectory st); [apply (rel_throw P log_refl)|].
    destruct (String.eqb conflictResolution "overwrite").
    { apply (rel_bind P log_trans); [apply log_syscall|].
      intros; now apply log_report. }
    destruct (String.eqb conflictResolution "skip");
      [now apply log_report|].
    destruct (String.eqb conflictResolution "rename");
      [|apply (rel_throw P log_refl)].
    apply (rel_bind P log_trans);
      [apply (rel_uniqueLoop P log_refl log_trans log_called)|].
    intros u. apply (rel_bind P log_trans); [apply log_syscall|].
    intros; now apply log_report.
  - intros e. destruct (is_ENOENT e); [|apply (rel_throw P log_refl)].
    apply (rel_bind P log_trans); [apply log_syscall|]. intros _.
    apply (rel_bind P log_trans); [apply log_syscall|].
    intros; now apply log_report.
Qed.

Lemma log_copy fuel cfg :
  (forall s e, Q (ErrorCopying s e)) ->
  (forall item l, In item cfg ->
     line_at_level (default "none" (logLevel item)) l -> Q l) ->
  run_rel P (copy fuel cfg None).
Proof.
  intros He H.
  apply (rel_copy P log_refl log_trans log_called).
  - intros p. apply log_syscall.
  - intros s e w. cbn. exists [ErrorCopying s e].
    split; [reflexivity|]. constructor; [apply He | constructor].
  - intros item Hin. split.
    + intros. apply log_copyFileItem. intros l. now apply H.
    + intros l. destruct (String.eqb_spec
                            (default "none" (logLevel item)) "brief")
        as [E|E]; cbn [when].
      * apply log_print. apply (H item); [exact Hin | exact E].
      * apply (rel_ret P log_refl).
Qed.

End ConsoleRel.

(** X5. What [copy] prints follows the log levels: every line it adds to
    the console is an error line ([Error copying ...]) or a line of the
    log level of one of the tasks; a [Copied:]-style line needs a
    [verbose] task, a brief line or a task banner a [brief] task.  With
    [none], or any other level, only errors are printed. *)
Theorem copy_prints_by_level fuel cfg w w' :
  copy fuel cfg None w = Ret tt w' ->
  exists new,
    console w' = console w ++ new
    /\ Forall (fun l =>
         is_error_line l
         \/ exists item,
              In item cfg
              /\ line_at_level (default "none" (logLevel item)) l) new.
Proof.
  intros Hrun.
  pose proof (log_copy
    (fun l => is_error_line l
              \/ exists item,
                   In item cfg
                   /\ line_at_level (default "none" (logLevel item)) l)
    fuel cfg) as H.
  specialize (fun H1 H2 => H H1 H2 w). rewrite Hrun in H. apply H.
  - intros s e. left. exact I.
  - intros item l Hin Hl. right. eauto.
Qed.

(* ================================================================== *)
(** ** Configurations compose                                          *)
(* ================================================================== *)

Section Composition.

Lemma forEach_app {A} (xs ys : list A) (f : A -> M unit) {B}
    (k : unit -> M B) w :
  bind (forEach (xs ++ ys) f) k w
  = bind (forEach xs f) (fun _ => bind (forEach ys f) k) w.
Proof.
  revert w. induction xs as [|x xs IH]; intros w.
  - reflexivity.
  - rewrite <- app_comm_cons. cbn [forEach].
    unfold bind at 1 2 3 4. destruct (f x w) as [[] w1|e w1|];
      [|reflexivity|reflexivity].
    apply IH.
Qed.

Lemma forEach_map {A B} (g : A -> B) (xs : list A) (f : B -> M unit) w :
  forEach (map g xs) f w = forEach xs (fun x => f (g x)) w.
Proof.
  revert w. induction xs as [|x xs IH]; intros w; cbn [map forEach].
  - reflexivity.
  - unfold bind. destruct (f (g x) w); auto.
Qed.

Lemma bind_ret_tt (m : M unit) w : bind m (fun _ => ret tt) w = m w.
Proof. unfold bind. now destruct (m w) as [[] ?| |]. Qed.

Lemma bind_ext {A B} (m m' : M A) (k k' : A -> M B) w :
  m w = m' w -> (forall a w1, k a w1 = k' a w1) ->
  bind m k w = bind m' k' w.
Proof. intros E H. unfold bind. rewrite E. destruct (m' w); auto. Qed.

(** A task without banners is the loop over its sources. *)
Lemma copyTask_quiet fuel item w :
  default "none" (logLevel item) <> "brief" ->
  copyTask fuel item w
  = forEach (sources_of item) (fun source =>
      copyItem fuel source (destination_of item source)
        (default 0 (depth item)) (default 0 (height item))
        (default false (flatten item))
        (default "overwrite" (conflictResolution item))
        (default "none" (logLevel item)) 0) w.
Proof.
  intros H. rewrite copyTask_loop. apply String.eqb_neq in H. rewrite H.
  cbn [when]. unfold bind at 1. cbn [ret]. apply bind_ret_tt.
Qed.

End Composition.

(** X6. Configurations compose: [copy] of two lists of tasks put end to
    end is [copy] of the first list followed by [copy] of the second, and
    the callback, if any, runs once, after the last task. *)
Theorem copy_app fuel c1 c2 done w :
  copy fuel (c1 ++ c2) done w
  = (copy fuel c1 None ;; copy fuel c2 done)%async w.
Proof.
  unfold copy. rewrite forEach_app.
  unfold bind at 1 3 4. destruct (forEach c1 (copyTask fuel) w)
    as [[] w1|e w1|]; reflexivity.
Qed.

(** X7. An array of sources is one task per source: when the log level is
    not [brief] (so that no banner is printed), a task whose [src] is an
    array behaves as the list of the tasks with the same options and one
    string source each, in the same order. *)
Theorem array_src_is_one_task_each fuel item l done w :
  default "none" (logLevel item) <> "brief" ->
  copy fuel [with_src item (Many l)] done w
  = copy fuel (map (fun s => with_src item (One s)) l) done w.
Proof.
  intros H. unfold copy. apply bind_ext; [|reflexivity].
  cbn [forEach]. rewrite bind_ret_tt, forEach_map.
  rewrite copyTask_quiet by exact H. cbn [sources_of with_src src].
  apply forEach_ext. intros s w1.
  rewrite copyTask_quiet by exact H. cbn [sources_of with_src src forEach].
  now rewrite bind_ret_tt.
Qed.

(* ================================================================== *)
(** ** Nothing is written outside the destinations                     *)
(* ================================================================== *)

Section Outside.

Variable q : path.

(** What is found at [q] is the same. *)
Let P (w w' : world) : Prop := Fs.lookup q (fs w') = Fs.lookup q (fs w).

Lemma outside_refl w : P w w.
Proof. reflexivity. Qed.

Lemma outside_trans a b c : P a b -> P b c -> P a c.
Proof. unfold P. congruence. Qed.

Lemma outside_copyItem fuel item s :
  s <> [] -> apart q (dest item) ->
  run_rel P (copyItem fuel s (destination_of item s)
               (default 0 (depth item)) (default 0 (height item))
               (default false (flatten item))
               (default "overwrite" (conflictResolution item))
               (default "none" (logLevel item)) 0).
Proof.
  intros Hs Hq w.
  match goal with |- match ?r with _ => _ end => destruct r as [[] w'|e w'|] eqn:E end.
  - apply copyItem_effect in E. rewrite (region_top item s Hs) in E.
    eapply effect_frame; eauto.
  - exfalso. eapply copyItem_never_throws; eauto.
  - exact I.
Qed.

Lemma outside_copyTask fuel item :
  (forall s, In s (sources_of item) -> s <> []) ->
  apart q (dest item) ->
  run_rel P (copyTask fuel item).
Proof.
  intros Hs Hq w. rewrite copyTask_loop. revert w.
  apply (rel_bind P outside_trans).
  { apply (rel_when P outside_refl). intros w. reflexivity. }
  intros _. apply (rel_bind P outside_trans).
  - apply (rel_forEach P outside_refl outside_trans). intros s Hin.
    apply outside_copyItem; auto.
  - intros _. apply (rel_when P outside_refl). intros w. reflexivity.
Qed.

Lemma outside_copy fuel cfg :
  (forall item s, In item cfg -> In s (sources_of item) -> s <> []) ->
  (forall item, In item cfg -> apart q (dest item)) ->
  run_rel P (copy fuel cfg None).
Proof.
  intros Hs Hq. unfold copy.
  apply (rel_bind P outside_trans); [|intros _; apply (rel_ret P outside_refl)].
  apply (rel_forEach P outside_refl outside_trans). intros item Hin.
  apply outside_copyTask; eauto.
Qed.

End Outside.

(** X8. [copy] writes only under the destinations of its tasks: a path
    that lies apart from every [dest] (neither inside it nor one of its
    ancestors) holds the same file or the same directory, with all that
    is below it, when [copy] returns.  In particular a source that lies
    apart from the destinations is never modified.  The sources and the
    destinations are resolved paths (no [.] or [..] segment, which could
    lead out of [dest]), and each source names an entry, not the root
    itself. *)
Theorem copy_writes_under_dest_only fuel cfg w w' q :
  (forall item, In item cfg -> resolved (dest item) = true) ->
  (forall item s, In item cfg -> In s (sources_of item) ->
     s <> [] /\ resolved s = true) ->
  (forall item, In item cfg -> apart q (dest item)) ->
  copy fuel cfg None w = Ret tt w' ->
  Fs.lookup q (fs w') = Fs.lookup q (fs w).
Proof.
  intros _ Hs Hq Hrun.
  assert (Hs' : forall item s, In item cfg -> In s (sources_of item) ->
                  s <> []) by (intros item s Hi Hin; apply (Hs item s Hi Hin)).
  pose proof (outside_copy q fuel cfg Hs' Hq w) as H.
  now rewrite Hrun in H.
Qed.

(* ================================================================== *)
(** ** A tree copied to a fresh destination                            *)
(* ================================================================== *)

Section Mirror.

Variables conflictResolution logLevel : string.

Lemma lookup_app p : forall r t,
  Fs.lookup (p ++ r) t
  = match Fs.lookup p t with
    | Done n => Fs.lookup r n
    | Fail e => Fail e
    end.
Proof.
  induction p as [|s p IH]; intros r t; [reflexivity|].
  rewrite <- app_comm_cons. cbn [Fs.lookup].
  destruct t as [|es]; [reflexivity|].
  destruct (Fs.get s es); [apply IH | reflexivity].
Qed.

Lemma observe_app p r t :
  observe (p ++ r) t
  = match Fs.lookup p t with
    | Done n => observe r n
    | Fail e => Fail e
    end.
Proof.
  unfold observe. rewrite lookup_app. now destruct (Fs.lookup p t).
Qed.

Lemma observe_same q t t' :
  Fs.lookup q t' = Fs.lookup q t -> observe q t' = observe q t.
Proof. unfold observe. now intros ->. Qed.

Lemma observe_Fail q t e : observe q t = Fail e <-> Fs.lookup q t = Fail e.
Proof.
  unfold observe. destruct (Fs.lookup q t) as [[|]|]; split; congruence.
Qed.

Lemma lookup_chain_self p : Fs.lookup p (Fs.chain p) = Done (Dir []).
Proof.
  induction p as [|s p IH]; [reflexivity|].
  cbn. now rewrite String.eqb_refl.
Qed.

Lemma mkdirp_creates p : forall t,
  Fs.lookup p t = Fail ENOENT ->
  exists t', Fs.mkdirp p t = Done t' /\ Fs.lookup p t' = Done (Dir []).
Proof.
  induction p as [|s p IH]; intros t H; cbn in H; [discriminate|].
  destruct t as [|es]; [discriminate|]. cbn [Fs.mkdirp].
  destruct (Fs.get s es) as [c|] eqn:G.
  - destruct (IH c H) as (t' & -> & L). eexists. split; [reflexivity|].
    cbn [Fs.lookup]. now rewrite get_set_same, G.
  - eexists. split; [reflexivity|].
    cbn [Fs.lookup]. rewrite get_app, G. cbn [Fs.get].
    rewrite String.eqb_refl. apply lookup_chain_self.
Qed.

Lemma wf_Dir es :
  wf (Dir es) <-> NoDup (map fst es) /\ Forall (fun e => wf (snd e)) es.
Proof.
  cbn [wf]. split; intros [H1 H2]; (split; [exact H1|]); clear H1.
  - induction es as [|[k c] es IH]; constructor; [apply H2 | apply IH, H2].
  - induction es as [|[k c] es IH]; [exact I|].
    inversion H2; subst. split; [assumption | now apply IH].
Qed.

Lemma get_NoDup es1 i c es2 :
  NoDup (map fst (es1 ++ (i, c) :: es2)) ->
  Fs.get i es1 = None /\ Fs.get i (es1 ++ (i, c) :: es2) = Some c.
Proof.
  intros H. assert (G : Fs.get i es1 = None).
  { destruct (Fs.get i es1) eqn:G; [|reflexivity].
    apply get_In in G. rewrite map_app in H. cbn in H.
    apply NoDup_remove_2 in H. exfalso. apply H.
    apply in_or_app. now left. }
  split; [exact G|]. rewrite get_app, G. cbn. now rewrite String.eqb_refl.
Qed.

Lemma apart_children source destination i :
  apart source destination ->
  apart (source ++ [i]) (destination ++ [i]).
Proof.
  intros H. apply apart_extend.
  apply (apart_deeper _ destination); [exact H | apply is_prefix_app].
Qed.

Lemma apart_sym p q : apart p q -> apart q p.
Proof. intros [H1 H2]. now split. Qed.

Lemma apart_child q destination i :
  apart q destination -> apart q (destination ++ [i]).
Proof.
  intros H. apply (apart_deeper _ destination); [exact H|].
  apply is_prefix_app.
Qed.

(** No line of [lines] is an error line. *)
Let quiet (w w' : world) : Prop :=
  exists new, console w' = console w ++ new
              /\ Forall (fun l => ~ is_error_line l) new.

Lemma quiet_same w w' : console w' = console w -> quiet w w'.
Proof. intros E. exists []. now rewrite app_nil_r. Qed.

Lemma quiet_trans a b c : quiet a b -> quiet b c -> quiet a c.
Proof.
  intros (n1 & E1 & F1) (n2 & E2 & F2). exists (n1 ++ n2). split.
  - now rewrite E2, E1, app_assoc.
  - apply Forall_app. now split.
Qed.

(** What a traversal from [source] to a fresh [destination] has to
    achieve, for the tree [n] found at [source]. *)
Let mirrored (n : node) (source destination : path) (currentDepth : nat)
    (fuel : nat) (w : world) : Prop :=
  exists w',
    copyItem fuel source destination 0 0 false conflictResolution logLevel
             currentDepth w = Ret tt w'
    /\ (forall rel, observe (destination ++ rel) (fs w') = observe rel n)
    /\ (forall q, apart q destination ->
                  Fs.lookup q (fs w') = Fs.lookup q (fs w))
    /\ quiet w w'.

Lemma mirror_file fuel c source destination currentDepth w :
  Fs.lookup source (fs w) = Done (File c) ->
  Fs.lookup destination (fs w) = Fail ENOENT ->
  mirrored (File c) source destination currentDepth (S fuel) w.
Proof.
  intros Hs Hd. unfold mirrored.
  rewrite (copyItem_file _ _ _ _ _ _ _ _ _ _ _ Hs).
  destruct (copyFileItem_absent (S fuel) source destination false
              conflictResolution logLevel (called (Stat source) w) c Hs Hd)
    as (t1 & t2 & lines & Hm & Hw & -> & Hlines).
  unfold effective in *. eexists. split; [reflexivity|].
  cbn [fs calls console called]. split; [|split].
  - intros rel. rewrite observe_app.
    pose proof (write_readFile_same _ _ _ _ Hw) as Hr.
    apply readFile_lookup in Hr. rewrite Hr.
    unfold observe. now destruct rel.
  - intros q Hq. rewrite (write_lookup _ _ _ _ q Hw Hq).
    apply (mkdirp_lookup _ _ _ q Hm).
    destruct Hq as [Hq _]. destruct destination as [|b d] using rev_ind;
      [destruct q; discriminate|].
    unfold Path.dirname. rewrite removelast_last.
    destruct (is_prefix q d) eqn:E; [|reflexivity].
    apply is_prefix_spec in E. destruct E as [r ->].
    rewrite <- app_assoc, is_prefix_app in Hq. discriminate.
  - exists lines. split; [reflexivity|].
    eapply Forall_impl; [|exact Hlines].
    intros l [->| ->]; exact (fun H => H).
Qed.

Lemma ensureDirectory_creates destination w t' :
  Fs.lookup destination (fs w) = Fail ENOENT ->
  Fs.mkdirp destination (fs w) = Done t' ->
  ensureDirectory destination w
  = Ret tt (with_fs t' (called (Mkdir destination)
                          (called (Stat destination) w))).
Proof.
  intros Hd Hm. unfold ensureDirectory, try_catch, bind.
  rewrite (stat_Fail _ _ _ Hd). cbn [is_ENOENT code errno_eqb].
  now rewrite (mkdir_Done _ _ t') by exact Hm.
Qed.

Lemma observe_Done q t x :
  observe q t = Done x -> exists n, Fs.lookup q t = Done n.
Proof.
  unfold observe. destruct (Fs.lookup q t) as [n|e]; [eauto | discriminate].
Qed.

(** One more entry mirrored. *)
Lemma mirror_step destination es1 i c t t' :
  Fs.get i es1 = None ->
  (forall rel, observe (destination ++ rel) t = observe rel (Dir es1)) ->
  (forall rel, observe ((destination ++ [i]) ++ rel) t' = observe rel c) ->
  (forall q, apart q (destination ++ [i]) ->
             Fs.lookup q t' = Fs.lookup q t) ->
  forall rel,
    observe (destination ++ rel) t' = observe rel (Dir (es1 ++ [(i, c)])).
Proof.
  intros G Hinv Hobs Hframe [|j r].
  - rewrite app_nil_r. pose proof (Hobs []) as H0. rewrite app_nil_r in H0.
    assert (exists n, Fs.lookup (destination ++ [i]) t' = Done n) as [n Hn].
    { destruct c; cbn in H0; eapply observe_Done; eauto. }
    destruct (lookup_parent _ _ _ _ Hn) as [es' He].
    unfold observe. now rewrite He.
  - destruct (String.eqb_spec j i) as [->|Hne].
    + change (i :: r) with ([i] ++ r) at 1. rewrite app_assoc, Hobs.
      unfold observe at 2. cbn [Fs.lookup]. rewrite get_app, G.
      cbn [Fs.get]. now rewrite String.eqb_refl.
    + rewrite (observe_same _ t).
      * rewrite Hinv. unfold observe. cbn [Fs.lookup]. rewrite get_app.
        destruct (Fs.get j es1); [reflexivity|]. cbn [Fs.get].
        apply String.eqb_neq in Hne. now rewrite Hne.
      * apply Hframe. change (j :: r) with ([j] ++ r).
        rewrite app_assoc. apply apart_extend. now apply siblings_apart.
Qed.

Lemma mirror_loop fuel source destination currentDepth es :
  (forall n s d cd w,
     Fs.height n < fuel -> wf n ->
     Fs.lookup s (fs w) = Done n ->
     Fs.lookup d (fs w) = Fail ENOENT ->
     apart s d ->
     mirrored n s d cd fuel w) ->
  wf (Dir es) -> Fs.height (Dir es) < S fuel ->
  apart source destination ->
  forall es2 es1 w,
    es = es1 ++ es2 ->
    Fs.lookup source (fs w) = Done (Dir es) ->
    (forall rel, observe (destination ++ rel) (fs w)
                 = observe rel (Dir es1)) ->
    exists w',
      forEach (map fst es2) (fun item =>
        copyItem fuel (Path.join source [item])
          (Path.join destination [item]) 0 0 false conflictResolution
          logLevel (currentDepth + 1)) w = Ret tt w'
      /\ (forall rel, observe (destination ++ rel) (fs w')
                      = observe rel (Dir es))
      /\ (forall q, apart q destination ->
                    Fs.lookup q (fs w') = Fs.lookup q (fs w))
      /\ quiet w w'.
Proof.
  intros IH Hwf Hh Hap.
  apply wf_Dir in Hwf. destruct Hwf as [Hnd Hall].
  induction es2 as [|[i c] es2 IHes]; intros es1 w Hes Hs Hinv.
  - rewrite app_nil_r in Hes. subst es1. exists w. cbn.
    repeat split; auto. now apply quiet_same.
  - pose proof Hnd as Hnd'. rewrite Hes in Hnd'.
    destruct (get_NoDup _ _ _ _ Hnd') as [G1 G]. rewrite <- Hes in G.
    assert (Hsi : Fs.lookup (source ++ [i]) (fs w) = Done c).
    { now rewrite lookup_snoc, Hs, G. }
    assert (Hdi : Fs.lookup (destination ++ [i]) (fs w) = Fail ENOENT).
    { apply observe_Fail. rewrite Hinv. unfold observe. cbn [Fs.lookup].
      now rewrite G1. }
    assert (Hc : wf c /\ Fs.height c < fuel).
    { split.
      - rewrite Forall_forall in Hall.
        apply (Hall (i, c)). rewrite Hes. apply in_or_app. right. now left.
      - pose proof (height_entry _ _ _ G). lia. }
    destruct Hc as [Hwc Hhc].
    destruct (IH c (source ++ [i]) (destination ++ [i]) (currentDepth + 1)
                w Hhc Hwc Hsi Hdi (apart_children _ _ i Hap))
      as (w1 & Hrun & Hobs & Hframe & Hq).
    destruct (IHes (es1 ++ [(i, c)]) w1) as (w' & Hrun' & Hobs' & Hframe' & Hq').
    + now rewrite <- app_assoc.
    + rewrite Hframe; [exact Hs|]. now apply apart_child.
    + eapply mirror_step; eauto.
    + exists w'. cbn [map fst forEach]. unfold bind. unfold Path.join in *.
      rewrite Hrun. split; [exact Hrun'|]. split; [exact Hobs'|]. split.
      * intros q Hq0. rewrite Hframe' by exact Hq0.
        apply Hframe. now apply apart_child.
      * eapply quiet_trans; eauto.
Qed.

(** The traversal of a tree [n] to a destination that does not exist. *)
Lemma mirror_copyItem fuel : forall n source destination currentDepth w,
  Fs.height n < fuel -> wf n ->
  Fs.lookup source (fs w) = Done n ->
  Fs.lookup destination (fs w) = Fail ENOENT ->
  apart source destination ->
  mirrored n source destination currentDepth fuel w.
Proof.
  induction fuel as [|fuel IH];
    intros n source destination currentDepth w Hh Hwf Hs Hd Hap; [lia|].
  destruct n as [c|es]; [now apply mirror_file|].
  unfold mirrored.
  rewrite (copyItem_dir _ _ _ _ _ _ _ _ _ _ es Hs)
    by (split; now left).
  rewrite andb_false_r. cbn [negb when]. unfold bind at 1.
  set (w0 := called (Readdir source) (called (Stat source) w)).
  destruct (mkdirp_creates destination (fs w) Hd) as (t' & Hm & Hl).
  rewrite (ensureDirectory_creates destination w0 t') by assumption.
  set (w1 := with_fs t' _).
  destruct (mirror_loop fuel source destination currentDepth es IH Hwf Hh
              Hap es [] w1 eq_refl) as (w' & Hrun & Hobs & Hframe & Hq).
  - cbn [fs w1 with_fs]. rewrite (mkdirp_lookup _ _ _ source Hm); [exact Hs|].
    apply Hap.
  - intros rel. rewrite observe_app. cbn [fs w1 with_fs]. now rewrite Hl.
  - exists w'. split.
    + cbv beta. now rewrite Hrun.
    + split; [exact Hobs|]. split.
      * intros q Hq0. rewrite Hframe by exact Hq0. cbn [fs w1 with_fs].
        apply (mkdirp_lookup _ _ _ q Hm). apply Hq0.
      * eapply quiet_trans; [|exact Hq]. now apply quiet_same.
Qed.

End Mirror.

(** X9. A task without [flatten] and without bounds reproduces its source
    at a destination that does not exist yet: for a source tree [n]
    (well formed, and lying apart from the destination), [copy] returns
    without reporting an error, and under [dest/basename(src)] every
    relative path then shows what it shows in [n]: a file with the same
    content, a directory, or the same error.  Nothing apart from that
    destination is changed.  The conflict policy and the log level play
    no part. *)
Theorem copy_mirrors_tree fuel item s n w :
  src item = One s ->
  default false (flatten item) = false ->
  default 0 (depth item) = 0 ->
  default 0 (height item) = 0 ->
  Fs.lookup s (fs w) = Done n ->
  wf n ->
  Fs.height n < fuel ->
  Fs.lookup (dest item ++ Path.basename s) (fs w) = Fail ENOENT ->
  apart s (dest item ++ Path.basename s) ->
  exists w',
    copy fuel [item] None w = Ret tt w'
    /\ (forall rel,
          observe ((dest item ++ Path.basename s) ++ rel) (fs w')
          = observe rel n)
    /\ (forall q, apart q (dest item ++ Path.basename s) ->
                  Fs.lookup q (fs w') = Fs.lookup q (fs w))
    /\ exists new,
         console w' = console w ++ new
         /\ Forall (fun l => ~ is_error_line l) new.
Proof.
  intros Hsrc Hfl Hde Hhe Hs Hwf Hh Hd Hap.
  unfold copy, copyTask. cbn [forEach]. rewrite Hsrc, Hfl, Hde, Hhe.
  unfold Path.join.
  destruct (String.eqb (default "none" (logLevel item)) "brief");
    cbn [when]; unfold bind, console_log, ret.
  - destruct (mirror_copyItem
                (default "overwrite" (conflictResolution item))
                (default "none" (logLevel item)) fuel n s
                (dest item ++ Path.basename s) 0
                (printed (Text "Starting copy task...") w) Hh Hwf Hs Hd Hap)
      as (w' & -> & Hobs & Hframe & new & Hc & Hnew).
    eexists. split; [reflexivity|]. cbn [fs printed console] in *.
    split; [exact Hobs|]. split; [exact Hframe|].
    exists ([Text "Starting copy task..."] ++ new
            ++ [Text "Copy task completed"]).
    split; [rewrite Hc; now rewrite <- !app_assoc|].
    repeat (apply Forall_app; split); auto;
      constructor; auto; exact (fun H => H).
  - destruct (mirror_copyItem
                (default "overwrite" (conflictResolution item))
                (default "none" (logLevel item)) fuel n s
                (dest item ++ Path.basename s) 0 w Hh Hwf Hs Hd Hap)
      as (w' & -> & Hobs & Hframe & new & Hc & Hnew).
    eexists. split; [reflexivity|].
    split; [exact Hobs|]. split; [exact Hframe|].
    exists new. now split.
Qed.

(* ================================================================== *)
(** ** [formatPath]                                                    *)
(* ================================================================== *)

Section FormatPath.

Lemma substring_length_le n : forall m s,
  String.length (substring m n s) <= n.
Proof.
  induction n as [|n IH]; intros m s.
  - revert m. induction s as [|c s IHs]; intros [|m]; cbn; auto.
  - revert m. induction s as [|c s IHs]; intros [|m]; cbn; auto; try lia.
    specialize (IH 0 s). lia.
Qed.

Lemma substring_all n : forall s,
  String.length s <= n -> substring 0 n s = s.
Proof.
  induction n as [|n IH]; intros [|c s] H; cbn in *; try reflexivity;
    try lia.
  rewrite IH; [reflexivity | lia].
Qed.

Lemma slice_last_suffix n f : forall pre,
  String.length f <= n ->
  exists pre', slice_last n (pre ++ f)%string = (pre' ++ f)%string.
Proof.
  unfold slice_last. induction pre as [|c pre IH]; intros H.
  - exists EmptyString. cbn [append].
    replace (String.length f - n) with 0 by lia. now apply substring_all.
  - cbn [append String.length].
    destruct (Nat.leb_spec (S (String.length (pre ++ f)%string)) n) as [L|L].
    + exists (String c pre).
      replace (S (String.length (pre ++ f)%string) - n) with 0 by lia.
      rewrite substring_all; [reflexivity | cbn; lia].
    + replace (S (String.length (pre ++ f)%string) - n)
        with (S (String.length (pre ++ f)%string - n)) by lia.
      destruct n as [|n]; cbn [substring]; now apply IH.
Qed.

(** A string ends with the last of its segments. *)
Lemma splitSep_last s :
  (snd (splitSep s) = [] -> s = fst (splitSep s))
  /\ exists pre,
       s = (pre ++ last (fst (splitSep s) :: snd (splitSep s))
                       EmptyString)%string.
Proof.
  induction s as [|c s [IH1 [pre IH2]]]; cbn [splitSep].
  - split; [reflexivity | now exists EmptyString].
  - destruct (splitSep s) as [h t]. cbn [fst snd] in *.
    destruct (Ascii.eqb c "/"); cbn [fst snd].
    + split; [discriminate|]. exists (String c pre).
      cbn [append]. rewrite IH2 at 1. reflexivity.
    + split.
      * intros ->. now rewrite IH1.
      * destruct t as [|k t].
        -- exists EmptyString. cbn. now rewrite IH1.
        -- exists (String c pre). cbn [append]. rewrite IH2 at 1.
           reflexivity.
Qed.

Lemma split_last s :
  exists pre, s = (pre ++ last (split s) EmptyString)%string.
Proof.
  unfold split. destruct (splitSep_last s) as [_ H].
  now destruct (splitSep s).
Qed.

Lemma append_assoc (a b c : string) :
  ((a ++ b) ++ c = a ++ (b ++ c))%string.
Proof. induction a as [|x a IH]; cbn; [reflexivity | now rewrite IH]. Qed.

Lemma shortenLoop_suffix maxLength rest : forall s,
  exists pre, shortenLoop maxLength rest s = (pre ++ s)%string.
Proof.
  induction rest as [|part rest IH]; intros s; cbn [shortenLoop].
  - now exists EmptyString.
  - destruct (String.length s <? maxLength); [|now exists EmptyString].
    destruct (IH (part ++ "/" ++ s)%string) as [pre ->].
    exists (pre ++ part ++ "/")%string.
    now rewrite !append_assoc.
Qed.

End FormatPath.

(** X10. The path [formatPath] returns has at most 33 characters, three
    more than its [maxLength]: a path cut to its last 30 characters gets
    the three dots in front.  The bound is reached, and by a path of 31
    characters, which [formatPath] makes longer. *)
Theorem formatPath_length :
  (forall filePath, String.length (formatPath filePath) <= 33)
  /\ exists filePath,
       String.length filePath = 31
       /\ String.length (formatPath filePath) = 33.
Proof.
  split.
  - intros filePath. unfold formatPath.
    destruct (Nat.leb_spec (String.length filePath) 30); [lia|].
    match goal with |- context [30 <? String.length ?s] =>
      destruct (Nat.ltb_spec 30 (String.length s))
    end; [|lia].
    cbn [append String.length].
    match goal with |- context [slice_last 30 ?s] =>
      pose proof (substring_length_le 30 (String.length s - 30) s)
    end.
    unfold slice_last. lia.
  - exists "a234567890b234567890c234567890d". split; reflexivity.
Qed.

(** X11. [formatPath] never cuts into a file name of at most 30
    characters: the path it returns ends with the last segment of the
    path it is given. *)
Theorem formatPath_keeps_file_name filePath :
  String.length (last (split filePath) EmptyString) <= 30 ->
  exists pre,
    formatPath filePath
    = (pre ++ last (split filePath) EmptyString)%string.
Proof.
  intros Hn. unfold formatPath.
  destruct (String.length filePath <=? 30); [apply split_last|].
  destruct (shortenLoop_suffix 30 (List.rev (removelast (split filePath)))
              ("..." ++ "/" ++ last (split filePath) EmptyString)%string)
    as [pre E].
  rewrite E.
  replace (pre ++ "..." ++ "/" ++ last (split filePath) EmptyString)%string
    with ((pre ++ ".../") ++ last (split filePath) EmptyString)%string
    by (now rewrite append_assoc).
  destruct (30 <? _); [|eauto].
  destruct (slice_last_suffix 30 _ (pre ++ ".../")%string Hn) as [pre' ->].
  now exists ("..." ++ pre')%string.
Qed.

(** The path of a source file in a project: the file name is kept, the
    result has 33 characters. *)
Lemma formatPath_keeps_file_name_witness :
  String.length
    (last (split "/home/user/projects/app/src/index.js") EmptyString) <= 30
  /\ formatPath "/home/user/projects/app/src/index.js"
     = ".../projects/app/src/.../index.js"
  /\ exists pre,
       formatPath "/home/user/projects/app/src/index.js"
       = (pre ++ last (split "/home/user/projects/app/src/index.js")
                      EmptyString)%string.
Proof.
  split; [vm_compute; lia|]. split; [reflexivity|].
  apply (formatPath_keeps_file_name "/home/user/projects/app/src/index.js").
  vm_compute. lia.
Defined.

(* ================================================================== *)
(** ** Where the files go                                              *)
(* ================================================================== *)

Section Placement.

Variables (source0 destination0 : path) (flatten : bool).
Variables (depth height : nat) (conflictResolution logLevel : string).
Hypothesis source0_entry : source0 <> [].

Let any {A} : A -> Prop := fun _ => True.
Let Q := placed flatten source0 destination0.

Lemma placed_destPath rel :
  Path.dirname (effective flatten (source0 ++ rel) (destination0 ++ rel))
  = target_dir flatten destination0 rel.
Proof.
  unfold effective, target_dir. destruct flatten; [|reflexivity].
  unfold Path.join, Path.basename.
  destruct (source0 ++ rel) as [|x l] eqn:E.
  - apply app_eq_nil in E. now destruct E.
  - apply dirname_snoc.
Qed.

Lemma placed_copyFileItem fuel rel :
  run_inv Q any
    (copyFileItem fuel (source0 ++ rel) (destination0 ++ rel) flatten
                  conflictResolution logLevel).
Proof.
  unfold copyFileItem.
  fold (effective flatten (source0 ++ rel) (destination0 ++ rel)).
  set (destPath := effective flatten (source0 ++ rel) (destination0 ++ rel)).
  assert (Hdir : Path.dirname destPath = target_dir flatten destination0 rel)
    by apply placed_destPath.
  assert (Hcopy : forall d,
            Path.dirname d = target_dir flatten destination0 rel ->
            Q (CopyFile (source0 ++ rel) d)).
  { intros d Hd. exists rel. now split. }
  apply inv_try_catch.
  - eapply inv_bind; [now apply inv_stat|]. intros stats _.
    destruct (isDirectory stats); [apply inv_throw|].
    destruct (String.eqb conflictResolution "overwrite").
    { eapply inv_bind; [|intros; apply inv_report].
      apply inv_copyFile, Hcopy, Hdir. }
    destruct (String.eqb conflictResolution "skip");
      [apply inv_report|].
    destruct (String.eqb conflictResolution "rename");
      [|apply inv_throw].
    eapply inv_bind; [apply inv_uniqueLoop; intros; exact I|].
    intros u Hu. eapply inv_bind; [|intros; apply inv_report].
    apply inv_copyFile, Hcopy.
    destruct Hu as [->|[k ->]]; [exact Hdir|].
    rewrite candidate_S, dirname_snoc. exact Hdir.
  - intros e. destruct (is_ENOENT e); [|apply inv_throw].
    eapply inv_bind; [now apply inv_mkdir|].
    intros _ _. eapply inv_bind; [|intros; apply inv_report].
    apply inv_copyFile, Hcopy, Hdir.
Qed.

Lemma placed_copyItem fuel : forall rel currentDepth,
  run_inv Q any
    (copyItem fuel (source0 ++ rel) (destination0 ++ rel) depth height
              flatten conflictResolution logLevel currentDepth).
Proof.
  induction fuel as [|fuel IH]; intros rel currentDepth;
    cbn [copyItem]; [apply inv_outOfFuel|].
  apply inv_try_catch; [|intros e; apply inv_console].
  eapply inv_bind; [now apply inv_stat|]. intros stats _.
  destruct (isDirectory stats); [|apply placed_copyFileItem].
  destruct (_ && _); [now apply inv_ret|].
  destruct (_ && _); [now apply inv_ret|].
  eapply inv_bind; [now apply inv_readdir|]. intros items _.
  destruct (_ && _); [now apply inv_ret|].
  apply (inv_bind _ any).
  { apply inv_when. unfold ensureDirectory. apply inv_try_catch.
    - eapply inv_bind; [now apply inv_stat|]. intros st _.
      destruct (isFile st); [apply inv_throw | now apply inv_ret].
    - intros e. destruct (is_ENOENT e); [|apply inv_throw].
      now apply inv_mkdir. }
  intros _ _. apply inv_forEach. intros item _.
  replace (if flatten
           then Path.join (destination0 ++ rel) (Path.basename [item])
           else Path.join (destination0 ++ rel) [item])
    with (destination0 ++ (rel ++ [item]))
    by (unfold Path.join, Path.basename, Path.base; cbn [last];
        rewrite <- app_assoc; now destruct flatten).
  unfold Path.join. rewrite <- app_assoc. apply IH.
Qed.

End Placement.

(** X12. Where the files go.  Every [copyFile] call of a traversal from
    [source] to [destination] reads a file [source/rel] and writes it
    into the directory of [destination/rel] without [flatten], and into
    the directory [destination/rel] itself under [flatten], for every
    policy and bound.  So [flatten] does not discard the nesting of the
    source: a file [f] of a source directory is written into
    [destination/f/] and a file [d/f] into [destination/d/f/]; only a
    source that is itself a file goes into the destination. *)
Theorem files_are_placed_by_rel
    fuel source destination depth height flatten conflictResolution
    logLevel currentDepth w w' :
  source <> [] ->
  copyItem fuel source destination depth height flatten conflictResolution
           logLevel currentDepth w = Ret tt w' ->
  exists new,
    calls w' = calls w ++ new
    /\ forall s d, In (CopyFile s d) new ->
         exists rel,
           s = source ++ rel
           /\ Path.dirname d
              = if flatten then destination ++ rel
                else Path.dirname (destination ++ rel).
Proof.
  intros Hs Hrun.
  pose proof (placed_copyItem source destination flatten depth height
                conflictResolution logLevel Hs fuel [] currentDepth w) as H.
  rewrite !app_nil_r, Hrun in H. destruct H as [(new & Hc & HQ & _) _].
  exists new. split; [exact Hc|]. intros s d Hin.
  rewrite Forall_forall in HQ. exact (HQ _ Hin).
Qed.

(** [a/ { x.txt, b/ { y.txt } }] flattened into [out]: [x.txt] is written
    into [out/x.txt/] and [y.txt] into [out/b/y.txt/]. *)
Lemma files_are_placed_by_rel_witness :
  exists w',
    copyItem 3 ["a"] ["out"] 0 0 true "overwrite" "none" 0
             (world_of nestedTree) = Ret tt w'
    /\ In (CopyFile ["a"; "b"; "y.txt"] ["out"; "b"; "y.txt"; "y.txt"])
          (calls w')
    /\ exists new,
         calls w' = calls (world_of nestedTree) ++ new
         /\ forall s d, In (CopyFile s d) new ->
              exists rel,
                s = ["a"] ++ rel /\ Path.dirname d = ["out"] ++ rel.
Proof.
  eexists. split; [vm_compute; reflexivity|]. split.
  - cbn. do 11 right. now left.
  - apply (files_are_placed_by_rel 3 ["a"] ["out"] 0 0 true "overwrite"
             "none" 0 (world_of nestedTree)); [discriminate|].
    vm_compute. reflexivity.
Defined.

(* ================================================================== *)
(** ** Concrete instances of the further properties                    *)
(* ================================================================== *)

(** [file1.txt = "new"] flattened into [out/], which has a [file1.txt]:
    it then reads ["new"]. *)
Lemma overwrite_replaces_content_witness :
  (Fs.lookup ["file1.txt"] (fs (world_of conflictTree)) = Done (File "new")
   /\ Fs.lookup (effective true ["file1.txt"] ["out"])
                (fs (world_of conflictTree)) = Done (File "old"))
  /\ exists w',
       copyItem 1 ["file1.txt"] ["out"] 0 0 true "overwrite" "none" 0
                (world_of conflictTree) = Ret tt w'
       /\ Fs.readFile ["out"; "file1.txt"] (fs w') = Some "new"
       /\ Fs.readFile ["file1.txt"] (fs w') = Some "new".
Proof.
  split; [split; reflexivity|].
  destruct (overwrite_replaces_content 0 ["file1.txt"] ["out"] 0 0 true
              "none" 0 (world_of conflictTree) "new" "old"
              eq_refl eq_refl) as (w' & H1 & H2 & H3 & _).
  exists w'. split; [exact H1|]. split; [exact H2|].
  rewrite H3; [reflexivity | discriminate].
Defined.

(** An empty directory [a/], flattened into [out]: no [out] appears. *)
Lemma flatten_ignores_empty_directory_witness :
  Fs.lookup ["a"] (fs (world_of (Dir [("a", Dir [])]))) = Done (Dir [])
  /\ exists w',
       copyItem 1 ["a"] ["out"] 0 0 true "overwrite" "none" 0
                (world_of (Dir [("a", Dir [])])) = Ret tt w'
       /\ fs w' = Dir [("a", Dir [])]
       /\ console w' = [].
Proof.
  split; [reflexivity|].
  destruct (flatten_ignores_empty_directory 0 ["a"] ["out"] 0 0 "overwrite"
              "none" 0 (world_of (Dir [("a", Dir [])])) eq_refl)
    as (w' & H1 & H2 & H3 & _).
  exists w'. split; [exact H1|]. split; [exact H2 | exact H3].
Defined.

(** The two tasks of [mixedTasks], at the default log level: what is
    printed is the error for the missing source. *)
Lemma copy_prints_by_level_witness :
  exists w',
    copy 3 mixedTasks None (world_of kindTree) = Ret tt w'
    /\ exists new,
         console w' = console (world_of kindTree) ++ new
         /\ Forall (fun l =>
              is_error_line l
              \/ exists item,
                   In item mixedTasks
                   /\ line_at_level (default "none" (logLevel item)) l) new.
Proof.
  eexists. split; [vm_compute; reflexivity|].
  apply (copy_prints_by_level 3 mixedTasks (world_of kindTree)).
  vm_compute. reflexivity.
Defined.

(** The first task of [mixedTasks] has two sources. *)
Lemma array_src_is_one_task_each_witness :
  default "none" (logLevel (plainTask [] ["copy1"])) <> "brief"
  /\ copy 3 [with_src (plainTask [] ["copy1"])
                (Many [["missing.txt"]; ["file1.txt"]])] None
          (world_of kindTree)
     = copy 3 [plainTask ["missing.txt"] ["copy1"];
               plainTask ["file1.txt"] ["copy1"]] None (world_of kindTree).
Proof.
  split; [discriminate|].
  apply (array_src_is_one_task_each 3 (plainTask [] ["copy1"])
           [["missing.txt"]; ["file1.txt"]] None (world_of kindTree)).
  discriminate.
Defined.

(** [folder1/] lies apart from [copy1] and [copy2]: it is what it was. *)
Lemma copy_writes_under_dest_only_witness :
  exists w',
    (forall item, In item mixedTasks -> resolved (dest item) = true)
    /\ (forall item s, In item mixedTasks -> In s (sources_of item) ->
          s <> [] /\ resolved s = true)
    /\ (forall item, In item mixedTasks -> apart ["folder1"] (dest item))
    /\ copy 3 mixedTasks None (world_of kindTree) = Ret tt w'
    /\ Fs.lookup ["folder1"] (fs w')
       = Done (Dir [("file3.txt", File "3")]).
Proof.
  assert (H0 : forall item, In item mixedTasks ->
                 resolved (dest item) = true).
  { intros item [<-|[<-|[]]]; reflexivity. }
  assert (H1 : forall item s, In item mixedTasks ->
                 In s (sources_of item) -> s <> [] /\ resolved s = true).
  { intros item s [<-|[<-|[]]] Hs; cbn in Hs;
      repeat (destruct Hs as [<-|Hs];
              [split; [discriminate | reflexivity]|]); destruct Hs. }
  assert (H2 : forall item, In item mixedTasks ->
                 apart ["folder1"] (dest item)).
  { intros item [<-|[<-|[]]]; split; reflexivity. }
  eexists. split; [exact H0|]. split; [exact H1|]. split; [exact H2|].
  split; [vm_compute; reflexivity|].
  rewrite (copy_writes_under_dest_only 3 mixedTasks (world_of kindTree) _
             ["folder1"] H0 H1 H2); [reflexivity|].
  vm_compute. reflexivity.
Defined.

(** [a/ { x.txt, b/ { y.txt } }] copied to [out]: [out/a] shows what [a]
    shows. *)
Lemma copy_mirrors_tree_witness :
  (Fs.lookup ["a"] (fs (world_of nestedTree))
   = Done (Dir [("x.txt", File "1"); ("b", Dir [("y.txt", File "2")])])
   /\ wf (Dir [("x.txt", File "1"); ("b", Dir [("y.txt", File "2")])])
   /\ Fs.lookup (dest (plainTask ["a"] ["out"]) ++ Path.basename ["a"])
                (fs (world_of nestedTree)) = Fail ENOENT
   /\ apart ["a"] (dest (plainTask ["a"] ["out"]) ++ Path.basename ["a"]))
  /\ exists w',
       copy 3 [plainTask ["a"] ["out"]] None (world_of nestedTree)
       = Ret tt w'
       /\ observe ["out"; "a"; "b"; "y.txt"] (fs w') = Done (Some "2")
       /\ observe ["out"; "a"; "b"] (fs w') = Done None
       /\ observe ["out"; "a"; "z"] (fs w') = Fail ENOENT.
Proof.
  assert (Hwf : wf (Dir [("x.txt", File "1");
                         ("b", Dir [("y.txt", File "2")])])).
  { cbn. repeat split; auto.
    - constructor; [intros [H|[]]; discriminate|].
      constructor; [intros []|constructor].
    - constructor; [intros []|constructor]. }
  split.
  { split; [reflexivity|]. split; [exact Hwf|].
    split; [reflexivity | split; reflexivity]. }
  destruct (copy_mirrors_tree 3 (plainTask ["a"] ["out"]) ["a"]
              (Dir [("x.txt", File "1"); ("b", Dir [("y.txt", File "2")])])
              (world_of nestedTree) eq_refl eq_refl eq_refl eq_refl eq_refl
              Hwf ltac:(cbn; lia) eq_refl (conj eq_refl eq_refl))
    as (w' & H1 & H2 & _).
  exists w'. split; [exact H1|].
  split; [exact (H2 ["b"; "y.txt"])|].
  split; [exact (H2 ["b"]) | exact (H2 ["z"])].
Defined.
